(** * redneuronal: a feed-forward network trainer (include/common.h,
      include/network.h)

    The C++ sources are templates over a numeric type [T]; the embedding is
    generic over a class [Numeric T] that lists the operations the code
    applies to [T].  [std::vector] is a list, [operator[]] is a checked
    lookup whose failure stands for the undefined behaviour of an
    out-of-range access, and the member functions of [NeuralNetwork] thread
    the object explicitly. *)

From Stdlib Require Import ZArith Lia Reals Lra.
From Stdlib Require Import Floats.PrimFloat Numbers.Cyclic.Int63.Uint63.
From Stdlib Require Import Floats.SpecFloat Floats.FloatOps Floats.FloatAxioms.
From Stdlib Require Import Strings.Ascii.
From Stdlib Require Strings.Byte.
From stdpp Require Import base tactics option list.
From coqutil Require Import Z.bitblast.

(** ** Errors and the error monad *)

(** What a call can end with instead of a value: the standard
    exceptions the code can throw, and [Undefined] for an access outside a
    vector ([v[i]] with [i >= v.size()], [back()] or [*end()] of an empty
    range), which C++ leaves undefined. *)
Inductive error : Type :=
  | InvalidArgument   (* std::invalid_argument, thrown by dot_product *)
  | LengthError       (* std::length_error, thrown by std::vector(n) *)
  | BadAlloc          (* std::bad_alloc, thrown by std::vector(n) *)
  | Undefined.        (* out-of-range access *)

Inductive result (A : Type) : Type :=
  | Ok (a : A)
  | Err (e : error).
Arguments Ok {A} a.
Arguments Err {A} e.

#[export] Instance result_ret : MRet result := @Ok.
#[export] Instance result_bind : MBind result := λ A B f m,
  match m with Ok a => f a | Err e => Err e end.

(** [v[i]] *)
Definition at_index {A} (v : list A) (i : nat) : result A :=
  match v !! i with Some x => Ok x | None => Err Undefined end.

(** [for (size_t k = i; k < i + n; ++k) body] over a state [s]. *)
Fixpoint for_loop {St : Type} (n i : nat) (body : nat → St → result St)
    (s : St) : result St :=
  match n with
  | 0 => Ok s
  | S n' => s' ← body i s; for_loop n' (S i) body s'
  end.

(** [for (int k = n - 1; k >= 0; --k) body] over a state [s]. *)
Fixpoint for_down {St : Type} (n : nat) (body : nat → St → result St)
    (s : St) : result St :=
  match n with
  | 0 => Ok s
  | S k => s' ← body k s; for_down k body s'
  end.

(** ** The numeric type parameter [T] *)

(** The operations the templates use on [T]: conversions from [int] and
    [size_t], the four arithmetic operators and [operator<]. *)
Class Arith (T : Type) : Type := {
  Tint : Z → T;
  Tsize : nat → T;
  Tadd : T → T → T;
  Tsub : T → T → T;
  Tmul : T → T → T;
  Tdiv : T → T → T;
  Tlt : T → T → bool;
}.

(** [Arith] together with [std::exp], [std::log] and the constant
    [EPSILON] of common.h. *)
Class Numeric (T : Type) : Type := {
  Numeric_arith :: Arith T;
  Texp : T → T;
  Tlog : T → T;
  EPSILON : T;
}.

Definition T0 `{Arith T} : T := Tint 0.
Definition T1 `{Arith T} : T := Tint 1.

Abbreviation Vector T := (list T) (only parsing).
Abbreviation Matrix T := (list (list T)) (only parsing).

(** ** include/common.h *)

Section common.
Context `{Numeric T}.

(** [dot_product]: throws on vectors of different sizes, otherwise
    accumulates [a[i] * b[i]] from [0], left to right. *)
Definition dot_sum (a b : Vector T) : T :=
  foldl (λ result '(x, y), Tadd result (Tmul x y)) T0 (zip a b).

Definition dot_product (a b : Vector T) : result T :=
  if decide (length a ≠ length b) then Err InvalidArgument
  else Ok (dot_sum a b).

(** [apply_function] on a vector. *)
Definition apply_function (vec : Vector T) (func : T → T) : Vector T :=
  func <$> vec.

(** [std::max_element], as the index of the iterator it returns:
    [largest] starts at the first element and moves to a later element
    only when [*largest < *first]; on an empty range the result is
    [last], at distance [0] from [begin]. *)
Fixpoint max_element_loop (largest : nat) (largest_val : T)
    (first : nat) (rest : list T) : nat :=
  match rest with
  | [] => largest
  | x :: rest' =>
      if Tlt largest_val x
      then max_element_loop first x (S first) rest'
      else max_element_loop largest largest_val (S first) rest'
  end.

Definition max_element (v : Vector T) : nat :=
  match v with
  | [] => 0
  | x :: rest => max_element_loop 0 x 1 rest
  end.

(** [softmax]: [*std::max_element(...)] is read first (undefined on an
    empty vector), then every element is shifted, exponentiated and
    summed from [0] left to right, and finally divided by the sum. *)
Definition softmax (vec : Vector T) : result (Vector T) :=
  max_elem ← at_index vec (max_element vec);
  let exp_values := (λ x, Texp (Tsub x max_elem)) <$> vec in
  let sum_exp := foldl Tadd T0 exp_values in
  Ok ((λ value, Tdiv value sum_exp) <$> exp_values).

End common.

(** ** include/activation.h *)

Module Activation.
Section activation.
Context `{Numeric T}.

(** [relu] is [std::max(static_cast<T>(0), x)], and [std::max(a, b)] is
    [(a < b) ? b : a]. *)
Definition relu (x : T) : T := if Tlt T0 x then x else T0.

(** [x > 0 ? 1 : 0] *)
Definition relu_derivative (x : T) : T := if Tlt T0 x then T1 else T0.

(** The namespace has a [softmax] of its own, with the statements of the
    one of common.h in another order. *)
Definition softmax (x : Vector T) : result (Vector T) :=
  max_elem ← at_index x (max_element x);
  let exp_values := (λ x_i, Texp (Tsub x_i max_elem)) <$> x in
  let sum_exp := foldl Tadd T0 exp_values in
  Ok ((λ value, Tdiv value sum_exp) <$> exp_values).
End activation.
End Activation.

(** ** include/network.h *)

Section network.
Context `{Numeric T}.

(** The data members of [NeuralNetwork<T>]. *)
Record NeuralNetwork : Type := {
  weights : list (Matrix T);
  biases : list (Vector T);
  activations : list (Vector T);
  z_values : list (Vector T);
  learning_rate : T;
}.

Definition set_weights (net : NeuralNetwork) (w : list (Matrix T)) :=
  {| weights := w; biases := biases net; activations := activations net;
     z_values := z_values net; learning_rate := learning_rate net |}.
Definition set_biases (net : NeuralNetwork) (b : list (Vector T)) :=
  {| weights := weights net; biases := b; activations := activations net;
     z_values := z_values net; learning_rate := learning_rate net |}.
Definition set_activations (net : NeuralNetwork) (a : list (Vector T)) :=
  {| weights := weights net; biases := biases net; activations := a;
     z_values := z_values net; learning_rate := learning_rate net |}.
Definition set_z_values (net : NeuralNetwork) (z : list (Vector T)) :=
  {| weights := weights net; biases := biases net;
     activations := activations net; z_values := z;
     learning_rate := learning_rate net |}.

(** *** forward_propagation *)

(** [z[j] = dot_product(weights[i][j], output) + biases[i][j];] *)
Definition forward_z (net : NeuralNetwork) (i : nat) (output : Vector T)
    (j : nat) (z : Vector T) : result (Vector T) :=
  w_i ← at_index (weights net) i;
  row ← at_index w_i j;
  d ← dot_product row output;
  b_i ← at_index (biases net) i;
  b ← at_index b_i j;
  Ok (<[j := Tadd d b]> z).

(** The body of the loop over the layers; the state is the object and
    the local [output].  The ReLU is the lambda
    [std::max(static_cast<T>(0), x)] of the code. *)
Definition forward_layer (i : nat) (st : NeuralNetwork * Vector T)
    : result (NeuralNetwork * Vector T) :=
  let '(net, output) := st in
  w_i ← at_index (weights net) i;
  z ← for_loop (length w_i) 0 (forward_z net i output)
        (replicate (length w_i) T0);
  let net := set_z_values net (z_values net ++ [z]) in
  output ← (if decide (i = length (weights net) - 1)
            then softmax z
            else Ok (apply_function z (λ x, if Tlt T0 x then x else T0)));
  Ok (set_activations net (activations net ++ [output]), output).

Definition forward_propagation (net : NeuralNetwork) (input : Vector T)
    : result (NeuralNetwork * Vector T) :=
  let net := set_z_values (set_activations net []) [] in
  for_loop (length (weights net)) 0 forward_layer (net, input).

(** *** backward_propagation *)

(** [weights[layer][i][j] -= learning_rate * delta[i] *
     (layer == 0 ? input[j] : activations[layer - 1][j]);] *)
Definition update_weight (input delta : Vector T) (layer i j : nat)
    (net : NeuralNetwork) : result NeuralNetwork :=
  w ← at_index (weights net) layer;
  row ← at_index w i;
  w_ij ← at_index row j;
  d ← at_index delta i;
  x ← (if decide (layer = 0) then at_index input j
       else a ← at_index (activations net) (layer - 1); at_index a j);
  let w_ij' := Tsub w_ij (Tmul (Tmul (learning_rate net) d) x) in
  Ok (set_weights net (<[layer := <[i := <[j := w_ij']> row]> w]> (weights net))).

(** [biases[layer][i] -= learning_rate * delta[i];] *)
Definition update_bias (delta : Vector T) (layer i : nat)
    (net : NeuralNetwork) : result NeuralNetwork :=
  b ← at_index (biases net) layer;
  b_i ← at_index b i;
  d ← at_index delta i;
  let b_i' := Tsub b_i (Tmul (learning_rate net) d) in
  Ok (set_biases net (<[layer := <[i := b_i']> b]> (biases net))).

(** The body of the loop over [i] that updates row [i] and bias [i]. *)
Definition update_row (input delta : Vector T) (layer i : nat)
    (net : NeuralNetwork) : result NeuralNetwork :=
  w ← at_index (weights net) layer;
  row ← at_index w i;
  net ← for_loop (length row) 0 (update_weight input delta layer i) net;
  update_bias delta layer i net.

(** [new_delta[j] += delta[i] * weights[layer][i][j];] *)
Definition accumulate_delta (net : NeuralNetwork) (delta : Vector T)
    (layer j i : nat) (new_delta : Vector T) : result (Vector T) :=
  nd ← at_index new_delta j;
  d ← at_index delta i;
  w ← at_index (weights net) layer;
  row ← at_index w i;
  w_ij ← at_index row j;
  Ok (<[j := Tadd nd (Tmul d w_ij)]> new_delta).

(** The body of the loop over [j] that computes [new_delta[j]]; the
    conditional [? 1 : 0] is an [int] converted to [T]. *)
Definition propagate_delta (net : NeuralNetwork) (delta : Vector T)
    (layer j : nat) (new_delta : Vector T) : result (Vector T) :=
  w ← at_index (weights net) layer;
  new_delta ← for_loop (length w) 0 (accumulate_delta net delta layer j)
                new_delta;
  nd ← at_index new_delta j;
  z ← at_index (z_values net) (layer - 1);
  z_j ← at_index z j;
  Ok (<[j := Tmul nd (Tint (if Tlt T0 z_j then 1 else 0))]> new_delta).

(** The body of the loop over the layers, from the last to the first; the
    state is the object and the local [delta]. *)
Definition backward_layer (input : Vector T) (layer : nat)
    (st : NeuralNetwork * Vector T) : result (NeuralNetwork * Vector T) :=
  let '(net, delta) := st in
  w ← at_index (weights net) layer;
  net ← for_loop (length w) 0 (update_row input delta layer) net;
  if decide (0 < layer) then
    w ← at_index (weights net) layer;
    row0 ← at_index w 0;
    new_delta ← for_loop (length row0) 0 (propagate_delta net delta layer)
                  (replicate (length row0) T0);
    Ok (net, new_delta)
  else Ok (net, delta).

(** [delta[i] -= target[i];] *)
Definition subtract_target (target : Vector T) (i : nat) (delta : Vector T)
    : result (Vector T) :=
  d ← at_index delta i;
  t ← at_index target i;
  Ok (<[i := Tsub d t]> delta).

Definition backward_propagation (net : NeuralNetwork)
    (input target : Vector T) : result NeuralNetwork :=
  delta ← match last (activations net) with
          | Some a => Ok a
          | None => Err Undefined
          end;
  delta ← for_loop (length delta) 0 (subtract_target target) delta;
  '(net, _) ← for_down (length (weights net)) (backward_layer input)
                (net, delta);
  Ok net.
End network.
Arguments NeuralNetwork T : clear implicits.

Section training.
Context `{Numeric T}.

(** *** predict *)

(** The result is the [int] distance from [begin] to the iterator of
    [std::max_element]. *)
Definition predict (net : NeuralNetwork T) (input : Vector T)
    : result (NeuralNetwork T * Z) :=
  '(net, output) ← forward_propagation net input;
  Ok (net, Z.of_nat (max_element output)).

(** *** train *)

(** [total_loss -= labels[i][j] * std::log(output[j] + EPSILON);] *)
Definition add_loss (label output : Vector T) (j : nat) (total_loss : T)
    : result T :=
  t ← at_index label j;
  o ← at_index output j;
  Ok (Tsub total_loss (Tmul t (Tlog (Tadd o EPSILON)))).

(** The body of the loop over the samples; the state is the object and
    the local [total_loss]. *)
Definition train_sample (inputs labels : list (Vector T)) (i : nat)
    (st : NeuralNetwork T * T) : result (NeuralNetwork T * T) :=
  let '(net, total_loss) := st in
  input ← at_index inputs i;
  '(net, output) ← forward_propagation net input;
  label ← at_index labels i;
  net ← backward_propagation net input label;
  total_loss ← for_loop (length label) 0 (add_loss label output) total_loss;
  Ok (net, total_loss).

(** The body of the loop over the epochs; the state is the object and
    what was written to [std::cout]: one pair (epoch number, mean loss)
    per line. *)
Definition train_epoch (inputs labels : list (Vector T)) (epoch : nat)
    (st : NeuralNetwork T * list (Z * T))
    : result (NeuralNetwork T * list (Z * T)) :=
  let '(net, cout) := st in
  '(net, total_loss) ← for_loop (length inputs) 0
                         (train_sample inputs labels) (net, T0);
  Ok (net, cout ++ [((Z.of_nat epoch + 1)%Z,
                     Tdiv total_loss (Tsize (length inputs)))]).

(** [for (int epoch = 0; epoch < epochs; ++epoch)]: no iteration when
    [epochs <= 0]. *)
Definition train (net : NeuralNetwork T) (inputs labels : list (Vector T))
    (epochs : Z) : result (NeuralNetwork T * list (Z * T)) :=
  for_loop (Z.to_nat epochs) 0 (train_epoch inputs labels) (net, []).

(** *** evaluate *)

(** The body of the loop over the test inputs; the state is the object
    and the local [correct]. *)
Definition evaluate_sample (inputs : list (Vector T)) (labels : list Z)
    (i : nat) (st : NeuralNetwork T * Z) : result (NeuralNetwork T * Z) :=
  let '(net, correct) := st in
  input ← at_index inputs i;
  '(net, predicted) ← predict net input;
  label ← at_index labels i;
  Ok (net, if decide (predicted = label) then (correct + 1)%Z else correct).

(** The returned value is computed in [double], whatever [T] is:
    [static_cast<double>(correct) / inputs.size() * 100.0].  [D] stands
    for [double]; the literal [100.0] is the conversion of [100]. *)
Definition evaluate `{Arith D} (net : NeuralNetwork T)
    (inputs : list (Vector T)) (labels : list Z)
    : result (NeuralNetwork T * D) :=
  '(net, correct) ← for_loop (length inputs) 0
                      (evaluate_sample inputs labels) (net, 0%Z);
  Ok (net, Tmul (Tdiv (Tint correct) (Tsize (length inputs))) (Tint 100)).

(** *** The constructor *)

(** The generator: [G] is the state of [std::mt19937] and [dis] draws one
    value of [std::uniform_real_distribution<T>(-0.5, 0.5)] from it.  The
    constructor seeds its generator from [std::random_device], so the
    initial state is an argument of the model. *)
Context {G : Type} (dis : G → T * G).

(** [std::vector<A>(n, v)] called with an [int]: the count converts to
    [size_t], so a negative [n] becomes a size of at least
    [2^64 - 2^31], beyond [max_size()], and the constructor throws
    [std::length_error] before it asks for memory.  For a count that is
    not negative it asks for the memory of [n] copies of [v], and throws
    [std::bad_alloc] when the machine does not serve the request:
    [served] tells whether it does. *)
Definition vector_alloc {A} (served : bool) (n : Z) (v : A)
    : result (list A) :=
  if decide (n < 0)%Z then Err LengthError
  else if served then Ok (replicate (Z.to_nat n) v)
  else Err BadAlloc.

(** Whether the machine serves a request for memory is not decided by
    the program: [memory k] tells it for the [k]-th vector a call
    constructs, in the order of the run, and a call is modelled for every
    [memory].  For a vector that [emplace_back] then appends, the request
    includes the growth of the vector that receives it. *)
Context (memory : nat → bool).

(** [for (auto& weight : row) weight = dis(gen);] *)
Fixpoint fill_row (row : Vector T) (gen : G) : Vector T * G :=
  match row with
  | [] => ([], gen)
  | _ :: row' =>
      let '(weight, gen) := dis gen in
      let '(row', gen) := fill_row row' gen in
      (weight :: row', gen)
  end.

(** [for (auto& row : weights.back()) ...] *)
Fixpoint fill_matrix (m : Matrix T) (gen : G) : Matrix T * G :=
  match m with
  | [] => ([], gen)
  | row :: m' =>
      let '(row, gen) := fill_row row gen in
      let '(m', gen) := fill_matrix m' gen in
      (row :: m', gen)
  end.

(** The body of the constructor's loop, for [i] from [1]. *)
Definition construct_layer (architecture : list Z) (i : nat)
    (st : NeuralNetwork T * G) : result (NeuralNetwork T * G) :=
  let '(net, gen) := st in
  n_i ← at_index architecture i;
  n_prev ← at_index architecture (i - 1);
  row ← vector_alloc (memory (3 * (i - 1))) n_prev T0;
  w ← vector_alloc (memory (3 * (i - 1) + 1)) n_i row;
  b ← vector_alloc (memory (3 * (i - 1) + 2)) n_i T0;
  let '(w, gen) := fill_matrix w gen in
  Ok (set_biases (set_weights net (weights net ++ [w])) (biases net ++ [b]),
      gen).

(** [NeuralNetwork(architecture, learning_rate)] *)
Definition new_NeuralNetwork (architecture : list Z) (learning_rate : T)
    (gen : G) : result (NeuralNetwork T) :=
  let net := {| weights := []; biases := []; activations := [];
                z_values := []; learning_rate := learning_rate |} in
  '(net, _) ← for_loop (length architecture - 1) 1
                (construct_layer architecture) (net, gen);
  Ok net.
End training.

(** The memory is ample when every request is served. *)
Definition ample (memory : nat → bool) : Prop := ∀ k, memory k = true.

(** ** Two instances of the numeric parameter *)

(** Exact real arithmetic, the idealisation in which the mathematical
    statements about [softmax] and accuracy are made. *)
#[export] Instance Rlt_decision : RelDecision Rlt := Rlt_dec.

#[export] Instance R_arith : Arith R := {|
  Tint := IZR;
  Tsize := INR;
  Tadd := Rplus;
  Tsub := Rminus;
  Tmul := Rmult;
  Tdiv := Rdiv;
  Tlt x y := bool_decide (x < y)%R;
|}.

#[export] Instance R_numeric : Numeric R := {|
  Texp := exp;
  Tlog := ln;
  EPSILON := (/ 1000000)%R;
|}.

(** IEEE 754 binary64, the [double] of the C++ code: the conversions of
    [int] and [size_t] values and the primitive operations. *)
Definition double_of_Z (z : Z) : float :=
  if decide (z < 0)%Z then PrimFloat.opp (of_uint63 (Uint63.of_Z (- z)))
  else of_uint63 (Uint63.of_Z z).

#[export] Instance double_arith : Arith float := {|
  Tint := double_of_Z;
  Tsize n := of_uint63 (Uint63.of_Z (Z.of_nat n));
  Tadd := PrimFloat.add;
  Tsub := PrimFloat.sub;
  Tmul := PrimFloat.mul;
  Tdiv := PrimFloat.div;
  Tlt := PrimFloat.ltb;
|}.

(** [std::exp] and [std::log] on [double] are functions of the C library
    that the floats of Rocq do not have: the templates at [double] are
    the templates for any two functions in their place.  [EPSILON] is the
    [double] nearest to [1e-6]. *)
Definition double_numeric (exp64 log64 : float → float) : Numeric float :=
  {| Numeric_arith := double_arith;
     Texp := exp64;
     Tlog := log64;
     EPSILON := 0x1.0c6f7a0b5ed8dp-20%float |}.

(** The place of a [double] that is no NaN in the order of [operator<]:
    the sign (with the infinities at the two ends and both zeros in the
    middle), then the exponent, then the mantissa. *)
Definition order_key (x : spec_float) : Z * Z * Z :=
  match x with
  | S754_infinity true => (-2, 0, 0)
  | S754_finite true m e => (-1, - e, - Z.pos m)
  | S754_zero _ => (0, 0, 0)
  | S754_finite false m e => (1, e, Z.pos m)
  | S754_infinity false => (2, 0, 0)
  | S754_nan => (0, 0, 0)
  end%Z.

Definition key_lt (k1 k2 : Z * Z * Z) : Prop :=
  (k1.1.1 < k2.1.1 ∨
   (k1.1.1 = k2.1.1 ∧
    (k1.1.2 < k2.1.2 ∨ (k1.1.2 = k2.1.2 ∧ k1.2 < k2.2))))%Z.

(** *** The values of the doubles

    What the arithmetic of [double] computes is stated on the real values
    of the doubles.  [bpow e] is [2^e], [SF2R] the value of a double in
    the form sign, mantissa, exponent of the IEEE specification (0 for
    the infinities and the NaN, which the predicates below exclude), and
    [to_R] the value of a primitive float. *)
Definition bpow (e : Z) : R := powerRZ 2 e.

Definition SF2R (x : spec_float) : R :=
  match x with
  | S754_finite s m e => IZR (cond_Zopp s (Z.pos m)) * bpow e
  | _ => 0
  end.

Definition to_R (x : float) : R := SF2R (Prim2SF x).

(** A zero or a finite double, and one that is not negative. *)
Definition finite64 (f : spec_float) : Prop :=
  match f with
  | S754_zero _ | S754_finite _ _ _ => True
  | _ => False
  end.

Definition nonneg_finite (r : spec_float) : Prop :=
  match r with
  | S754_zero _ | S754_finite false _ _ => True
  | _ => False
  end.

(** A mantissa and an exponent in the canonical form of binary64. *)
Definition valid64 (f : spec_float) : Prop :=
  SpecFloat.valid_binary prec emax f = true.

(** The exponent of the doubles of magnitude [2^z]: 53 bits of
    mantissa, and no exponent below that of the subnormal numbers. *)
Definition fexp64 (z : Z) : Z := Z.max (z - 53) (-1074).

(** The double [1.0]. *)
Definition SF_one : spec_float := S754_finite false 4503599627370496 (-52).

(** The position of a real [t] against an integer [m], as the rounding
    of the IEEE specification records it: [t] is [m], or it lies between
    [m] and [m + 1], below, at or above the middle. *)
Definition located (t : R) (m : Z) (l : location) : Prop :=
  match l with
  | loc_Exact => t = IZR m
  | loc_Inexact c =>
      (IZR m < t < IZR m + 1)%R ∧
      match c with
      | Lt => (t < IZR m + / 2)%R
      | Eq => t = (IZR m + / 2)%R
      | Gt => (IZR m + / 2 < t)%R
      end
  end.

(** A double in the interval [[0, 1]]: neither a NaN nor an infinity,
    and between the doubles [0.0] and [1.0]. *)
Definition in_unit (y : float) : Prop :=
  (0 <=? y)%float = true ∧ (y <=? 1)%float = true.

(** The unit roundoff of [double], [2^-53], and half of its smallest
    positive number. *)
Definition u64 : R := bpow (-53).
Definition eta64 : R := bpow (-1075).

(** ** The shape invariant and the specification-level definitions *)

(** The laws of [operator<] that make "the maximum" meaningful: a strict
    weak order, as [std::max_element] requires of its comparison. *)
Class StrictWeakOrder (T : Type) `{Arith T} : Prop := {
  Tlt_irrefl (x : T) : Tlt x x = false;
  Tlt_trans (x y z : T) : Tlt x y = true → Tlt y z = true → Tlt x z = true;
  Tlt_incomparable (x y z : T) :
    Tlt x y = false → Tlt y z = false → Tlt x z = false;
}.

Section specification.
Context `{Numeric T}.
Implicit Types (net : NeuralNetwork T) (W : Matrix T).

(** The shape invariant of spec section 3 for an architecture [arch]: one
    weight matrix and one bias vector per transition, the matrix of layer
    [i] with [arch !! (i + 1)] rows of [arch !! i] columns and the bias
    vector with [arch !! (i + 1)] entries. *)
Definition shape_ok (arch : list nat) (net : NeuralNetwork T) : Prop :=
  length (weights net) = length arch - 1 ∧
  length (biases net) = length arch - 1 ∧
  ∀ i n_in n_out, arch !! i = Some n_in → arch !! S i = Some n_out →
    ∃ W b, weights net !! i = Some W ∧ biases net !! i = Some b ∧
      length W = n_out ∧ Forall (λ row, length row = n_in) W ∧
      length b = n_out.

(** An architecture as spec section 4.1 wants it: at least two entries,
    all positive. *)
Definition valid_arch (arch : list nat) : Prop :=
  2 ≤ length arch ∧ Forall (λ n, 0 < n) arch.

(** Spec section 4.2 in its own words, with no function of the code.
    The dot product of a weight row with [x] is the sum of the products
    [w_j * x_j], taken from [0] in the order of [j]; the pre-activation is
    [z = W·x + b], the dot product of every row plus the matching bias
    entry. *)
Definition dot (w x : Vector T) : T := foldl Tadd T0 (zip_with Tmul w x).

Definition pre_activation (W : Matrix T) (b x : Vector T) : Vector T :=
  zip_with (λ row b_j, Tadd (dot row x) b_j) W b.

(** The largest entry of a vector, none for the empty vector. *)
Definition maximum (z : Vector T) : option T :=
  match z with
  | [] => None
  | z0 :: rest => Some (foldl (λ m v, if Tlt m v then v else m) z0 rest)
  end.

(** Softmax with the maximum subtracted:
    [exp (z_i - m) / Σ_j exp (z_j - m)], the sum taken from [0] in the
    order of [j]. *)
Definition softmax_formula (z : Vector T) : option (Vector T) :=
  m ← maximum z;
  let e := λ v, Texp (Tsub v m) in
  Some ((λ v, Tdiv (e v) (foldl Tadd T0 (e <$> z))) <$> z).

(** ReLU is [max (0, v)]. *)
Definition relu_formula (v : T) : T := if Tlt T0 v then v else T0.

(** The list of (pre-activation, activation) pairs, layer by layer: ReLU
    on every layer but the last and softmax on the last, every layer fed
    with the activation of the layer before. *)
Fixpoint forward_math (layers : list (Matrix T * Vector T)) (x : Vector T)
  : option (list (Vector T * Vector T)) :=
  match layers with
  | [] => Some []
  | (W, b) :: rest =>
      let z := pre_activation W b x in
      a ← (match rest with
           | [] => softmax_formula z
           | _ => Some (relu_formula <$> z)
           end);
      cache ← forward_math rest a;
      Some ((z, a) :: cache)
  end.

(** The loops of the forward pass as functions on lists, with the
    [dot_product] and the [softmax] of the code: the form in which the
    loops are reasoned about. *)
Definition affine (W : Matrix T) (b x : Vector T) : Vector T :=
  zip_with (λ row b_j, Tadd (dot_sum row x) b_j) W b.

Fixpoint forward_spec (layers : list (Matrix T * Vector T)) (x : Vector T)
  : result (list (Vector T * Vector T)) :=
  match layers with
  | [] => Ok []
  | (W, b) :: rest =>
      let z := affine W b x in
      a ← (match rest with [] => softmax z | _ => Ok (Activation.relu <$> z) end);
      cache ← forward_spec rest a;
      Ok ((z, a) :: cache)
  end.

(** What holds of the object and the local [output] after [k] layers of
    a successful forward pass started on [net0]. *)
Definition forward_cache_inv (net0 : NeuralNetwork T) (k : nat)
    (st : NeuralNetwork T * Vector T) : Prop :=
  weights st.1 = weights net0 ∧ biases st.1 = biases net0 ∧
  learning_rate st.1 = learning_rate net0 ∧
  length (z_values st.1) = k ∧ length (activations st.1) = k ∧
  ∀ i W, i < k → weights net0 !! i = Some W →
    ∃ z a, z_values st.1 !! i = Some z ∧ activations st.1 !! i = Some a ∧
      length z = length W ∧ length a = length W.

(** The activation of layer [i] of [n] layers, as the code chooses it. *)
Definition activate (n i : nat) (z : Vector T) : result (Vector T) :=
  if decide (i = n - 1) then softmax z
  else Ok (apply_function z (λ x, if Tlt T0 x then x else T0)).

(** The row lengths of every weight matrix, and the lengths of the bias
    vectors. *)
Definition weight_dims net : list (list nat) :=
  (λ W : Matrix T, length <$> W) <$> weights net.
Definition bias_dims net : list nat := length <$> biases net.

(** [net'] has the parameters of [net] up to their values, and the same
    cache and learning rate. *)
Definition params_frame net net' : Prop :=
  weight_dims net' = weight_dims net ∧ bias_dims net' = bias_dims net ∧
  activations net' = activations net ∧ z_values net' = z_values net ∧
  learning_rate net' = learning_rate net.

(** Spec section 4.3, step 2, for one row and for one layer:
    [weight[i][j] -= learning_rate * δ[i] * prev_activation[j]] and
    [bias[i] -= learning_rate * δ[i]]. *)
Definition update_row_spec (lr d : T) (row prev : Vector T) : Vector T :=
  zip_with (λ w x, Tsub w (Tmul (Tmul lr d) x)) row prev.

Definition update_weights_spec (lr : T) (δ prev : Vector T) (W : Matrix T)
  : Matrix T :=
  zip_with (λ row d, update_row_spec lr d row prev) W δ.

Definition update_biases_spec (lr : T) (δ b : Vector T) : Vector T :=
  zip_with (λ b_i d, Tsub b_i (Tmul lr d)) b δ.

(** Column [j] of a matrix. *)
Definition column (j : nat) (W : Matrix T) : Vector T :=
  (λ row, default T0 (row !! j)) <$> W.

(** Spec section 4.3, step 3: [new_δ[j] = Σ_i δ[i] * weight[i][j]], the
    sum taken from [0] in the order of [i], times the ReLU derivative at
    the pre-activation of the preceding layer. *)
Definition propagate_spec (δ : Vector T) (W : Matrix T) (z_prev : Vector T)
  : Vector T :=
  imap (λ j z_j, Tmul (dot_sum δ (column j W)) (Activation.relu_derivative z_j)) z_prev.

(** The activation that feeds layer [layer]: the raw input for the first
    layer, the cached activation of the layer before otherwise. *)
Definition prev_activation (net : NeuralNetwork T) (input : Vector T)
    (layer : nat) : option (Vector T) :=
  if decide (layer = 0) then Some input else activations net !! (layer - 1).

(** The error signal handed to the layer below [layer]: the propagated
    error when there is such a layer, and [delta] itself, no longer used,
    at the first layer. *)
Definition next_delta (net : NeuralNetwork T) (layer : nat)
    (delta : Vector T) (W' : Matrix T) : Vector T :=
  if decide (0 < layer)
  then propagate_spec delta W' (default [] (z_values net !! (layer - 1)))
  else delta.

(** Spec section 4.3 for layer [layer], between the state [net1] before
    the backward pass and the state [net2] after it; [δ] lists the error
    signal of every layer.  The propagated error uses the weights the
    layer has after its update. *)
Definition backward_relation (net1 net2 : NeuralNetwork T)
    (input : Vector T) (δ : list (Vector T)) (layer : nat) : Prop :=
  ∃ W b d prev,
    weights net1 !! layer = Some W ∧ biases net1 !! layer = Some b ∧
    δ !! layer = Some d ∧ prev_activation net1 input layer = Some prev ∧
    weights net2 !! layer
      = Some (update_weights_spec (learning_rate net1) d prev W) ∧
    biases net2 !! layer
      = Some (update_biases_spec (learning_rate net1) d b) ∧
    (0 < layer →
       ∃ z, z_values net1 !! (layer - 1) = Some z ∧
         δ !! (layer - 1)
           = Some (propagate_spec d
                     (update_weights_spec (learning_rate net1) d prev W) z)).

(** What holds when the layers [k] and above have been processed: the
    layers below are untouched, the local [delta] is the error signal of
    layer [k - 1], and the layers from [k] on are related to the initial
    state [net1] by [backward_relation]. *)
Definition backward_inv (arch : list nat) (net1 : NeuralNetwork T)
    (input δL : Vector T) (k : nat) (st : NeuralNetwork T * Vector T)
  : Prop :=
  ∃ δ : list (Vector T),
    length δ = length (weights net1) ∧
    δ !! (length (weights net1) - 1) = Some δL ∧
    activations st.1 = activations net1 ∧ z_values st.1 = z_values net1 ∧
    learning_rate st.1 = learning_rate net1 ∧
    length (weights st.1) = length (weights net1) ∧
    length (biases st.1) = length (biases net1) ∧
    (∀ l, l < k → weights st.1 !! l = weights net1 !! l ∧
                   biases st.1 !! l = biases net1 !! l) ∧
    (0 < k → δ !! (k - 1) = Some st.2 ∧ arch !! k = Some (length st.2)) ∧
    (∀ l, k ≤ l → l < length (weights net1) →
       backward_relation net1 st.1 input δ l).

(** [operator<] orders the entries of [v]: among them it is
    irreflexive and transitive, and so is being incomparable.  This is
    what [std::max_element] asks of the values it is given; the entries
    of a vector of [double]s satisfy it when none of them is a NaN. *)
Definition ordered_entries (v : Vector T) : Prop :=
  ∀ x y z, x ∈ v → y ∈ v → z ∈ v →
    Tlt x x = false ∧
    (Tlt x y = true → Tlt y z = true → Tlt x z = true) ∧
    (Tlt x y = false → Tlt y z = false → Tlt x z = false).

(** [k] is the index of the first maximum of [v]: no entry is greater
    than [v[k]], and every entry before [k] is smaller. *)
Definition is_first_max (v : Vector T) (k : nat) : Prop :=
  ∃ m, v !! k = Some m ∧
    (∀ j x, v !! j = Some x → Tlt m x = false) ∧
    (∀ j x, j < k → v !! j = Some x → Tlt x m = true).

(** Whether [predict] on [x] returns [label]; the answer is a function of
    the parameters of [net]. *)
Definition is_correct (net : NeuralNetwork T) (x : Vector T) (label : Z)
  : bool :=
  match predict net x with
  | Ok (_, predicted) => bool_decide (predicted = label)
  | Err _ => false
  end.

(** The number of indices [i] at which the prediction for [inputs[i]] is
    [labels[i]]. *)
Definition count_correct (net : NeuralNetwork T)
    (inputs : list (Vector T)) (labels : list Z) : nat :=
  length (filter (λ p, is_correct net p.1 p.2 = true) (zip inputs labels)).

(** The data a network of architecture [arch] accepts: every input has
    the size of the input layer. *)
Definition inputs_ok (arch : list nat) (inputs : list (Vector T)) : Prop :=
  Forall (λ x, arch !! 0 = Some (length x)) inputs.

(** The targets a network of architecture [arch] accepts: every target
    has the size of the output layer. *)
Definition targets_ok (arch : list nat) (labels : list (Vector T)) : Prop :=
  Forall (λ y, last arch = Some (length y)) labels.
End specification.

(** ** Exact real arithmetic and concrete data for the examples *)

(** The sum of a vector, accumulated from [0] left to right, as the code
    accumulates [sum_exp]. *)
Definition Rsum (l : list R) : R := foldl Rplus 0%R l.

(** The textbook softmax, with no shift: [exp x_i / Σ_j exp x_j]. *)
Definition softmax_math (x : list R) : list R :=
  (λ x_i, exp x_i / Rsum (exp <$> x))%R <$> x.

(** A generator for the examples: the state counts the draws, and the
    values cycle through [-0.5, -0.4, ..., 0.4]. *)
Definition demo_dis (g : nat) : R * nat :=
  ((IZR (Z.of_nat (g mod 10)) / 10 - / 2)%R, S g).

(** A network of architecture [2, 3, 2] over the reals. *)
Definition netR : NeuralNetwork R :=
  {| weights := [ [[1%R; 2%R]; [3%R; 4%R]; [0%R; 1%R]];
                  [[1%R; 0%R; 1%R]; [0%R; 1%R; 1%R]] ];
     biases := [ [0%R; 0%R; 0%R]; [0%R; 0%R] ];
     activations := []; z_values := [];
     learning_rate := (/ 10)%R |}.

(** The same network with weights and biases 0 in its last layer. *)
Definition netR_flat : NeuralNetwork R :=
  {| weights := [ [[1%R; 2%R]; [3%R; 4%R]; [0%R; 1%R]];
                  [[0%R; 0%R; 0%R]; [0%R; 0%R; 0%R]] ];
     biases := [ [0%R; 0%R; 0%R]; [0%R; 0%R] ];
     activations := []; z_values := [];
     learning_rate := (/ 10)%R |}.

(** The same network with a learning rate of 0. *)
Definition netR_frozen : NeuralNetwork R :=
  {| weights := weights netR; biases := biases netR;
     activations := []; z_values := [];
     learning_rate := 0%R |}.

(** For the examples in [double]: two functions in the place of
    [std::exp] and [std::log] (what is proved holds for every pair, or
    for every pair that has the properties of [std::exp] a statement
    names, which [exp_example] has), and a network of architecture
    [2, 3, 2]. *)
Definition exp_example (x : float) : float := (1 / (1 - x))%float.
Definition log_example (x : float) : float := (x - 1)%float.
Definition double_example : Numeric float :=
  double_numeric exp_example log_example.

Definition netD : NeuralNetwork float :=
  {| weights := [ [[1; 2]; [3; 4]; [0; 1]];
                  [[1; 0; 1]; [0; 1; 1]] ]%float;
     biases := [ [0; 0; 0]; [0; 0] ]%float;
     activations := []; z_values := [];
     learning_rate := 0.125%float |}.

(** ** The rest of include/common.h *)

(** The value an unsigned integer of [bits] bits keeps of [x]. *)
Definition wrap (bits x : Z) : Z := (x mod 2 ^ bits)%Z.

(** [to_big_endian<T>] for the unsigned types it is called with; [size]
    is [sizeof(T)].  With 4 bytes the shifts are those of [uint32_t], so a
    left shift wraps; with 2 bytes the operand is promoted to [int], where
    nothing wraps, and the result converts back to [uint16_t]. *)
Definition to_big_endian (size value : Z) : Z :=
  if decide (size = 4)%Z then
    Z.lor (Z.lor (Z.lor (Z.land (Z.shiftr value 24) 0xff)
                        (Z.land (wrap 32 (Z.shiftl value 8)) 0xff0000))
                 (Z.land (Z.shiftr value 8) 0xff00))
          (Z.land (wrap 32 (Z.shiftl value 24)) 0xff000000)
  else if decide (size = 2)%Z then
    wrap 16 (Z.lor (Z.land (Z.shiftr value 8) 0xff)
                   (Z.land (Z.shiftl value 8) 0xff00))
  else value.

(** Byte [k] of [v], counted from the least significant one. *)
Definition byte_of (k v : Z) : Z := ((v / 2 ^ (8 * k)) mod 2 ^ 8)%Z.

(** [file_header_t]: four [uint32_t] fields. *)
Record file_header_t : Type := {
  magic : Z;
  images : Z;
  rows : Z;
  columns : Z;
}.

Definition convert_big_endian (src : file_header_t) : file_header_t :=
  {| magic := to_big_endian 4 (magic src);
     images := to_big_endian 4 (images src);
     rows := to_big_endian 4 (rows src);
     columns := to_big_endian 4 (columns src) |}.

Section common_rest.
Context `{Numeric T}.

(** [transpose]: an empty matrix is returned as it is; otherwise the
    result has [mat[0].size()] rows of [mat.size()] zeros, and
    [result[j][i] = mat[i][j]] runs over [j < mat[0].size()] in every
    row. *)
Definition transpose_cell (mat : Matrix T) (i j : nat) (res : Matrix T)
    : result (Matrix T) :=
  mat_i ← at_index mat i;
  v ← at_index mat_i j;
  res_j ← at_index res j;
  _ ← at_index res_j i;
  Ok (<[j := <[i := v]> res_j]> res).

Definition transpose (mat : Matrix T) : result (Matrix T) :=
  match mat with
  | [] => Ok []
  | row0 :: _ =>
      for_loop (length mat) 0
        (λ i res, for_loop (length row0) 0 (transpose_cell mat i) res)
        (replicate (length row0) (replicate (length mat) T0))
  end.

(** [apply_function] on a matrix: [mat[0]] is read before anything else,
    also when the matrix is empty; [result[i][j] = func(mat[i][j])] runs
    over [j < mat[0].size()] in every row. *)
Definition apply_cell (mat : Matrix T) (func : T → T) (i j : nat)
    (res : Matrix T) : result (Matrix T) :=
  mat_i ← at_index mat i;
  v ← at_index mat_i j;
  res_i ← at_index res i;
  _ ← at_index res_i j;
  Ok (<[i := <[j := func v]> res_i]> res).

Definition apply_function_matrix (mat : Matrix T) (func : T → T)
    : result (Matrix T) :=
  row0 ← at_index mat 0;
  for_loop (length mat) 0
    (λ i res, for_loop (length row0) 0 (apply_cell mat func i) res)
    (replicate (length mat) (replicate (length row0) T0)).

(** [one_hot_encode]: the [int] label converts to [size_t] for
    [encoded[label]]. *)
Definition one_hot_encode (label : Z) (num_classes : nat)
    : result (Vector T) :=
  let encoded := replicate num_classes T0 in
  let index := Z.to_nat (wrap 64 label) in
  _ ← at_index encoded index;
  Ok (<[index := T1]> encoded).

(** [random_value] and [initialize_matrix].  [G] is the state of the
    function-local static generator and [uniform min max] draws from
    [std::uniform_real_distribution<T>(min, max)]; the literals [-0.5]
    and [0.5] are the quotients [-1 / 2] and [1 / 2], exact in [T]. *)
Context {G : Type} (uniform : T → T → G → T * G).

(** [memory k] tells whether the machine serves the request for memory
    of the [k]-th vector that [initialize_matrix] constructs. *)
Context (memory : nat → bool).

Definition random_value (min max : T) (gen : G) : T * G :=
  uniform min max gen.

(** The distribution [initialize_matrix] draws from. *)
Definition small_values : G → T * G :=
  random_value (Tdiv (Tint (-1)) (Tint 2)) (Tdiv (Tint 1) (Tint 2)).

Definition initialize_cell (i j : nat) (st : Matrix T * G)
    : result (Matrix T * G) :=
  let '(mat, gen) := st in
  let '(v, gen) :=
    random_value (Tdiv (Tint (-1)) (Tint 2)) (Tdiv (Tint 1) (Tint 2)) gen in
  mat_i ← at_index mat i;
  _ ← at_index mat_i j;
  Ok (<[i := <[j := v]> mat_i]> mat, gen).

Definition initialize_matrix (rows cols : Z) (gen : G)
    : result (Matrix T * G) :=
  row ← vector_alloc (memory 0) cols T0;
  mat ← vector_alloc (memory 1) rows row;
  for_loop (Z.to_nat rows) 0
    (λ i st, for_loop (Z.to_nat cols) 0 (initialize_cell i) st) (mat, gen).
End common_rest.

(** ** include/utils.h *)

Section utils.
Context `{Numeric T}.

(** What [std::endl] writes. *)
Definition endl : ascii := "010"%char.

(** [std::cout << (image[i * columns + j] > static_cast<T>(0.5) ? "1" : " ")
    << " ";] with the text written so far as the state.  The literal
    [0.5] is the quotient [1 / 2].  The index is computed in [int]; the
    loops run it over [0 <= i < rows] and [0 <= j < columns], where it
    stays below [rows * columns]. *)
Definition display_pixel (image : Vector T) (columns : Z) (i j : nat)
    (cout : list ascii) : result (list ascii) :=
  x ← at_index image (Z.to_nat (Z.of_nat i * columns + Z.of_nat j));
  Ok (cout ++ [if Tlt (Tdiv (Tint 1) (Tint 2)) x then "1"%char else " "%char;
               " "%char]).

(** The body of the loop over [i]. *)
Definition display_row (image : Vector T) (columns : Z) (i : nat)
    (cout : list ascii) : result (list ascii) :=
  cout ← for_loop (Z.to_nat columns) 0 (display_pixel image columns i) cout;
  Ok (cout ++ [endl]).

(** [display_image], returning the text it writes to [std::cout].  The
    product [rows * columns] is computed in [int], where an overflow is
    undefined, and converts to [size_t] for the comparison with
    [image.size()]. *)
Definition display_image (image : Vector T) (rows columns : Z)
    : result (list ascii) :=
  if decide (- 2 ^ 31 ≤ rows * columns < 2 ^ 31)%Z then
    if decide (Z.of_nat (length image) ≠ wrap 64 (rows * columns))
    then Err InvalidArgument
    else
      cout ← for_loop (Z.to_nat rows) 0 (display_row image columns) [];
      Ok (cout ++ [endl])
  else Err Undefined.

(** The picture in words: a pixel is ["1"] when its value is above one
    half and a blank otherwise, and is followed by a blank; every row of
    [cols] pixels is a line, and an empty line ends the picture. *)
Definition pixel_text (x : T) : list ascii :=
  [if Tlt (Tdiv (Tint 1) (Tint 2)) x then "1"%char else " "%char; " "%char].

Definition image_line (row : Vector T) : list ascii :=
  flat_map pixel_text row ++ [endl].

Definition image_text (rows cols : nat) (image : Vector T) : list ascii :=
  flat_map (λ i, image_line (take cols (drop (i * cols) image))) (seq 0 rows)
  ++ [endl].
End utils.

(** ** include/dataset.h *)

(** The private readers of [Dataset].  A file is the list of its bytes,
    or nothing when it cannot be opened; the host is little-endian, as
    the byte swaps of the code assume, and no allocation fails for lack of
    memory. *)
Module Dataset.

(** What a reader ends with instead of a value: one of the
    [std::runtime_error]s it throws, named after its message, or
    undefined behaviour. *)
Inductive failure : Type :=
  | CannotOpenImages    (* "Error: no se pudo abrir el archivo de imagenes" *)
  | InvalidDimensions   (* "... tiene dimensiones invalidas." *)
  | TruncatedImages     (* "... no se pudieron leer todas las imagenes ..." *)
  | CannotOpenLabels    (* "Error: no se pudo abrir el archivo de etiquetas" *)
  | InvalidLabelHeader  (* "... no tiene un encabezado valido." *)
  | TruncatedLabels     (* "... no se pudieron leer todas las etiquetas ..." *)
  | UndefinedBehaviour.

Inductive outcome (A : Type) : Type :=
  | Done (a : A)
  | Fail (f : failure).
Arguments Done {A} a.
Arguments Fail {A} f.

#[export] Instance outcome_ret : MRet outcome := @Done.
#[export] Instance outcome_bind : MBind outcome := λ A B f m,
  match m with Done a => f a | Fail e => Fail e end.

(** [v[i]] *)
Definition at_index {A} (v : list A) (i : nat) : outcome A :=
  match v !! i with Some x => Done x | None => Fail UndefinedBehaviour end.

(** [for (size_t k = i; k < i + n; ++k) body] over a state [s]. *)
Fixpoint for_loop {St : Type} (n i : nat) (body : nat → St → outcome St)
    (s : St) : outcome St :=
  match n with
  | 0 => Done s
  | S n' => s' ← body i s; for_loop n' (S i) body s'
  end.











(** *** read_labels *)



(** *** read_images *)

Section read_images.
Context `{Numeric T}.





End read_images.





End Dataset.

(** ** Reasoning about the error monad and the loops *)

Lemma bind_Ok {A B} (m : result A) (f : A → result B) (b : B) :
  m ≫= f = Ok b ↔ ∃ a, m = Ok a ∧ f a = Ok b.
Proof.
  destruct m as [a|e]; simpl; split.
  - intros Hf. exists a. split; [reflexivity | exact Hf].
  - intros (a' & Ha & Hf). injection Ha as ->. exact Hf.
  - discriminate.
  - intros (a' & Ha & _). discriminate.
Qed.

Lemma at_index_Ok {A} (v : list A) (i : nat) (x : A) :
  at_index v i = Ok x ↔ v !! i = Some x.
Proof.
  unfold at_index. destruct (v !! i); split; intros Heq;
    try discriminate; congruence.
Qed.

Lemma at_index_lt {A} (v : list A) (i : nat) :
  i < length v → ∃ x, at_index v i = Ok x ∧ v !! i = Some x.
Proof.
  intros Hi. destruct (lookup_lt_is_Some_2 v i Hi) as [x Hx].
  exists x. split; [by apply at_index_Ok | done].
Qed.

(** Inversion of a successful computation: every bind in the hypotheses
    is split into its two successful halves. *)
Ltac inv_result :=
  repeat match goal with
  | H : _ ≫= _ = Ok _ |- _ =>
      apply bind_Ok in H; destruct H as (? & ? & H)
  | H : at_index _ _ = Ok _ |- _ => apply at_index_Ok in H
  | H : Ok _ = Ok _ |- _ => injection H as H; try subst
  | H : Err _ = Ok _ |- _ => discriminate H
  | H : (let '(_, _) := ?p in _) = Ok _ |- _ => destruct p
  | H : (if ?c then _ else _) = Ok _ |- _ => destruct c
  end.

(** Partial correctness of [for_loop]: an invariant [P k s], on the index
    about to be run and the state, carries over a successful run. *)
Lemma for_loop_inv {St} (P : nat → St → Prop) n i body (s s' : St) :
  P i s →
  (∀ k t t', i ≤ k < i + n → P k t → body k t = Ok t' → P (S k) t') →
  for_loop n i body s = Ok s' →
  P (i + n) s'.
Proof.
  revert i s. induction n as [|n IH]; intros i s Hs Hstep Hrun; simpl in *.
  - injection Hrun as <-. by rewrite Nat.add_0_r.
  - apply bind_Ok in Hrun as (t & Hbody & Hrun).
    replace (i + S n) with (S i + n) by lia.
    apply (IH (S i) t); [|intros k u u' Hk; apply Hstep; lia|done].
    apply (Hstep i s t); [lia|done..].
Qed.

(** Total correctness of [for_loop]: when the body succeeds from every
    state that satisfies the invariant, so does the loop. *)
Lemma for_loop_total {St} (P : nat → St → Prop) n i body (s : St) :
  P i s →
  (∀ k t, i ≤ k < i + n → P k t → ∃ t', body k t = Ok t' ∧ P (S k) t') →
  ∃ s', for_loop n i body s = Ok s' ∧ P (i + n) s'.
Proof.
  revert i s. induction n as [|n IH]; intros i s Hs Hstep; simpl.
  - exists s. by rewrite Nat.add_0_r.
  - destruct (Hstep i s) as (t & -> & Ht); [lia|done|]. simpl.
    replace (i + S n) with (S i + n) by lia.
    apply IH; [done|]. intros k u Hk. apply Hstep. lia.
Qed.

(** The same two rules for the descending loop; the invariant is on the
    number of indices still to run. *)
Lemma for_down_inv {St} (P : nat → St → Prop) n body (s s' : St) :
  P n s →
  (∀ k t t', k < n → P (S k) t → body k t = Ok t' → P k t') →
  for_down n body s = Ok s' →
  P 0 s'.
Proof.
  revert s. induction n as [|n IH]; intros s Hs Hstep Hrun; simpl in *.
  - by injection Hrun as <-.
  - apply bind_Ok in Hrun as (t & Hbody & Hrun).
    apply (IH t); [|intros k u u' Hk; apply Hstep; lia|done].
    apply (Hstep n s t); [lia|done..].
Qed.

Lemma for_down_total {St} (P : nat → St → Prop) n body (s : St) :
  P n s →
  (∀ k t, k < n → P (S k) t → ∃ t', body k t = Ok t' ∧ P k t') →
  ∃ s', for_down n body s = Ok s' ∧ P 0 s'.
Proof.
  revert s. induction n as [|n IH]; intros s Hs Hstep; simpl.
  - by exists s.
  - destruct (Hstep n s) as (t & -> & Ht); [lia|done|]. simpl.
    apply IH; [done|]. intros k u Hk. apply Hstep. lia.
Qed.

(** Two loops with bodies that agree on the indices run are equal. *)
Lemma for_loop_ext {St} n i (body body' : nat → St → result St) s :
  (∀ k t, i ≤ k < i + n → body k t = body' k t) →
  for_loop n i body s = for_loop n i body' s.
Proof.
  revert i s. induction n as [|n IH]; intros i s Hext; simpl; [done|].
  rewrite Hext by lia. destruct (body' i s) as [t|e]; simpl; [|done].
  apply IH. intros k u Hk. apply Hext. lia.
Qed.

(** A loop whose iterations succeed up to index [k] and whose iteration
    [k] fails, fails with the error of that iteration. *)
Lemma for_loop_fails {St} (P : nat → St → Prop) n i k body (s : St) e :
  i ≤ k < i + n → P i s →
  (∀ j t, i ≤ j < k → P j t → ∃ t', body j t = Ok t' ∧ P (S j) t') →
  (∀ t, P k t → body k t = Err e) →
  for_loop n i body s = Err e.
Proof.
  revert i s. induction n as [|n IH]; intros i s Hk Hs Hstep Hfail; [lia|].
  simpl. destruct (decide (i = k)) as [->|Hne].
  - by rewrite Hfail.
  - destruct (Hstep i s) as (t & -> & Ht); [lia|done|]. simpl.
    apply IH; [lia|done| |done]. intros j u Hj. apply Hstep. lia.
Qed.

(** ** forward_propagation *)

Section forward.
Context `{Numeric T}.
Implicit Types (net : NeuralNetwork T) (W : Matrix T).

Lemma softmax_length (v a : Vector T) : softmax v = Ok a → length a = length v.
Proof.
  unfold softmax. intros Hs. inv_result. by rewrite !length_fmap.
Qed.

Lemma max_element_loop_lt (rest : list T) (l f : nat) (lv : T) :
  l < f → max_element_loop l lv f rest < f + length rest.
Proof.
  revert l f lv. induction rest as [|y rest IH]; intros l f lv Hl; simpl.
  - lia.
  - destruct (Tlt lv y).
    + specialize (IH f (S f) y). lia.
    + specialize (IH l (S f) lv). lia.
Qed.

Lemma max_element_lt (v : Vector T) : v ≠ [] → max_element v < length v.
Proof.
  destruct v as [|x rest]; [done|]. intros _. simpl.
  pose proof (max_element_loop_lt rest 0 1 x). lia.
Qed.

Lemma softmax_nonempty (v : Vector T) : v ≠ [] → ∃ a, softmax v = Ok a.
Proof.
  intros Hv. unfold softmax.
  destruct (at_index_lt _ _ (max_element_lt v Hv)) as (m & -> & _).
  simpl. eauto.
Qed.

(** The loop that fills [z] keeps its length. *)
Lemma forward_z_loop_length net i output n (z0 z : Vector T) :
  for_loop n 0 (forward_z net i output) z0 = Ok z → length z = length z0.
Proof.
  apply (for_loop_inv (λ _ z, length z = length z0)); [done|].
  intros k t t' _ Ht Hbody. unfold forward_z in Hbody. inv_result.
  by rewrite length_insert.
Qed.

(** One iteration of the loop over the layers, when it succeeds: the
    parameters are untouched and one vector is appended to each cache. *)
Lemma forward_layer_inv i net output net' output' :
  forward_layer i (net, output) = Ok (net', output') →
  weights net' = weights net ∧ biases net' = biases net ∧
  learning_rate net' = learning_rate net ∧
  ∃ W z, weights net !! i = Some W ∧
    z_values net' = z_values net ++ [z] ∧
    activations net' = activations net ++ [output'] ∧
    length z = length W ∧ length output' = length W.
Proof.
  unfold forward_layer. intros Hrun.
  apply bind_Ok in Hrun as (W & HW%at_index_Ok & Hrun).
  apply bind_Ok in Hrun as (z & Hz & Hrun).
  apply bind_Ok in Hrun as (a & Ha & Hrun).
  injection Hrun as <- <-. simpl.
  apply forward_z_loop_length in Hz. rewrite length_replicate in Hz.
  split_and!; try done. exists W, z. split_and!; try done.
  destruct (decide _).
  - apply softmax_length in Ha. lia.
  - injection Ha as <-. unfold apply_function. by rewrite length_fmap.
Qed.

Lemma forward_propagation_inv net input net' output :
  forward_propagation net input = Ok (net', output) →
  forward_cache_inv net (length (weights net)) (net', output).
Proof.
  unfold forward_propagation. simpl.
  apply (for_loop_inv (forward_cache_inv net) _ 0).
  - repeat split; simpl; try done. intros; lia.
  - intros k [nk ok] [nk' ok'] Hk (HW & Hb & Hlr & Hz & Ha & Hcache) Hbody.
    apply forward_layer_inv in Hbody
      as (HW' & Hb' & Hlr' & W & z & HWk & Hz' & Ha' & Hlz & Hla).
    simpl in *. unfold forward_cache_inv. simpl.
    rewrite HW', Hb', Hlr', Hz', Ha', !length_app. simpl.
    split_and!; try congruence; try lia.
    intros i Wi Hi HWi.
    destruct (decide (i = k)) as [->|Hne].
    + exists z, ok'. rewrite HW in HWk.
      rewrite (list_lookup_middle (z_values nk) [] z k) by done.
      rewrite (list_lookup_middle (activations nk) [] ok' k) by done.
      split_and!; congruence.
    + destruct (Hcache i Wi) as (zi & ai & Hzi & Hai & Hl); [lia|done|].
      exists zi, ai. rewrite !lookup_app_l by lia. done.
Qed.

Lemma affine_length W (b x : Vector T) :
  length b = length W → length (affine W b x) = length W.
Proof. intros Hb. unfold affine. rewrite length_zip_with. lia. Qed.

Lemma affine_lookup W (b x : Vector T) j row b_j :
  W !! j = Some row → b !! j = Some b_j →
  affine W b x !! j = Some (Tadd (dot_sum row x) b_j).
Proof.
  intros HW Hb. unfold affine. rewrite lookup_zip_with, HW. simpl.
  by rewrite Hb.
Qed.

(** On a layer whose rows have the length of [output], the loop that
    fills [z] succeeds and computes [W·output + b]. *)
Lemma forward_z_loop_total net i output W (b : Vector T) :
  weights net !! i = Some W → biases net !! i = Some b →
  length b = length W → Forall (λ row, length row = length output) W →
  for_loop (length W) 0 (forward_z net i output) (replicate (length W) T0)
    = Ok (affine W b output).
Proof.
  intros HW Hb Hlen Hrows.
  destruct (for_loop_total
    (λ j (z : Vector T), length z = length W ∧
       ∀ j', j' < j → z !! j' = affine W b output !! j')
    (length W) 0 (forward_z net i output) (replicate (length W) T0))
    as (z & -> & Hlz & Hz).
  - split; [by rewrite length_replicate | intros; lia].
  - intros j t Hj [Hlt Ht].
    destruct (lookup_lt_is_Some_2 W j) as [row Hrow]; [lia|].
    destruct (lookup_lt_is_Some_2 b j) as [b_j Hb_j]; [lia|].
    pose proof (proj1 (Forall_lookup _ _) Hrows j row Hrow) as Hrl.
    simpl in Hrl.
    exists (<[j := Tadd (dot_sum row output) b_j]> t). split.
    + unfold forward_z, at_index, dot_product. rewrite HW. simpl.
      rewrite Hrow. simpl. destruct (decide _) as [Hne|_]; [done|]. simpl.
      rewrite Hb. simpl. by rewrite Hb_j.
    + split; [by rewrite length_insert|]. intros j' Hj'.
      destruct (decide (j' = j)) as [->|Hne].
      * rewrite list_lookup_insert_eq by lia.
        symmetry. by apply affine_lookup.
      * rewrite list_lookup_insert_ne by done. apply Ht. lia.
  - f_equal. apply list_eq. intros j.
    destruct (decide (j < length W)) as [Hj|Hj]; [apply Hz; lia|].
    rewrite !lookup_ge_None_2; [done| |lia].
    rewrite affine_length; [lia|done].
Qed.

Lemma forward_layer_total net output i W (b : Vector T) a :
  weights net !! i = Some W → biases net !! i = Some b →
  length b = length W → Forall (λ row, length row = length output) W →
  activate (length (weights net)) i (affine W b output) = Ok a →
  forward_layer i (net, output)
    = Ok (set_activations
            (set_z_values net (z_values net ++ [affine W b output]))
            (activations net ++ [a]), a).
Proof.
  intros HW Hb Hlen Hrows Ha. unfold forward_layer, at_index.
  rewrite HW. simpl.
  rewrite (forward_z_loop_total net i output W b) by done. simpl.
  unfold activate in Ha. by rewrite Ha.
Qed.

Lemma forward_spec_step (layers : list (Matrix T * Vector T)) k W b x a rest :
  layers !! k = Some (W, b) →
  activate (length layers) k (affine W b x) = Ok a →
  forward_spec (drop (S k) layers) a = Ok rest →
  forward_spec (drop k layers) x = Ok ((affine W b x, a) :: rest).
Proof.
  intros Hk Ha Hrest. rewrite (drop_S _ _ _ Hk). simpl.
  pose proof (lookup_lt_Some _ _ _ Hk) as Hlt.
  unfold activate, apply_function in Ha.
  destruct (drop (S k) layers) as [|l ls] eqn:Hdrop.
  - apply (f_equal length) in Hdrop. rewrite length_drop in Hdrop.
    simpl in Hdrop. destruct (decide _) as [_|Hne]; [|lia].
    rewrite Ha. simpl. simpl in Hrest. by injection Hrest as <-.
  - apply (f_equal length) in Hdrop. rewrite length_drop in Hdrop.
    simpl in Hdrop. destruct (decide _) as [Heq|_]; [lia|].
    injection Ha as <-. change (Ok ?v ≫= ?f) with (f v). cbv beta.
    change (Activation.relu <$> affine W b x)
      with ((λ x, if Tlt T0 x then x else T0) <$> affine W b x).
    by rewrite Hrest.
Qed.

Lemma shape_ok_layer arch net i :
  shape_ok arch net → S i < length arch →
  ∃ n_in n_out W b, arch !! i = Some n_in ∧ arch !! S i = Some n_out ∧
    weights net !! i = Some W ∧ biases net !! i = Some b ∧
    length W = n_out ∧ Forall (λ row, length row = n_in) W ∧
    length b = n_out.
Proof.
  intros (_ & _ & Hshape) Hi.
  destruct (lookup_lt_is_Some_2 arch i) as [n_in Hin]; [lia|].
  destruct (lookup_lt_is_Some_2 arch (S i)) as [n_out Hout]; [lia|].
  destruct (Hshape i n_in n_out Hin Hout) as (W & b & HW & Hb & Hrest).
  destruct Hrest as (? & ? & ?). exists n_in, n_out, W, b. by split_and!.
Qed.

(** The forward pass on a well-dimensioned input succeeds, and its cache
    and result are those of [forward_spec]. *)
Lemma forward_propagation_total arch net input :
  valid_arch arch → shape_ok arch net → arch !! 0 = Some (length input) →
  ∃ net' output cache,
    forward_propagation net input = Ok (net', output) ∧
    forward_spec (zip (weights net) (biases net)) input = Ok cache ∧
    z_values net' = cache.*1 ∧ activations net' = cache.*2 ∧
    last (activations net') = Some output.
Proof.
  intros [Hlen Hpos] Hshape Hin. unfold forward_propagation. simpl.
  set (layers := zip (weights net) (biases net)).
  pose proof Hshape as (HlW & Hlb & _).
  assert (length layers = length (weights net)) as Hll.
  { unfold layers. rewrite length_zip. lia. }
  destruct (for_loop_total
    (λ k (st : NeuralNetwork T * Vector T),
       weights st.1 = weights net ∧ biases st.1 = biases net ∧
       arch !! k = Some (length st.2) ∧
       length (z_values st.1) = k ∧ length (activations st.1) = k ∧
       (∀ rest, forward_spec (drop k layers) st.2 = Ok rest →
          forward_spec layers input
            = Ok (zip (z_values st.1) (activations st.1) ++ rest)) ∧
       (0 < k → last (activations st.1) = Some st.2))
    (length (weights net)) 0 forward_layer
    (set_z_values (set_activations net []) [], input))
    as ([net' output] & Hrun & HW & Hb & _ & Hlz & Hla & Hspec & Hlast).
  - simpl. split_and!; try done. lia.
  - intros k [nk out] Hk (HW & Hb & Hout & Hlz & Hla & Hspec & Hlast).
    simpl in *.
    destruct (shape_ok_layer arch net k Hshape)
      as (n_in & n_out & W & b & Hn_in & Hn_out & HWk & Hbk & HlW' & Hrows
          & Hlb'); [lia|].
    assert (n_in = length out) as -> by congruence.
    assert (0 < n_out) as Hn_pos.
    { apply (proj1 (Forall_lookup _ _) Hpos _ _ Hn_out). }
    assert (∃ a, activate (length (weights nk)) k (affine W b out) = Ok a
             ∧ length a = n_out) as (a & Ha & Hlen_a).
    { unfold activate. destruct (decide _).
      - destruct (softmax_nonempty (affine W b out)) as [a Ha].
        + intros Hnil. apply (f_equal length) in Hnil.
          rewrite affine_length in Hnil by lia. simpl in Hnil. lia.
        + exists a. split; [done|]. apply softmax_length in Ha.
          rewrite Ha, affine_length; lia.
      - eexists. split; [done|]. unfold apply_function.
        rewrite length_fmap, affine_length; lia. }
    eexists. split.
    + apply (forward_layer_total nk out k W b a); congruence.
    + simpl. rewrite !length_app. simpl.
      split_and!; try done; try lia.
      * by rewrite Hlen_a.
      * intros rest Hrest.
        rewrite zip_with_app by lia. simpl. rewrite <- app_assoc. simpl.
        apply Hspec. apply forward_spec_step; [|by rewrite Hll, <- HW|done].
        unfold layers. rewrite lookup_zip_with, HWk. simpl. by rewrite Hbk.
      * intros _. by rewrite last_snoc.
  - simpl in *. exists net', output.
    exists (zip (z_values net') (activations net')).
    split; [exact Hrun|]. split_and!.
    + rewrite <- (app_nil_r (zip _ _)). apply Hspec.
      rewrite drop_ge by lia. done.
    + rewrite fst_zip; [done|lia].
    + rewrite snd_zip; [done|lia].
    + apply Hlast. lia.
Qed.
End forward.

(** ** backward_propagation: what it leaves unchanged *)

Section backward_frame.
Context `{Numeric T}.
Implicit Types (net : NeuralNetwork T) (W : Matrix T).

Lemma params_frame_refl net : params_frame net net.
Proof. by repeat split. Qed.

Lemma params_frame_trans net1 net2 net3 :
  params_frame net1 net2 → params_frame net2 net3 → params_frame net1 net3.
Proof.
  intros (? & ? & ? & ? & ?) (? & ? & ? & ? & ?).
  repeat split; congruence.
Qed.

Lemma shape_ok_dims arch net net' :
  weight_dims net' = weight_dims net → bias_dims net' = bias_dims net →
  shape_ok arch net → shape_ok arch net'.
Proof.
  unfold weight_dims, bias_dims. intros HW Hb (HlW & Hlb & Hshape).
  split_and!.
  - apply (f_equal length) in HW. rewrite !length_fmap in HW. lia.
  - apply (f_equal length) in Hb. rewrite !length_fmap in Hb. lia.
  - intros i n_in n_out Hin Hout.
    destruct (Hshape i n_in n_out Hin Hout)
      as (W & b & HWi & Hbi & HlenW & Hrows & Hlenb).
    apply (f_equal (.!! i)) in HW. apply (f_equal (.!! i)) in Hb.
    rewrite !list_lookup_fmap in HW. rewrite !list_lookup_fmap in Hb.
    rewrite HWi in HW. rewrite Hbi in Hb. simpl in HW, Hb.
    destruct (weights net' !! i) as [W'|] eqn:HW'; [|done].
    destruct (biases net' !! i) as [b'|] eqn:Hb'; [|done].
    simpl in HW, Hb. injection HW as HW. injection Hb as Hb.
    exists W', b'. split_and!; try done.
    + apply (f_equal length) in HW. rewrite !length_fmap in HW. lia.
    + apply Forall_lookup. intros j row' Hrow'.
      apply (f_equal (.!! j)) in HW. rewrite !list_lookup_fmap in HW.
      rewrite Hrow' in HW. simpl in HW.
      destruct (W !! j) as [row|] eqn:Hrow; [|done].
      simpl in HW. injection HW as HW.
      pose proof (proj1 (Forall_lookup _ _) Hrows j row Hrow). simpl in *.
      lia.
    + lia.
Qed.

Lemma shape_ok_frame arch net net' :
  params_frame net net' → shape_ok arch net → shape_ok arch net'.
Proof. intros (? & ? & _). by apply shape_ok_dims. Qed.

Lemma update_weight_frame input delta layer i j net net' :
  update_weight input delta layer i j net = Ok net' → params_frame net net'.
Proof.
  unfold update_weight. intros Hrun.
  apply bind_Ok in Hrun as (W & HW%at_index_Ok & Hrun).
  apply bind_Ok in Hrun as (row & Hrow%at_index_Ok & Hrun).
  apply bind_Ok in Hrun as (w & Hw%at_index_Ok & Hrun).
  apply bind_Ok in Hrun as (d & _ & Hrun).
  apply bind_Ok in Hrun as (x & _ & Hrun).
  injection Hrun as <-. repeat split. unfold weight_dims. simpl.
  rewrite list_fmap_insert. apply list_insert_id.
  rewrite list_lookup_fmap, HW. simpl. f_equal.
  rewrite list_fmap_insert. symmetry. apply list_insert_id.
  rewrite list_lookup_fmap, Hrow. simpl. f_equal.
  by rewrite length_insert.
Qed.

Lemma update_bias_frame delta layer i net net' :
  update_bias delta layer i net = Ok net' → params_frame net net'.
Proof.
  unfold update_bias. intros Hrun.
  apply bind_Ok in Hrun as (b & Hb%at_index_Ok & Hrun).
  apply bind_Ok in Hrun as (b_i & _ & Hrun).
  apply bind_Ok in Hrun as (d & _ & Hrun).
  injection Hrun as <-. repeat split. unfold bias_dims. simpl.
  rewrite list_fmap_insert. apply list_insert_id.
  rewrite list_lookup_fmap, Hb. simpl. f_equal.
  by rewrite length_insert.
Qed.

Lemma update_row_frame input delta layer i net net' :
  update_row input delta layer i net = Ok net' → params_frame net net'.
Proof.
  unfold update_row. intros Hrun.
  apply bind_Ok in Hrun as (W & _ & Hrun).
  apply bind_Ok in Hrun as (row & _ & Hrun).
  apply bind_Ok in Hrun as (net1 & Hloop & Hrun).
  apply (params_frame_trans _ net1); [|by eapply update_bias_frame].
  revert Hloop. apply (for_loop_inv (λ _ t, params_frame net t)).
  - apply params_frame_refl.
  - intros k t t' _ Ht Hbody. apply (params_frame_trans _ t); [done|].
    by eapply update_weight_frame.
Qed.

Lemma backward_layer_frame input layer net delta net' delta' :
  backward_layer input layer (net, delta) = Ok (net', delta') →
  params_frame net net'.
Proof.
  unfold backward_layer. intros Hrun.
  apply bind_Ok in Hrun as (W & _ & Hrun).
  apply bind_Ok in Hrun as (net1 & Hloop & Hrun).
  assert (params_frame net net1) as Hframe.
  { revert Hloop. apply (for_loop_inv (λ _ t, params_frame net t)).
    - apply params_frame_refl.
    - intros k t t' _ Ht Hbody. apply (params_frame_trans _ t); [done|].
      by eapply update_row_frame. }
  destruct (decide _); inv_result; done.
Qed.

(** A successful backward pass changes the values of the parameters
    only: their dimensions, the cache and the learning rate stay. *)
Lemma backward_propagation_frame net input target net' :
  backward_propagation net input target = Ok net' → params_frame net net'.
Proof.
  unfold backward_propagation. intros Hrun.
  apply bind_Ok in Hrun as (delta0 & _ & Hrun).
  apply bind_Ok in Hrun as (delta & _ & Hrun).
  apply bind_Ok in Hrun as ([net1 delta1] & Hloop & Hrun).
  injection Hrun as <-. revert Hloop.
  apply (for_down_inv (λ _ st, params_frame net st.1)).
  - apply params_frame_refl.
  - intros k [t d] [t' d'] _ Ht Hbody. simpl in *.
    apply (params_frame_trans _ t); [done|].
    by eapply backward_layer_frame.
Qed.
End backward_frame.

(** ** backward_propagation: the gradient step *)

(** An in-place loop over a vector that has rewritten the entries below
    [k] holds [take k new ++ drop k old]. *)
Lemma insert_take_drop {A} (new old : list A) (k : nat) (v : A) :
  new !! k = Some v → k < length old →
  <[k := v]> (take k new ++ drop k old) = take (S k) new ++ drop (S k) old.
Proof.
  intros Hnew Hold.
  destruct (lookup_lt_is_Some_2 old k Hold) as [o Ho].
  pose proof (lookup_lt_Some _ _ _ Hnew) as Hlt.
  rewrite (take_S_r _ _ _ Hnew), (drop_S _ _ _ Ho), <- app_assoc. simpl.
  replace k with (length (take k new) + 0) at 1
    by (rewrite length_take; lia).
  by rewrite insert_app_r.
Qed.

Lemma lookup_take_drop {A} (new old : list A) (k : nat) :
  k ≤ length new → (take k new ++ drop k old) !! k = old !! k.
Proof.
  intros Hk. rewrite lookup_app_r by (rewrite length_take; lia).
  rewrite length_take, lookup_drop. f_equal. lia.
Qed.

Lemma take_drop_all {A} (new old : list A) :
  length new = length old →
  take (length old) new ++ drop (length old) old = new.
Proof.
  intros Hlen. rewrite take_ge by lia. rewrite drop_ge by lia.
  apply app_nil_r.
Qed.

Section backward_total.
Context `{Numeric T}.
Implicit Types (net : NeuralNetwork T) (W : Matrix T).

(** The first loop: [delta] becomes [activation - target], elementwise. *)
Lemma subtract_target_loop (delta target : Vector T) :
  length delta ≤ length target →
  for_loop (length delta) 0 (subtract_target target) delta
    = Ok (zip_with Tsub delta target).
Proof.
  intros Hlen. set (new := zip_with Tsub delta target).
  assert (length new = length delta) as Hnew.
  { unfold new. rewrite length_zip_with. lia. }
  destruct (for_loop_total
    (λ i (d : Vector T), d = take i new ++ drop i delta)
    (length delta) 0 (subtract_target target) delta) as (d & -> & ->).
  - done.
  - intros i t Hi ->.
    destruct (lookup_lt_is_Some_2 delta i) as [d_i Hd]; [lia|].
    destruct (lookup_lt_is_Some_2 target i) as [t_i Ht]; [lia|].
    exists (<[i := Tsub d_i t_i]> (take i new ++ drop i delta)). split.
    + unfold subtract_target, at_index.
      rewrite lookup_take_drop, Hd by lia. simpl. by rewrite Ht.
    + apply insert_take_drop; [|lia].
      unfold new. rewrite lookup_zip_with, Hd. simpl. by rewrite Ht.
  - simpl. by rewrite take_drop_all.
Qed.

(** The loop over [j]: row [i] of layer [layer] becomes
    [update_row_spec]. *)
Lemma update_weight_loop net input delta layer i W row d prev :
  weights net !! layer = Some W → W !! i = Some row →
  delta !! i = Some d → prev_activation net input layer = Some prev →
  length row ≤ length prev →
  for_loop (length row) 0 (update_weight input delta layer i) net
    = Ok (set_weights net
            (<[layer := <[i := update_row_spec (learning_rate net) d row prev]>
                          W]> (weights net))).
Proof.
  intros HW Hrow Hd Hprev Hlen.
  set (new := update_row_spec (learning_rate net) d row prev).
  assert (length new = length row) as Hnew.
  { unfold new, update_row_spec. rewrite length_zip_with. lia. }
  pose proof (lookup_lt_Some _ _ _ HW) as Hlayer.
  pose proof (lookup_lt_Some _ _ _ Hrow) as Hi.
  destruct (for_loop_total
    (λ j t, t = set_weights net
                  (<[layer := <[i := take j new ++ drop j row]> W]>
                     (weights net)))
    (length row) 0 (update_weight input delta layer i) net)
    as (t & -> & ->).
  - simpl. rewrite drop_0, (list_insert_id W i row) by done.
    rewrite list_insert_id by done. by destruct net.
  - intros j t Hj ->.
    destruct (lookup_lt_is_Some_2 row j) as [w Hw]; [lia|].
    destruct (lookup_lt_is_Some_2 prev j) as [x Hx]; [lia|].
    eexists. split.
    + unfold update_weight, at_index. simpl.
      rewrite list_lookup_insert_eq by done. simpl.
      rewrite list_lookup_insert_eq by done. simpl.
      rewrite lookup_take_drop, Hw by lia. simpl. rewrite Hd. simpl.
      unfold prev_activation in Hprev. destruct (decide (layer = 0)).
      * injection Hprev as ->. rewrite Hx. simpl. reflexivity.
      * rewrite Hprev. simpl. rewrite Hx. simpl. reflexivity.
    + unfold set_weights. simpl. f_equal.
      rewrite !list_insert_insert_eq. do 2 f_equal.
      apply insert_take_drop; [|lia].
      unfold new, update_row_spec. rewrite lookup_zip_with, Hw. simpl.
      by rewrite Hx.
  - simpl. by rewrite take_drop_all.
Qed.

(** One iteration of the loop over [i]: row [i] and bias [i] of the
    layer are updated. *)
Lemma update_row_total net input delta layer i W row b b_i d prev :
  weights net !! layer = Some W → W !! i = Some row →
  biases net !! layer = Some b → b !! i = Some b_i →
  delta !! i = Some d → prev_activation net input layer = Some prev →
  length row ≤ length prev →
  update_row input delta layer i net
    = Ok (set_biases
            (set_weights net
               (<[layer := <[i := update_row_spec (learning_rate net) d row
                                    prev]> W]> (weights net)))
            (<[layer := <[i := Tsub b_i (Tmul (learning_rate net) d)]> b]>
               (biases net))).
Proof.
  intros HW Hrow Hb Hb_i Hd Hprev Hlen. unfold update_row, at_index.
  rewrite HW. simpl. rewrite Hrow. simpl.
  rewrite (update_weight_loop net input delta layer i W row d prev) by done.
  simpl. unfold update_bias, at_index. simpl. rewrite Hb. simpl.
  rewrite Hb_i. simpl. by rewrite Hd.
Qed.

(** The loop over [i]: the whole layer is updated. *)
Lemma update_rows_loop net input delta layer W b prev :
  weights net !! layer = Some W → biases net !! layer = Some b →
  length b = length W → length delta = length W →
  prev_activation net input layer = Some prev →
  Forall (λ row, length row ≤ length prev) W →
  for_loop (length W) 0 (update_row input delta layer) net
    = Ok (set_biases
            (set_weights net
               (<[layer := update_weights_spec (learning_rate net) delta prev
                             W]> (weights net)))
            (<[layer := update_biases_spec (learning_rate net) delta b]>
               (biases net))).
Proof.
  intros HW Hb Hlb Hld Hprev Hrows.
  set (newW := update_weights_spec (learning_rate net) delta prev W).
  set (newb := update_biases_spec (learning_rate net) delta b).
  assert (length newW = length W) as HnewW.
  { unfold newW, update_weights_spec. rewrite length_zip_with. lia. }
  assert (length newb = length b) as Hnewb.
  { unfold newb, update_biases_spec. rewrite length_zip_with. lia. }
  pose proof (lookup_lt_Some _ _ _ HW) as HlayerW.
  pose proof (lookup_lt_Some _ _ _ Hb) as Hlayerb.
  destruct (for_loop_total
    (λ i t, t = set_biases
                  (set_weights net
                     (<[layer := take i newW ++ drop i W]> (weights net)))
                  (<[layer := take i newb ++ drop i b]> (biases net)))
    (length W) 0 (update_row input delta layer) net) as (t & -> & ->).
  - simpl. rewrite !drop_0, !list_insert_id by done. by destruct net.
  - intros i t Hi ->.
    destruct (lookup_lt_is_Some_2 W i) as [row Hrow]; [lia|].
    destruct (lookup_lt_is_Some_2 b i) as [b_i Hb_i]; [lia|].
    destruct (lookup_lt_is_Some_2 delta i) as [d Hd]; [lia|].
    pose proof (proj1 (Forall_lookup _ _) Hrows i row Hrow) as Hrl.
    simpl in Hrl. eexists. split.
    + apply (update_row_total _ input delta layer i
               (take i newW ++ drop i W) row
               (take i newb ++ drop i b) b_i d prev); simpl.
      * by rewrite list_lookup_insert_eq.
      * by rewrite lookup_take_drop by lia.
      * by rewrite list_lookup_insert_eq.
      * by rewrite lookup_take_drop by lia.
      * done.
      * done.
      * done.
    + unfold set_biases, set_weights. simpl. f_equal.
      * rewrite list_insert_insert_eq. f_equal.
        apply insert_take_drop; [|lia].
        unfold newW, update_weights_spec.
        rewrite lookup_zip_with, Hrow. simpl. by rewrite Hd.
      * rewrite list_insert_insert_eq. f_equal.
        apply insert_take_drop; [|lia].
        unfold newb, update_biases_spec.
        rewrite lookup_zip_with, Hb_i. simpl. by rewrite Hd.
  - simpl. rewrite <- Hlb at 3 4. by rewrite !take_drop_all.
Qed.

Lemma column_lookup W j i row (w : T) :
  W !! i = Some row → row !! j = Some w → column j W !! i = Some w.
Proof.
  intros Hrow Hw. unfold column. rewrite list_lookup_fmap, Hrow. simpl.
  by rewrite Hw.
Qed.

(** The loop over [i] that accumulates [new_delta[j]], started on a
    vector whose entry [j] is [0]. *)
Lemma accumulate_delta_loop net delta layer j W (new_delta : Vector T) :
  weights net !! layer = Some W → length delta = length W →
  Forall (λ row, j < length row) W → new_delta !! j = Some T0 →
  for_loop (length W) 0 (accumulate_delta net delta layer j) new_delta
    = Ok (<[j := dot_sum delta (column j W)]> new_delta).
Proof.
  intros HW Hld Hrows Hnd.
  set (f := λ (result : T) '(x, y), Tadd result (Tmul x y)).
  set (pairs := zip delta (column j W)).
  assert (length pairs = length W) as Hpairs.
  { unfold pairs, column. rewrite length_zip, length_fmap. lia. }
  pose proof (lookup_lt_Some _ _ _ Hnd) as Hj.
  destruct (for_loop_total
    (λ i (t : Vector T), t = <[j := foldl f T0 (take i pairs)]> new_delta)
    (length W) 0 (accumulate_delta net delta layer j) new_delta)
    as (t & -> & ->).
  - simpl. by rewrite list_insert_id.
  - intros i t Hi ->.
    destruct (lookup_lt_is_Some_2 W i) as [row Hrow]; [lia|].
    destruct (lookup_lt_is_Some_2 delta i) as [d Hd]; [lia|].
    pose proof (proj1 (Forall_lookup _ _) Hrows i row Hrow) as Hrl.
    simpl in Hrl.
    destruct (lookup_lt_is_Some_2 row j Hrl) as [w Hw].
    eexists. split.
    + unfold accumulate_delta, at_index.
      rewrite list_lookup_insert_eq by done. simpl. rewrite Hd. simpl.
      rewrite HW. simpl. rewrite Hrow. simpl. rewrite Hw. simpl.
      reflexivity.
    + rewrite list_insert_insert_eq. f_equal.
      assert (pairs !! i = Some (d, w)) as Hpair.
      { unfold pairs. rewrite lookup_zip_with, Hd. simpl.
        by rewrite (column_lookup W j i row w). }
      by rewrite (take_S_r _ _ _ Hpair), foldl_app.
  - simpl. rewrite take_ge by lia. done.
Qed.

(** One iteration of the loop over [j]: [new_delta[j]] is computed. *)
Lemma propagate_delta_total net delta layer j W z z_j
    (new_delta : Vector T) :
  weights net !! layer = Some W → length delta = length W →
  Forall (λ row, j < length row) W → new_delta !! j = Some T0 →
  z_values net !! (layer - 1) = Some z → z !! j = Some z_j →
  propagate_delta net delta layer j new_delta
    = Ok (<[j := Tmul (dot_sum delta (column j W)) (Activation.relu_derivative z_j)]>
            new_delta).
Proof.
  intros HW Hld Hrows Hnd Hz Hz_j. unfold propagate_delta, at_index.
  rewrite HW. simpl.
  rewrite (accumulate_delta_loop net delta layer j W new_delta) by done.
  simpl. rewrite list_lookup_insert_eq by (by eapply lookup_lt_Some).
  simpl. rewrite Hz. simpl. rewrite Hz_j. simpl.
  rewrite list_insert_insert_eq. unfold Activation.relu_derivative, T1, T0.
  by destruct (Tlt _ z_j).
Qed.

(** The loop over [j]: the propagated error of spec section 4.3. *)
Lemma propagate_delta_loop net delta layer W z n :
  weights net !! layer = Some W → length delta = length W →
  Forall (λ row, length row = n) W →
  z_values net !! (layer - 1) = Some z → length z = n →
  for_loop n 0 (propagate_delta net delta layer) (replicate n T0)
    = Ok (propagate_spec delta W z).
Proof.
  intros HW Hld Hrows Hz Hlz.
  set (new := propagate_spec delta W z).
  assert (length new = n) as Hnew.
  { unfold new, propagate_spec. by rewrite length_imap. }
  destruct (for_loop_total
    (λ j (t : Vector T), t = take j new ++ drop j (replicate n T0))
    n 0 (propagate_delta net delta layer) (replicate n T0))
    as (t & -> & ->).
  - simpl. by rewrite drop_0.
  - intros j t Hj ->.
    destruct (lookup_lt_is_Some_2 z j) as [z_j Hz_j]; [lia|].
    eexists. split.
    + apply (propagate_delta_total net delta layer j W z z_j); try done.
      * eapply Forall_impl; [exact Hrows|]. simpl. intros row ->. lia.
      * rewrite lookup_take_drop by lia. apply lookup_replicate_2. lia.
    + apply insert_take_drop; [|rewrite length_replicate; lia].
      unfold new, propagate_spec. rewrite list_lookup_imap, Hz_j. done.
  - simpl. rewrite take_ge by lia.
    rewrite drop_ge by (rewrite length_replicate; lia). by rewrite app_nil_r.
Qed.

Lemma update_weights_spec_shape lr (delta prev : Vector T) W n :
  length delta = length W → length prev = n →
  Forall (λ row, length row = n) W →
  length (update_weights_spec lr delta prev W) = length W ∧
  Forall (λ row, length row = n) (update_weights_spec lr delta prev W).
Proof.
  intros Hld Hlp Hrows. unfold update_weights_spec. split.
  - rewrite length_zip_with. lia.
  - apply Forall_lookup. intros i row' Hrow'.
    rewrite lookup_zip_with in Hrow'.
    destruct (W !! i) as [row|] eqn:Hrow; [|done]. simpl in Hrow'.
    destruct (delta !! i) as [d|]; [|done]. simpl in Hrow'.
    injection Hrow' as <-. unfold update_row_spec.
    pose proof (proj1 (Forall_lookup _ _) Hrows i row Hrow) as Hrl.
    simpl in Hrl. rewrite length_zip_with. lia.
Qed.

(** One iteration of the loop over the layers on a layer of the right
    dimensions: the layer is updated, then the error is propagated
    through the updated weights. *)
Lemma backward_layer_total net input delta layer W b prev n_in :
  weights net !! layer = Some W → biases net !! layer = Some b →
  length b = length W → length delta = length W →
  prev_activation net input layer = Some prev → length prev = n_in →
  Forall (λ row, length row = n_in) W →
  (0 < layer → 0 < length W ∧
     ∃ z, z_values net !! (layer - 1) = Some z ∧ length z = n_in) →
  let W' := update_weights_spec (learning_rate net) delta prev W in
  let b' := update_biases_spec (learning_rate net) delta b in
  backward_layer input layer (net, delta)
    = Ok (set_biases (set_weights net (<[layer := W']> (weights net)))
            (<[layer := b']> (biases net)),
          next_delta net layer delta W').
Proof.
  intros HW Hb Hlb Hld Hprev Hlp Hrows Hbelow W' b'.
  unfold backward_layer, at_index. rewrite HW. simpl.
  rewrite (update_rows_loop net input delta layer W b prev); try done.
  2:{ eapply Forall_impl; [exact Hrows|]. simpl. intros row ->. lia. }
  simpl. fold W' b'. unfold next_delta.
  destruct (decide (0 < layer)) as [Hpos|Hzero]; [|done].
  destruct (Hbelow Hpos) as (HposW & z & Hz & Hlz).
  destruct (update_weights_spec_shape (learning_rate net) delta prev W n_in)
    as [HlW' Hrows']; try done. fold W' in HlW', Hrows'.
  rewrite list_lookup_insert_eq by (by eapply lookup_lt_Some). simpl.
  destruct (lookup_lt_is_Some_2 W' 0) as [row0 Hrow0]; [lia|].
  rewrite Hrow0. simpl.
  pose proof (proj1 (Forall_lookup _ _) Hrows' 0 row0 Hrow0) as Hrl.
  simpl in Hrl. rewrite Hrl, Hz. simpl.
  rewrite (propagate_delta_loop _ delta layer W' z n_in);
    [done| |lia|done..].
  simpl. rewrite list_lookup_insert_eq; [done|by eapply lookup_lt_Some].
Qed.

(** The state a forward pass on a well-dimensioned input leaves: the
    parameters are those of [net], and the cache has one pair of vectors
    per layer, of the size of the layer. *)
Lemma forward_cache_shape arch net input net1 output :
  valid_arch arch → shape_ok arch net → arch !! 0 = Some (length input) →
  forward_propagation net input = Ok (net1, output) →
  shape_ok arch net1 ∧ weights net1 = weights net ∧
  biases net1 = biases net ∧ learning_rate net1 = learning_rate net ∧
  last (activations net1) = Some output ∧
  last arch = Some (length output) ∧
  ∀ i, S i < length arch →
    ∃ z a, z_values net1 !! i = Some z ∧ activations net1 !! i = Some a ∧
      arch !! S i = Some (length z) ∧ arch !! S i = Some (length a).
Proof.
  intros Hvalid Hshape Hin Hrun.
  destruct (forward_propagation_total arch net input Hvalid Hshape Hin)
    as (net' & output' & cache & Hrun' & _ & _ & _ & Hlast).
  rewrite Hrun in Hrun'. injection Hrun' as <- <-.
  destruct (forward_propagation_inv net input net1 output Hrun)
    as (HW & Hb & Hlr & Hlz & Hla & Hcache). simpl in *.
  assert (shape_ok arch net1) as Hshape1.
  { apply (shape_ok_dims arch net); [| |done].
    - unfold weight_dims. by rewrite HW.
    - unfold bias_dims. by rewrite Hb. }
  assert (∀ i, S i < length arch →
    ∃ z a, z_values net1 !! i = Some z ∧ activations net1 !! i = Some a ∧
      arch !! S i = Some (length z) ∧ arch !! S i = Some (length a))
    as Hall.
  { intros i Hi.
    destruct (shape_ok_layer arch net i Hshape Hi)
      as (n_in & n_out & W & b & _ & Hn_out & HWi & _ & HlW & _ & _).
    destruct (Hcache i W) as (z & a & Hz & Ha & Hlenz & Hlena);
      [by eapply lookup_lt_Some|done|].
    exists z, a. split_and!; try done; congruence. }
  split_and!; try done.
  destruct Hvalid as [Hlen _]. destruct Hshape as (HlW & _).
  destruct (Hall (length arch - 2)) as (z & a & _ & Ha & _ & Harch); [lia|].
  rewrite last_lookup in Hlast. rewrite last_lookup.
  replace (pred (length arch)) with (S (length arch - 2)) by lia.
  rewrite Harch. f_equal. f_equal.
  replace (pred (length (activations net1))) with (length arch - 2)
    in Hlast by lia.
  congruence.
Qed.

Lemma backward_inv_step arch net input net1 output δL k st :
  valid_arch arch → shape_ok arch net → arch !! 0 = Some (length input) →
  forward_propagation net input = Ok (net1, output) →
  k < length (weights net1) →
  backward_inv arch net1 input δL (S k) st →
  ∃ st', backward_layer input k st = Ok st' ∧
    backward_inv arch net1 input δL k st'.
Proof.
  intros Hvalid Hshape Hin Hfw Hk.
  destruct st as [t d].
  intros (δ & Hlδ & HδL & Hact & Hzv & Hlr & HlW & Hlb & Hbelow & Hcur
          & Hdone). simpl in *.
  destruct (forward_cache_shape arch net input net1 output)
    as (Hshape1 & _ & _ & _ & _ & _ & Hcache); try done.
  pose proof Hshape1 as (HL & HLb & _).
  destruct (Hcur ltac:(lia)) as [Hδk Hld].
  rewrite Nat.sub_0_r in Hδk.
  destruct (shape_ok_layer arch net1 k Hshape1)
    as (n_in & n_out & W & b & Hn_in & Hn_out & HWk & Hbk & HlenW & Hrows
        & Hlenb); [lia|].
  destruct (Hbelow k) as [HWt Hbt]; [lia|].
  rewrite HWk in HWt. rewrite Hbk in Hbt.
  assert (∃ prev, prev_activation net1 input k = Some prev
                  ∧ length prev = n_in) as (prev & Hprev & Hlprev).
  { unfold prev_activation. destruct (decide (k = 0)) as [->|Hne].
    - exists input. split; [done|]. congruence.
    - destruct (Hcache (k - 1)) as (z & a & _ & Ha & _ & Hlen); [lia|].
      exists a. split; [done|].
      replace (S (k - 1)) with k in Hlen by lia. congruence. }
  assert (prev_activation t input k = Some prev) as Hprev_t.
  { unfold prev_activation in *. by rewrite Hact. }
  assert (0 < k → 0 < length W ∧
            ∃ z, z_values t !! (k - 1) = Some z ∧ length z = n_in)
    as Hz_below.
  { intros Hpos. split.
    - destruct Hvalid as [_ Hpos_arch].
      pose proof (proj1 (Forall_lookup _ _) Hpos_arch _ _ Hn_out).
      simpl in *. lia.
    - destruct (Hcache (k - 1)) as (z & a & Hz & _ & Hlen & _); [lia|].
      exists z. rewrite Hzv. split; [done|].
      replace (S (k - 1)) with k in Hlen by lia. congruence. }
  eexists. split.
  { apply (backward_layer_total t input d k W b prev n_in); try done.
    - lia.
    - congruence. }
  set (W' := update_weights_spec (learning_rate t) d prev W).
  set (b' := update_biases_spec (learning_rate t) d b).
  set (d' := next_delta t k d W').
  exists (if decide (0 < k) then <[k - 1 := d']> δ else δ). simpl.
  assert (k < length (weights t)) as Hkt by lia.
  assert (k < length (biases t)) as Hkb by lia.
  split_and!; try done.
  - destruct (decide _); [by rewrite length_insert|done].
  - destruct (decide _); [|done].
    rewrite list_lookup_insert_ne by lia. done.
  - by rewrite length_insert.
  - by rewrite length_insert.
  - intros l Hl. rewrite !list_lookup_insert_ne by lia. apply Hbelow. lia.
  - intros Hpos. destruct (decide _) as [_|]; [|lia].
    rewrite list_lookup_insert_eq by lia. split; [done|].
    destruct (Hz_below Hpos) as (_ & z & Hz & Hlz).
    unfold d', next_delta. destruct (decide _) as [_|]; [|lia].
    rewrite Hz. simpl. unfold propagate_spec. rewrite length_imap.
    congruence.
  - intros l Hkl Hl. destruct (decide (l = k)) as [->|Hne].
    + exists W, b, d, prev. rewrite <- Hlr. fold W' b'. simpl.
      rewrite !list_lookup_insert_eq by done.
      split_and!; try done.
      * destruct (decide _) as [Hpos|]; [|done].
        by rewrite list_lookup_insert_ne by lia.
      * intros Hpos. destruct (Hz_below Hpos) as (_ & z & Hz & Hlz).
        exists z. rewrite <- Hzv. split; [done|].
        destruct (decide _) as [_|]; [|lia].
        rewrite list_lookup_insert_eq by lia.
        unfold d', next_delta. destruct (decide _) as [_|]; [|lia].
        by rewrite Hz.
    + destruct (Hdone l) as (Wl & bl & dl & pl & ? & ? & ? & ? & ? & ? & Hz);
        [lia|done|].
      exists Wl, bl, dl, pl. simpl. rewrite !list_lookup_insert_ne by done.
      split_and!; try done.
      * destruct (decide _); [|done].
        by rewrite list_lookup_insert_ne by lia.
      * intros Hpos. destruct (Hz Hpos) as (z & Hzl & Hδl).
        exists z. split; [done|]. destruct (decide _); [|done].
        by rewrite list_lookup_insert_ne by lia.
Qed.

(** A backward pass that follows a forward pass on a well-dimensioned
    sample succeeds, and relates every layer as spec section 4.3 says. *)
Lemma backward_propagation_total arch net input target net1 output :
  valid_arch arch → shape_ok arch net → arch !! 0 = Some (length input) →
  last arch = Some (length target) →
  forward_propagation net input = Ok (net1, output) →
  ∃ net2 (δ : list (Vector T)),
    backward_propagation net1 input target = Ok net2 ∧
    length δ = length (weights net1) ∧
    last δ = Some (zip_with Tsub output target) ∧
    ∀ layer, layer < length (weights net1) →
      backward_relation net1 net2 input δ layer.
Proof.
  intros Hvalid Hshape Hin Htarget Hfw.
  destruct (forward_cache_shape arch net input net1 output)
    as (Hshape1 & _ & _ & _ & Hlast & Hlast_arch & Hcache); try done.
  assert (length output = length target) as Hlen by congruence.
  pose proof Hshape1 as (HL & HLb & _). pose proof Hvalid as [Hlen_arch _].
  set (δL := zip_with Tsub output target).
  destruct (for_down_total (backward_inv arch net1 input δL)
    (length (weights net1)) (backward_layer input) (net1, δL))
    as ([net2 d] & Hrun & δ & Hlδ & HδL & _ & _ & _ & _ & _ & _ & _ & Hdone).
  - exists (replicate (length (weights net1)) δL). simpl.
    rewrite length_replicate. split_and!; try done.
    + apply lookup_replicate_2. lia.
    + intros _. split; [apply lookup_replicate_2; lia|].
      unfold δL. rewrite length_zip_with.
      rewrite last_lookup in Hlast_arch.
      replace (Init.Nat.pred (length arch)) with (length (weights net1))
        in Hlast_arch by lia.
      rewrite Hlast_arch. f_equal. lia.
    + intros; lia.
  - intros k st Hk Hinv.
    by apply (backward_inv_step arch net input net1 output).
  - exists net2, δ. unfold backward_propagation. rewrite Hlast. simpl.
    rewrite subtract_target_loop by lia. simpl. fold δL. rewrite Hrun.
    simpl. split_and!; try done.
    + rewrite last_lookup, Hlδ.
      by replace (Init.Nat.pred (length (weights net1)))
        with (length (weights net1) - 1) by lia.
    + intros layer Hlayer. apply Hdone; [lia|done].
Qed.
End backward_total.

(** ** The constructor *)

(** A loop fails only with an error one of its iterations fails with. *)
Lemma for_loop_err {St} (Q : error → Prop) n i body (s : St) e :
  (∀ k t e, i ≤ k < i + n → body k t = Err e → Q e) →
  for_loop n i body s = Err e → Q e.
Proof.
  revert i s. induction n as [|n IH]; intros i s Hbody Hrun; simpl in *.
  - discriminate.
  - destruct (body i s) as [t|e'] eqn:Hstep; simpl in Hrun.
    + apply (IH (S i) t); [|done]. intros k u e' Hk. apply Hbody. lia.
    + injection Hrun as ->. apply (Hbody i s); [lia|done].
Qed.

Section constructor.
Context `{Numeric T} {G : Type} (dis : G → T * G) (memory : nat → bool).
Implicit Types (net : NeuralNetwork T) (gen : G).

Lemma fill_row_length (row : Vector T) gen :
  length (fill_row dis row gen).1 = length row.
Proof.
  revert gen. induction row as [|w row IH]; intros gen; simpl; [done|].
  destruct (dis gen) as [w' gen']. specialize (IH gen').
  destruct (fill_row dis row gen') as [row' gen'']. simpl in *. lia.
Qed.

Lemma fill_matrix_shape (m : Matrix T) gen n :
  Forall (λ row, length row = n) m →
  length (fill_matrix dis m gen).1 = length m ∧
  Forall (λ row, length row = n) (fill_matrix dis m gen).1.
Proof.
  revert gen. induction m as [|row m IH]; intros gen Hrows; simpl; [done|].
  apply Forall_cons in Hrows as [Hrow Hrows].
  pose proof (fill_row_length row gen) as Hlen.
  destruct (fill_row dis row gen) as [row' gen'].
  destruct (IH gen' Hrows) as [Hlm Hm].
  destruct (fill_matrix dis m gen') as [m' gen'']. simpl in *.
  split; [lia|]. apply Forall_cons. split; [lia|done].
Qed.

Lemma vector_alloc_Ok {A} (served : bool) (n : Z) (v : A) l :
  vector_alloc served n v = Ok l ↔
    (0 ≤ n)%Z ∧ served = true ∧ l = replicate (Z.to_nat n) v.
Proof.
  unfold vector_alloc. destruct (decide (n < 0)%Z), served; split.
  all: try discriminate.
  all: try (intros (? & ? & ?); done || lia).
  - intros Heq. injection Heq as <-. split; [lia|done].
  - intros (_ & _ & ->). done.
Qed.

Lemma vector_alloc_Err {A} (served : bool) (n : Z) (v : A) e :
  vector_alloc served n v = Err e ↔
    ((n < 0)%Z ∧ e = LengthError) ∨
    ((0 ≤ n)%Z ∧ served = false ∧ e = BadAlloc).
Proof.
  unfold vector_alloc. destruct (decide (n < 0)%Z), served; split.
  all: try discriminate.
  all: try (intros [= <-]; (left; split; [lia|done])
                        || (right; split_and!; [lia|done..])).
  all: try (intros [(? & ->)|(? & ? & ->)]; done || lia).
Qed.

(** One iteration of the constructor's loop, when it succeeds: both
    sizes are non-negative, and a matrix and a bias vector of these sizes
    are appended. *)
Lemma construct_layer_Ok architecture i net gen net' gen' :
  construct_layer dis memory architecture i (net, gen) = Ok (net', gen') →
  ∃ n_i n_prev W b,
    architecture !! i = Some n_i ∧ architecture !! (i - 1) = Some n_prev ∧
    (0 ≤ n_i)%Z ∧ (0 ≤ n_prev)%Z ∧
    weights net' = weights net ++ [W] ∧ biases net' = biases net ++ [b] ∧
    length W = Z.to_nat n_i ∧
    Forall (λ row, length row = Z.to_nat n_prev) W ∧
    length b = Z.to_nat n_i ∧
    activations net' = activations net ∧ z_values net' = z_values net ∧
    learning_rate net' = learning_rate net.
Proof.
  unfold construct_layer. intros Hrun.
  apply bind_Ok in Hrun as (n_i & Hn_i%at_index_Ok & Hrun).
  apply bind_Ok in Hrun as (n_prev & Hn_prev%at_index_Ok & Hrun).
  apply bind_Ok in Hrun as (row & (Hprev & _ & ->)%vector_alloc_Ok & Hrun).
  apply bind_Ok in Hrun as (w & (Hi & _ & ->)%vector_alloc_Ok & Hrun).
  apply bind_Ok in Hrun as (b & (_ & _ & ->)%vector_alloc_Ok & Hrun).
  destruct (fill_matrix_shape
    (replicate (Z.to_nat n_i) (replicate (Z.to_nat n_prev) T0)) gen
    (Z.to_nat n_prev)) as [Hlen Hrows].
  { apply Forall_replicate. by rewrite length_replicate. }
  destruct (fill_matrix dis _ gen) as [w' gen''].
  injection Hrun as <- <-. simpl in *.
  exists n_i, n_prev, w', (replicate (Z.to_nat n_i) T0).
  rewrite length_replicate in Hlen. rewrite length_replicate.
  by split_and!.
Qed.

Lemma construct_layer_total architecture i net gen n_i n_prev :
  ample memory →
  architecture !! i = Some n_i → architecture !! (i - 1) = Some n_prev →
  (0 ≤ n_i)%Z → (0 ≤ n_prev)%Z →
  ∃ st', construct_layer dis memory architecture i (net, gen) = Ok st'.
Proof.
  intros Hmem Hn_i Hn_prev Hi Hprev.
  unfold construct_layer, at_index, vector_alloc.
  rewrite Hn_i, Hn_prev, !Hmem. simpl.
  destruct (decide (n_prev < 0)%Z); [lia|]. simpl.
  destruct (decide (n_i < 0)%Z); [lia|]. simpl.
  destruct (fill_matrix dis _ gen). eauto.
Qed.

(** An iteration that fails throws [std::length_error] or
    [std::bad_alloc], and the former when the memory is ample. *)
Lemma construct_layer_Err architecture i st e :
  0 < i < length architecture →
  construct_layer dis memory architecture i st = Err e →
  (e = LengthError ∨ e = BadAlloc) ∧ (ample memory → e = LengthError).
Proof.
  intros Hi. destruct st as [net gen].
  unfold construct_layer, at_index, vector_alloc.
  destruct (lookup_lt_is_Some_2 architecture i) as [n_i ->]; [lia|].
  destruct (lookup_lt_is_Some_2 architecture (i - 1)) as [n_prev ->]; [lia|].
  intros Hrun. split.
  - revert Hrun.
    destruct (memory (3 * (i - 1))), (memory (3 * (i - 1) + 1)),
      (memory (3 * (i - 1) + 2)); simpl.
    all: repeat (destruct (decide _); simpl).
    all: try (intros [= <-]; by (left + right)).
    all: destruct (fill_matrix dis _ gen); discriminate.
  - intros Hmem. revert Hrun. rewrite !Hmem. simpl.
    repeat (destruct (decide _); simpl); try congruence.
    destruct (fill_matrix dis _ gen). discriminate.
Qed.

(** The constructor establishes the shape invariant for the architecture
    it is given, whenever it returns. *)
Lemma new_NeuralNetwork_shape architecture lr gen net :
  new_NeuralNetwork dis memory architecture lr gen = Ok net →
  shape_ok (Z.to_nat <$> architecture) net ∧
  Forall (λ n, 0 ≤ n)%Z (tail architecture) ∧
  (2 ≤ length architecture → Forall (λ n, 0 ≤ n)%Z architecture) ∧
  learning_rate net = lr.
Proof.
  unfold new_NeuralNetwork. intros Hrun.
  apply bind_Ok in Hrun as ([net' gen'] & Hloop & Hrun).
  injection Hrun as ->. revert Hloop.
  intros Hinv%(for_loop_inv (λ i (st : NeuralNetwork T * G),
    length (weights st.1) = i - 1 ∧ length (biases st.1) = i - 1 ∧
    learning_rate st.1 = lr ∧
    (∀ k n, k < i → 0 < k → architecture !! k = Some n → (0 ≤ n)%Z) ∧
    (2 ≤ i → ∀ n, architecture !! 0 = Some n → (0 ≤ n)%Z) ∧
    ∀ k n_in n_out, S k < i →
      architecture !! k = Some n_in → architecture !! S k = Some n_out →
      ∃ W b, weights st.1 !! k = Some W ∧ biases st.1 !! k = Some b ∧
        length W = Z.to_nat n_out ∧
        Forall (λ row, length row = Z.to_nat n_in) W ∧
        length b = Z.to_nat n_out)).
  - destruct Hinv as (HlW & Hlb & Hlr & Hpos & Hpos0 & Hshape). simpl in *.
    split_and!; try done.
    + split_and!; rewrite ?length_fmap; try lia.
      intros k n_in n_out Hin Hout. rewrite list_lookup_fmap in Hin, Hout.
      destruct (architecture !! k) as [z_in|] eqn:Hzin; [|done].
      destruct (architecture !! S k) as [z_out|] eqn:Hzout; [|done].
      simpl in *. injection Hin as <-. injection Hout as <-.
      apply (Hshape k); try done.
      apply lookup_lt_Some in Hzout. lia.
    + apply Forall_lookup. intros k n Hk. rewrite lookup_tail in Hk.
      apply (Hpos (S k)); [|lia|done]. apply lookup_lt_Some in Hk. lia.
    + intros Hlen. apply Forall_lookup. intros k n Hk.
      destruct k as [|k]; [apply Hpos0; [lia|done]|].
      apply (Hpos (S k)); [|lia|done]. apply lookup_lt_Some in Hk. lia.
  - simpl. split_and!; try done; intros; lia.
  - intros i [t g] [t' g'] Hi (HlW & Hlb & Hlr & Hpos & Hpos0 & Hshape) Hbody.
    apply construct_layer_Ok in Hbody
      as (n_i & n_prev & W & b & Hn_i & Hn_prev & Hi0 & Hprev0 & HW & Hb
          & HlenW & Hrows & Hlenb & _ & _ & Hlr').
    simpl in *. rewrite HW, Hb, !length_app. simpl.
    split_and!; try lia; try congruence.
    + intros k n Hk Hk0 Hn. destruct (decide (k = i)) as [->|Hne].
      * congruence.
      * apply (Hpos k); [lia|done..].
    + intros Hi2 n Hn. destruct (decide (i = 1)) as [->|Hne].
      * simpl in Hn_prev. congruence.
      * apply Hpos0; [lia|done].
    + intros k n_in n_out Hk Hin Hout.
      destruct (decide (S k = i)) as [<-|Hne].
      * exists W, b. simpl in Hn_prev. rewrite Nat.sub_0_r in Hn_prev.
        assert (n_in = n_prev) as -> by congruence.
        assert (n_out = n_i) as -> by congruence.
        simpl in HlW, Hlb. rewrite Nat.sub_0_r in HlW, Hlb.
        rewrite (list_lookup_middle (weights t) [] W k) by done.
        rewrite (list_lookup_middle (biases t) [] b k) by done.
        by split_and!.
      * destruct (Hshape k n_in n_out) as (W' & b' & HW' & Hb' & ?);
          [lia|done..|].
        exists W', b'. rewrite !lookup_app_l by (by eapply lookup_lt_Some).
        done.
Qed.

Lemma new_NeuralNetwork_few architecture lr gen :
  length architecture < 2 →
  new_NeuralNetwork dis memory architecture lr gen
    = Ok {| weights := []; biases := []; activations := []; z_values := [];
            learning_rate := lr |}.
Proof.
  intros Hlen. destruct architecture as [|n0 [|n1 rest]]; simpl in *;
    [done..|lia].
Qed.

Lemma new_NeuralNetwork_total architecture lr gen :
  ample memory → Forall (λ n, 0 ≤ n)%Z architecture →
  ∃ net, new_NeuralNetwork dis memory architecture lr gen = Ok net.
Proof.
  intros Hmem Hpos. unfold new_NeuralNetwork.
  destruct (for_loop_total (λ _ (_ : NeuralNetwork T * G), True)
    (length architecture - 1) 1 (construct_layer dis memory architecture)
    ({| weights := []; biases := []; activations := []; z_values := [];
        learning_rate := lr |}, gen)) as ([net gen'] & -> & _).
  - done.
  - intros i [t g] Hi _.
    destruct (lookup_lt_is_Some_2 architecture i) as [n_i Hn_i]; [lia|].
    destruct (lookup_lt_is_Some_2 architecture (i - 1)) as [n_prev Hn_prev];
      [lia|].
    destruct (construct_layer_total architecture i t g n_i n_prev)
      as [st' Hst']; try done.
    + apply (proj1 (Forall_lookup _ _) Hpos _ _ Hn_i).
    + apply (proj1 (Forall_lookup _ _) Hpos _ _ Hn_prev).
    + by exists st'.
  - simpl. by exists net.
Qed.

(** The constructor fails with [std::length_error] or [std::bad_alloc]
    only, and with the former when the memory is ample. *)
Lemma new_NeuralNetwork_Err architecture lr gen e :
  new_NeuralNetwork dis memory architecture lr gen = Err e →
  (e = LengthError ∨ e = BadAlloc) ∧ (ample memory → e = LengthError).
Proof.
  unfold new_NeuralNetwork. intros Hnew.
  destruct (for_loop _ _ _ _) as [[net gen']|e'] eqn:Hloop;
    simpl in Hnew; [done|].
  injection Hnew as ->. revert Hloop.
  apply (for_loop_err (λ e,
    (e = LengthError ∨ e = BadAlloc) ∧ (ample memory → e = LengthError))).
  intros k t e' Hk. apply construct_layer_Err. lia.
Qed.

Lemma new_NeuralNetwork_negative architecture lr gen :
  2 ≤ length architecture → Exists (λ n, n < 0)%Z architecture →
  ∃ e, new_NeuralNetwork dis memory architecture lr gen = Err e ∧
    (e = LengthError ∨ e = BadAlloc) ∧ (ample memory → e = LengthError).
Proof.
  intros Hlen Hneg.
  destruct (new_NeuralNetwork dis memory architecture lr gen)
    as [net|e] eqn:Hnew.
  - apply new_NeuralNetwork_shape in Hnew as (_ & _ & Hpos & _).
    specialize (Hpos Hlen). apply Exists_exists in Hneg as (n & Hn & Hlt).
    apply (proj1 (Forall_forall _ _) Hpos) in Hn. lia.
  - exists e. split; [done|]. by eapply new_NeuralNetwork_Err.
Qed.
End constructor.

(** ** predict, train and evaluate *)

Section training_facts.
Context `{Numeric T}.
Implicit Types (net : NeuralNetwork T).

(** The forward pass clears the cache before it reads anything: its
    outcome depends on the parameters only. *)
Lemma forward_propagation_cache net net' input :
  weights net' = weights net → biases net' = biases net →
  learning_rate net' = learning_rate net →
  forward_propagation net' input = forward_propagation net input.
Proof.
  intros HW Hb Hlr. unfold forward_propagation.
  assert (set_z_values (set_activations net' []) []
          = set_z_values (set_activations net []) []) as ->; [|done].
  destruct net, net'. simpl in *. by subst.
Qed.

Lemma forward_propagation_shape arch net input net' output :
  forward_propagation net input = Ok (net', output) →
  shape_ok arch net → shape_ok arch net'.
Proof.
  intros (HW & Hb & _)%forward_propagation_inv. simpl in *.
  apply shape_ok_dims.
  - unfold weight_dims. by rewrite HW.
  - unfold bias_dims. by rewrite Hb.
Qed.

Lemma backward_propagation_shape arch net input target net' :
  backward_propagation net input target = Ok net' →
  shape_ok arch net → shape_ok arch net'.
Proof. intros Hrun%backward_propagation_frame. by apply shape_ok_frame. Qed.

Lemma predict_shape arch net input net' k :
  predict net input = Ok (net', k) → shape_ok arch net → shape_ok arch net'.
Proof.
  unfold predict. intros Hrun.
  apply bind_Ok in Hrun as ([net1 output] & Hfw & Hrun).
  injection Hrun as <- _. by eapply forward_propagation_shape.
Qed.

Lemma train_sample_shape arch inputs labels i net loss net' loss' :
  train_sample inputs labels i (net, loss) = Ok (net', loss') →
  shape_ok arch net → shape_ok arch net'.
Proof.
  unfold train_sample. intros Hrun Hshape.
  apply bind_Ok in Hrun as (input & _ & Hrun).
  apply bind_Ok in Hrun as ([net1 output] & Hfw & Hrun).
  apply bind_Ok in Hrun as (label & _ & Hrun).
  apply bind_Ok in Hrun as (net2 & Hbw & Hrun).
  apply bind_Ok in Hrun as (loss2 & _ & Hrun).
  injection Hrun as <- _.
  eapply backward_propagation_shape; [done|].
  by eapply forward_propagation_shape.
Qed.

Lemma train_shape arch net inputs labels epochs net' cout :
  train net inputs labels epochs = Ok (net', cout) →
  shape_ok arch net → shape_ok arch net'.
Proof.
  unfold train. intros Hrun Hshape. revert Hrun.
  apply (for_loop_inv (λ _ (st : NeuralNetwork T * list (Z * T)),
                         shape_ok arch st.1)); [done|].
  intros epoch [t c] [t' c'] _ Ht Hbody. simpl in *.
  unfold train_epoch in Hbody.
  apply bind_Ok in Hbody as ([t1 loss] & Hloop & Hbody).
  injection Hbody as <- _. revert Hloop.
  apply (for_loop_inv (λ _ (st : NeuralNetwork T * T), shape_ok arch st.1));
    [done|].
  intros i [u l] [u' l'] _ Hu Hsample. simpl in *.
  by eapply train_sample_shape.
Qed.

Lemma evaluate_shape `{Arith D} arch net inputs labels net' (accuracy : D) :
  evaluate net inputs labels = Ok (net', accuracy) →
  shape_ok arch net → shape_ok arch net'.
Proof.
  unfold evaluate. intros Hrun Hshape.
  apply bind_Ok in Hrun as ([net1 correct] & Hloop & Hrun).
  injection Hrun as <- _. revert Hloop.
  apply (for_loop_inv (λ _ (st : NeuralNetwork T * Z), shape_ok arch st.1));
    [done|].
  intros i [t c] [t' c'] _ Ht Hbody. simpl in *.
  unfold evaluate_sample in Hbody.
  apply bind_Ok in Hbody as (input & _ & Hbody).
  apply bind_Ok in Hbody as ([t1 predicted] & Hpredict & Hbody).
  apply bind_Ok in Hbody as (label & _ & Hbody).
  injection Hbody as <- _. by eapply predict_shape.
Qed.
End training_facts.

(** ** predict: the index of the first maximum *)

Section predict_facts.
Context `{Numeric T}.
Implicit Types (net : NeuralNetwork T) (v : Vector T).

Lemma max_element_loop_first_max `{!StrictWeakOrder T}
    (rest seen : list T) (largest : nat) (largest_val : T) :
  seen !! largest = Some largest_val →
  (∀ j x, seen !! j = Some x → Tlt largest_val x = false) →
  (∀ j x, j < largest → seen !! j = Some x → Tlt x largest_val = true) →
  is_first_max (seen ++ rest)
    (max_element_loop largest largest_val (length seen) rest).
Proof.
  revert seen largest largest_val.
  induction rest as [|y rest IH]; intros seen largest lv Hl Hmax Hfirst.
  - simpl. rewrite app_nil_r. by exists lv.
  - simpl. replace (seen ++ y :: rest) with ((seen ++ [y]) ++ rest)
      by (by rewrite <- app_assoc).
    replace (S (length seen)) with (length (seen ++ [y]))
      by (rewrite length_app; simpl; lia).
    destruct (Tlt lv y) eqn:Hlt.
    + replace (length seen) with (length seen + 0) at 1 by lia.
      apply IH.
      * rewrite Nat.add_0_r. by apply list_lookup_middle.
      * intros j x Hx. apply lookup_app_Some in Hx as [Hx|[_ Hx]].
        -- destruct (Tlt y x) eqn:Hyx; [|done].
           pose proof (Tlt_trans lv y x Hlt Hyx) as Hlx.
           specialize (Hmax j x Hx). congruence.
        -- apply list_lookup_singleton_Some in Hx as [_ <-].
           apply Tlt_irrefl.
      * intros j x Hj Hx. rewrite Nat.add_0_r in Hj.
        rewrite lookup_app_l in Hx by done.
        destruct (Tlt x y) eqn:Hxy; [done|].
        pose proof (Tlt_incomparable lv x y (Hmax j x Hx) Hxy). congruence.
    + apply IH.
      * rewrite lookup_app_l; [done|by eapply lookup_lt_Some].
      * intros j x Hx. apply lookup_app_Some in Hx as [Hx|[_ Hx]].
        -- by eapply Hmax.
        -- by apply list_lookup_singleton_Some in Hx as [_ <-].
      * intros j x Hj Hx. apply (Hfirst j x Hj).
        apply lookup_lt_Some in Hl.
        by rewrite lookup_app_l in Hx by lia.
Qed.

Lemma max_element_first_max `{!StrictWeakOrder T} v :
  v ≠ [] → is_first_max v (max_element v).
Proof.
  destruct v as [|x rest]; [done|]. intros _. simpl.
  apply (max_element_loop_first_max rest [x] 0 x).
  - done.
  - intros j y Hy. apply list_lookup_singleton_Some in Hy as [_ <-].
    apply Tlt_irrefl.
  - intros; lia.
Qed.

(** The same for values that [operator<] orders, whatever it does on
    other values. *)
Lemma max_element_loop_first_max_on
    (rest seen : list T) (largest : nat) (largest_val : T) :
  ordered_entries (seen ++ rest) →
  seen !! largest = Some largest_val →
  (∀ j x, seen !! j = Some x → Tlt largest_val x = false) →
  (∀ j x, j < largest → seen !! j = Some x → Tlt x largest_val = true) →
  is_first_max (seen ++ rest)
    (max_element_loop largest largest_val (length seen) rest).
Proof.
  revert seen largest largest_val.
  induction rest as [|y rest IH];
    intros seen largest lv Hord Hl Hmax Hfirst.
  - simpl. rewrite app_nil_r. by exists lv.
  - simpl. replace (seen ++ y :: rest) with ((seen ++ [y]) ++ rest) in *
      by (by rewrite <- app_assoc).
    replace (S (length seen)) with (length (seen ++ [y]))
      by (rewrite length_app; simpl; lia).
    assert (lv ∈ (seen ++ [y]) ++ rest) as Hlv.
    { apply elem_of_app. left. apply elem_of_app. left.
      by eapply list_elem_of_lookup_2. }
    assert (y ∈ (seen ++ [y]) ++ rest) as Hy.
    { apply elem_of_app. left. apply elem_of_app. right.
      by apply list_elem_of_singleton. }
    assert (∀ j x, seen !! j = Some x → x ∈ (seen ++ [y]) ++ rest) as Hin.
    { intros j x Hx. apply elem_of_app. left. apply elem_of_app. left.
      by eapply list_elem_of_lookup_2. }
    destruct (Tlt lv y) eqn:Hlt.
    + replace (length seen) with (length seen + 0) at 1 by lia.
      apply IH; [done| | |].
      * rewrite Nat.add_0_r. by apply list_lookup_middle.
      * intros j x Hx. apply lookup_app_Some in Hx as [Hx|[_ Hx]].
        -- destruct (Tlt y x) eqn:Hyx; [|done].
           destruct (Hord lv y x Hlv Hy (Hin j x Hx)) as (_ & Htrans & _).
           specialize (Hmax j x Hx). rewrite Htrans in Hmax; done.
        -- apply list_lookup_singleton_Some in Hx as [_ <-].
           by destruct (Hord y y y Hy Hy Hy) as (? & _).
      * intros j x Hj Hx. rewrite Nat.add_0_r in Hj.
        rewrite lookup_app_l in Hx by done.
        destruct (Tlt x y) eqn:Hxy; [done|].
        destruct (Hord lv x y Hlv (Hin j x Hx) Hy) as (_ & _ & Hinc).
        rewrite Hinc in Hlt; [done|by eapply Hmax|done].
    + apply IH; [done| | |].
      * rewrite lookup_app_l; [done|by eapply lookup_lt_Some].
      * intros j x Hx. apply lookup_app_Some in Hx as [Hx|[_ Hx]].
        -- by eapply Hmax.
        -- by apply list_lookup_singleton_Some in Hx as [_ <-].
      * intros j x Hj Hx. apply (Hfirst j x Hj).
        apply lookup_lt_Some in Hl.
        by rewrite lookup_app_l in Hx by lia.
Qed.

Lemma max_element_first_max_on v :
  v ≠ [] → ordered_entries v → is_first_max v (max_element v).
Proof.
  destruct v as [|x rest]; [done|]. intros _ Hord. simpl.
  apply (max_element_loop_first_max_on rest [x] 0 x).
  - done.
  - done.
  - intros j y Hy. apply list_lookup_singleton_Some in Hy as [_ <-].
    assert (x ∈ x :: rest) as Hx by apply list_elem_of_here.
    by destruct (Hord x x x Hx Hx Hx) as (? & _).
  - intros; lia.
Qed.

(** [predict] on a well-dimensioned input: the forward pass, then the
    index of [std::max_element] in its result. *)
Lemma predict_total arch net input :
  valid_arch arch → shape_ok arch net → arch !! 0 = Some (length input) →
  ∃ net' output,
    forward_propagation net input = Ok (net', output) ∧
    predict net input = Ok (net', Z.of_nat (max_element output)) ∧
    last arch = Some (length output) ∧ output ≠ [] ∧
    max_element output < length output.
Proof.
  intros Hvalid Hshape Hin.
  destruct (forward_propagation_total arch net input Hvalid Hshape Hin)
    as (net' & output & cache & Hfw & _).
  destruct (forward_cache_shape arch net input net' output)
    as (_ & _ & _ & _ & _ & Hlast & _); try done.
  assert (output ≠ []) as Hne.
  { intros ->. destruct Hvalid as [_ Hpos].
    rewrite last_lookup in Hlast.
    pose proof (proj1 (Forall_lookup _ _) Hpos _ _ Hlast). simpl in *. lia. }
  exists net', output. split_and!; try done.
  - unfold predict. by rewrite Hfw.
  - by apply max_element_lt.
Qed.
End predict_facts.

(** ** evaluate and train on well-dimensioned data *)

Section training_total.
Context `{Numeric T}.
Implicit Types (net : NeuralNetwork T).

Lemma evaluate_loop_total arch net inputs (labels : list Z) :
  valid_arch arch → shape_ok arch net → inputs_ok arch inputs →
  length inputs ≤ length labels →
  ∃ net', for_loop (length inputs) 0 (evaluate_sample inputs labels)
            (net, 0%Z)
          = Ok (net', Z.of_nat (count_correct net inputs labels)).
Proof.
  intros Hvalid Hshape Hinputs Hlen.
  set (pairs := zip inputs labels).
  assert (length pairs = length inputs) as Hpairs.
  { unfold pairs. rewrite length_zip. lia. }
  destruct (for_loop_total
    (λ i (st : NeuralNetwork T * Z),
       weights st.1 = weights net ∧ biases st.1 = biases net ∧
       learning_rate st.1 = learning_rate net ∧
       st.2 = Z.of_nat (length (filter (λ p, is_correct net p.1 p.2 = true)
                                  (take i pairs))))
    (length inputs) 0 (evaluate_sample inputs labels) (net, 0%Z))
    as ([net' c] & Hrun & _ & _ & _ & Hc).
  - by split_and!.
  - intros i [t c] Hi (HW & Hb & Hlr & Hc). simpl in *. subst c.
    destruct (lookup_lt_is_Some_2 inputs i) as [x Hx]; [lia|].
    destruct (lookup_lt_is_Some_2 labels i) as [l Hl]; [lia|].
    pose proof (proj1 (Forall_lookup _ _) Hinputs i x Hx) as Hdim.
    simpl in Hdim.
    destruct (predict_total arch net x Hvalid Hshape Hdim)
      as (net1 & output & Hfw & Hpredict & _).
    apply forward_propagation_inv in Hfw as Hframe.
    destruct Hframe as (HW1 & Hb1 & Hlr1 & _). simpl in *.
    assert (predict t x = Ok (net1, Z.of_nat (max_element output)))
      as Hpredict_t.
    { unfold predict in *.
      by rewrite (forward_propagation_cache net t x). }
    eexists. split.
    + unfold evaluate_sample, at_index. rewrite Hx. simpl.
      rewrite Hpredict_t. simpl. rewrite Hl. simpl. reflexivity.
    + simpl. split_and!; try congruence.
      assert (pairs !! i = Some (x, l)) as Hpair.
      { unfold pairs. rewrite lookup_zip_with, Hx. simpl. by rewrite Hl. }
      rewrite (take_S_r _ _ _ Hpair), filter_app, length_app.
      assert (is_correct net x l
              = bool_decide (Z.of_nat (max_element output) = l)) as Hic.
      { unfold is_correct. by rewrite Hpredict. }
      destruct (decide (Z.of_nat (max_element output) = l)) as [Heq|Hne].
      * rewrite filter_cons_True
          by (simpl; rewrite Hic; by apply bool_decide_eq_true_2).
        simpl. lia.
      * rewrite filter_cons_False
          by (simpl; rewrite Hic; by rewrite bool_decide_eq_false_2).
        simpl. lia.
  - simpl in *. exists net'. rewrite Hrun, Hc. unfold count_correct.
    fold pairs. by rewrite take_ge by lia.
Qed.



(** [train] reads [labels] at the indices of [inputs] only: labels beyond
    the last input are never looked at. *)
Lemma train_truncate net (inputs labels : list (Vector T)) epochs :
  length inputs ≤ length labels →
  train net inputs labels epochs
    = train net inputs (take (length inputs) labels) epochs.
Proof.
  intros Hlen. unfold train. apply for_loop_ext. intros epoch [t cout] _.
  unfold train_epoch.
  rewrite (for_loop_ext (length inputs) 0 (train_sample inputs labels)
             (train_sample inputs (take (length inputs) labels))); [done|].
  intros i [u loss] Hi. unfold train_sample, at_index.
  by rewrite lookup_take_lt by lia.
Qed.

Lemma train_sample_total arch inputs labels i net loss input label :
  valid_arch arch → shape_ok arch net →
  inputs !! i = Some input → labels !! i = Some label →
  arch !! 0 = Some (length input) → last arch = Some (length label) →
  ∃ net' loss', train_sample inputs labels i (net, loss) = Ok (net', loss')
    ∧ shape_ok arch net'.
Proof.
  intros Hvalid Hshape Hinput Hlabel Hin Hout.
  destruct (forward_propagation_total arch net input Hvalid Hshape Hin)
    as (net1 & output & cache & Hfw & _).
  destruct (backward_propagation_total arch net input label net1 output)
    as (net2 & δ & Hbw & _); try done.
  destruct (forward_cache_shape arch net input net1 output)
    as (Hshape1 & _ & _ & _ & _ & Hlast & _); try done.
  assert (length output = length label) as Hlen by congruence.
  destruct (for_loop_total (λ _ (_ : T), True) (length label) 0
              (add_loss label output) loss) as (loss' & Hloss & _).
  - done.
  - intros j l Hj _.
    destruct (lookup_lt_is_Some_2 label j) as [t Ht]; [lia|].
    destruct (lookup_lt_is_Some_2 output j) as [o Ho]; [lia|].
    eexists. split; [|done]. unfold add_loss, at_index.
    rewrite Ht. simpl. rewrite Ho. simpl. reflexivity.
  - exists net2, loss'. split.
    + unfold train_sample, at_index. rewrite Hinput. simpl.
      rewrite Hfw. simpl. rewrite Hlabel. simpl. rewrite Hbw. simpl.
      by rewrite Hloss.
    + by eapply backward_propagation_shape.
Qed.

(** On well-dimensioned samples, with at least as many targets as
    inputs, training runs to the end and prints one line per epoch. *)
Lemma train_total arch net inputs labels epochs :
  valid_arch arch → shape_ok arch net → inputs_ok arch inputs →
  targets_ok arch (take (length inputs) labels) →
  length inputs ≤ length labels →
  ∃ net' cout, train net inputs labels epochs = Ok (net', cout) ∧
    shape_ok arch net' ∧ length cout = Z.to_nat epochs.
Proof.
  intros Hvalid Hshape Hinputs Htargets Hlen. unfold train.
  destruct (for_loop_total
    (λ epoch (st : NeuralNetwork T * list (Z * T)),
       shape_ok arch st.1 ∧ length st.2 = epoch)
    (Z.to_nat epochs) 0 (train_epoch inputs labels) (net, []))
    as ([net' cout] & Hrun & Hshape' & Hcout).
  - done.
  - intros epoch [t cout] _ [Ht Hcout]. simpl in *. unfold train_epoch.
    destruct (for_loop_total
      (λ _ (st : NeuralNetwork T * T), shape_ok arch st.1)
      (length inputs) 0 (train_sample inputs labels) (t, T0))
      as ([t' loss] & -> & Ht').
    + done.
    + intros i [u l] Hi Hu. simpl in *.
      destruct (lookup_lt_is_Some_2 inputs i) as [x Hx]; [lia|].
      destruct (lookup_lt_is_Some_2 labels i) as [y Hy]; [lia|].
      destruct (train_sample_total arch inputs labels i u l x y)
        as (u' & l' & Hsample & Hu'); try done.
      * apply (proj1 (Forall_lookup _ _) Hinputs i x Hx).
      * apply (proj1 (Forall_lookup _ _) Htargets i y).
        by rewrite lookup_take_lt by lia.
      * by exists (u', l').
    + simpl. eexists. split; [done|]. simpl. split; [done|].
      rewrite length_app. simpl. lia.
  - simpl in *. by exists net', cout.
Qed.

(** With fewer targets than inputs, the first epoch trains on the samples
    that have a target and then reads [labels[i]] past the end. *)
Lemma train_short_labels arch net inputs labels epochs :
  valid_arch arch → shape_ok arch net → inputs_ok arch inputs →
  targets_ok arch labels →
  length labels < length inputs → (0 < epochs)%Z →
  train net inputs labels epochs = Err Undefined.
Proof.
  intros Hvalid Hshape Hinputs Htargets Hlen Hepochs. unfold train.
  destruct (Z.to_nat epochs) as [|n] eqn:Hn; [lia|].
  cbn [for_loop].
  assert (train_epoch inputs labels 0 (net, []) = Err Undefined) as ->;
    [|done].
  unfold train_epoch.
  rewrite (for_loop_fails
    (λ _ (st : NeuralNetwork T * T), shape_ok arch st.1)
    (length inputs) 0 (length labels) (train_sample inputs labels)
    (net, T0) Undefined); [done|lia|done| |].
  - intros i [u l] Hi Hu. simpl in *.
    destruct (lookup_lt_is_Some_2 inputs i) as [x Hx]; [lia|].
    destruct (lookup_lt_is_Some_2 labels i) as [y Hy]; [lia|].
    destruct (train_sample_total arch inputs labels i u l x y)
      as (u' & l' & Hsample & Hu'); try done.
    + apply (proj1 (Forall_lookup _ _) Hinputs i x Hx).
    + apply (proj1 (Forall_lookup _ _) Htargets i y Hy).
    + by exists (u', l').
  - intros [u l] Hu. simpl in *.
    destruct (lookup_lt_is_Some_2 inputs (length labels)) as [x Hx]; [lia|].
    destruct (forward_propagation_total arch u x Hvalid Hu)
      as (u1 & output & cache & Hfw & _).
    { apply (proj1 (Forall_lookup _ _) Hinputs _ x Hx). }
    unfold train_sample, at_index. rewrite Hx. simpl. rewrite Hfw. simpl.
    by rewrite lookup_ge_None_2 by lia.
Qed.
End training_total.

(** ** softmax in exact real arithmetic *)

Section softmax_real.
Local Open Scope R_scope.

Lemma foldl_Rplus (a : R) (l : list R) : foldl Rplus a l = a + Rsum l.
Proof.
  unfold Rsum. revert a. induction l as [|x l IH]; intros a; simpl.
  - lra.
  - rewrite (IH (a + x)), (IH (0 + x)). lra.
Qed.

Lemma Rsum_cons (x : R) (l : list R) : Rsum (x :: l) = x + Rsum l.
Proof. unfold Rsum at 1. simpl. rewrite foldl_Rplus. lra. Qed.

Lemma Rsum_scale (c : R) (l : list R) :
  Rsum ((λ v, v * c) <$> l) = Rsum l * c.
Proof.
  induction l as [|x l IH].
  - unfold Rsum. simpl. lra.
  - rewrite fmap_cons, !Rsum_cons, IH. lra.
Qed.

Lemma Rsum_nonneg (l : list R) : Forall (λ v, 0 < v) l → 0 <= Rsum l.
Proof.
  induction 1 as [|x l Hx Hl IH].
  - unfold Rsum. simpl. lra.
  - rewrite Rsum_cons. lra.
Qed.


Lemma Rsum_exp_pos (x : list R) : x ≠ [] → 0 < Rsum (exp <$> x).
Proof.
  destruct x as [|x0 x]; [done|]. intros _. rewrite fmap_cons, Rsum_cons.
  pose proof (exp_pos x0).
  assert (0 <= Rsum (exp <$> x)); [|lra].
  apply Rsum_nonneg, Forall_fmap, Forall_forall. intros v _. apply exp_pos.
Qed.

Lemma Rsum_exp_shift (x : list R) (c : R) :
  Rsum ((λ x_i, exp (x_i + c)) <$> x) = Rsum (exp <$> x) * exp c.
Proof.
  rewrite <- Rsum_scale, <- list_fmap_compose. f_equal.
  apply list_fmap_ext. intros _ x_i _. simpl. apply exp_plus.
Qed.


(** Subtracting the maximum does not change the result: the code's
    [softmax] is the textbook one. *)
Lemma softmax_real_math (x : list R) :
  x ≠ [] → softmax x = Ok (softmax_math x).
Proof.
  intros Hx. unfold softmax.
  destruct (at_index_lt _ _ (max_element_lt x Hx)) as (m & -> & _).
  simpl. f_equal. rewrite <- list_fmap_compose. unfold softmax_math.
  apply list_fmap_ext. intros _ x_i _. simpl.
  change (foldl Rplus (IZR 0) ((λ v, exp (v - m)) <$> x))
    with (Rsum ((λ v, exp (v + - m)) <$> x)).
  rewrite Rsum_exp_shift.
  pose proof (Rsum_exp_pos x Hx). pose proof (exp_pos (- m)).
  replace (x_i - m) with (x_i + - m) by lra. rewrite exp_plus.
  field. split; lra.
Qed.



End softmax_real.

(** ** The network of the examples is well-formed *)

Lemma valid_arch_232 : valid_arch [2; 3; 2].
Proof. split; [simpl; lia|]. repeat constructor. Qed.

Lemma netD_shape : shape_ok [2; 3; 2] netD.
Proof.
  split_and!; [done..|]. intros i n_in n_out Hin Hout.
  destruct i as [|[|i]]; simpl in *; [| |done].
  - injection Hin as <-. injection Hout as <-.
    eexists _, _. split_and!; [done..| |done]. by repeat constructor.
  - injection Hin as <-. injection Hout as <-.
    eexists _, _. split_and!; [done..| |done]. by repeat constructor.
Qed.

Lemma netR_shape : shape_ok [2; 3; 2] netR.
Proof.
  split_and!; [done..|]. intros i n_in n_out Hin Hout.
  destruct i as [|[|i]]; simpl in *; [| |done].
  - injection Hin as <-. injection Hout as <-.
    eexists _, _. split_and!; [done..| |done]. by repeat constructor.
  - injection Hin as <-. injection Hout as <-.
    eexists _, _. split_and!; [done..| |done]. by repeat constructor.
Qed.

#[export] Instance R_strict_weak_order : StrictWeakOrder R.
Proof.
  split; simpl.
  - intros x. apply bool_decide_eq_false_2. apply Rlt_irrefl.
  - intros x y z Hxy%bool_decide_eq_true_1 Hyz%bool_decide_eq_true_1.
    apply bool_decide_eq_true_2. lra.
  - intros x y z Hxy%bool_decide_eq_false_1 Hyz%bool_decide_eq_false_1.
    apply bool_decide_eq_false_2. lra.
Qed.

(** ** The arithmetic of [double] *)

Section double_facts.

Lemma SFltb_key_lt (x y : spec_float) :
  x ≠ S754_nan → y ≠ S754_nan →
  SFltb x y = true ↔ key_lt (order_key x) (order_key y).
Proof.
  intros Hx Hy. unfold SFltb, key_lt.
  destruct x as [[|]|[|]| |[|] m1 e1], y as [[|]|[|]| |[|] m2 e2];
    try done; simpl; try (split; [discriminate|lia]);
    try (split; [lia|done]).
  all: rewrite Pos.compare_cont_spec.
  all: destruct (Z.compare_spec e1 e2) as [He|He|He];
    destruct (Pos.compare_spec m1 m2) as [Hm|Hm|Hm]; simpl;
    split; try discriminate; try done; try lia.
Qed.

Lemma Prim2SF_not_nan (x : float) :
  is_nan x = false → Prim2SF x ≠ S754_nan.
Proof.
  unfold is_nan. rewrite FloatAxioms.eqb_spec. intros Heq Hnan.
  rewrite Hnan in Heq. done.
Qed.

Lemma ltb_key_lt (x y : float) :
  is_nan x = false → is_nan y = false →
  (x <? y)%float = true
  ↔ key_lt (order_key (Prim2SF x)) (order_key (Prim2SF y)).
Proof.
  intros Hx Hy. rewrite FloatAxioms.ltb_spec.
  apply SFltb_key_lt; by apply Prim2SF_not_nan.
Qed.

Lemma ltb_irrefl (x : float) : (x <? x)%float = false.
Proof.
  rewrite FloatAxioms.ltb_spec. unfold SFltb.
  destruct (Prim2SF x) as [[|]|[|]| |[|] m e]; try done; simpl.
  all: rewrite Z.compare_refl, Pos.compare_cont_spec, Pos.compare_refl.
  all: done.
Qed.

Lemma ltb_trans (x y z : float) :
  is_nan x = false → is_nan y = false → is_nan z = false →
  (x <? y)%float = true → (y <? z)%float = true → (x <? z)%float = true.
Proof.
  intros Hx Hy Hz. rewrite !ltb_key_lt by done.
  unfold key_lt. lia.
Qed.

Lemma ltb_incomparable (x y z : float) :
  is_nan x = false → is_nan y = false → is_nan z = false →
  (x <? y)%float = false → (y <? z)%float = false → (x <? z)%float = false.
Proof.
  intros Hx Hy Hz Hxy Hyz.
  destruct (x <? z)%float eqn:Hxz; [|done].
  apply ltb_key_lt in Hxz; [|done..].
  assert (¬ key_lt (order_key (Prim2SF x)) (order_key (Prim2SF y))) as H1.
  { intros Hlt%ltb_key_lt; [congruence|done..]. }
  assert (¬ key_lt (order_key (Prim2SF y)) (order_key (Prim2SF z))) as H2.
  { intros Hlt%ltb_key_lt; [congruence|done..]. }
  unfold key_lt in *. lia.
Qed.

(** [0 < x] excludes [x < 0], for every float, a NaN included. *)
Lemma ltb_zero_asym (x : float) :
  (PrimFloat.zero <? x)%float = true → (x <? PrimFloat.zero)%float = false.
Proof.
  rewrite !FloatAxioms.ltb_spec. unfold SFltb. change (Prim2SF PrimFloat.zero) with (S754_zero false).
  by destruct (Prim2SF x) as [[|]|[|]| |[|] m e].
Qed.

(** *** Division *)




(** *** The conversion of a count *)

Lemma digits2_pos_bounds (p : positive) :
  (2 ^ (Z.pos (digits2_pos p) - 1) ≤ Z.pos p < 2 ^ Z.pos (digits2_pos p))%Z.
Proof.
  induction p as [p IH|p IH|]; simpl digits2_pos; [| |done].
  - rewrite Pos2Z.inj_succ.
    replace (Z.succ (Z.pos (digits2_pos p)) - 1)%Z
      with (Z.succ (Z.pos (digits2_pos p) - 1)) by lia.
    rewrite !Z.pow_succ_r by lia. lia.
  - rewrite Pos2Z.inj_succ.
    replace (Z.succ (Z.pos (digits2_pos p)) - 1)%Z
      with (Z.succ (Z.pos (digits2_pos p) - 1)) by lia.
    rewrite !Z.pow_succ_r by lia. lia.
Qed.





(** [operator<] orders every vector of [double]s without a NaN. *)
Lemma double_ordered_entries (exp64 log64 : float → float)
    (v : list float) :
  Forall (λ x, is_nan x = false) v →
  ordered_entries (H := double_numeric exp64 log64) v.
Proof.
  intros Hnan x y z Hx Hy Hz.
  pose proof (proj1 (Forall_forall _ _) Hnan) as Hall. simpl in *.
  split_and!.
  - apply ltb_irrefl.
  - apply ltb_trans; by apply Hall.
  - apply ltb_incomparable; by apply Hall.
Qed.


End double_facts.

(** ** The forward pass against the formulas of the specification *)

Section forward_math_facts.
Context `{Numeric T}.

Lemma dot_sum_dot (w x : Vector T) : dot_sum w x = dot w x.
Proof.
  unfold dot_sum, dot. generalize (T0 : T) as acc. revert x.
  induction w as [|a w IH]; intros x acc; [done|].
  destruct x as [|b x]; [done|]. simpl. apply IH.
Qed.

Lemma affine_pre_activation (W : Matrix T) (b x : Vector T) :
  affine W b x = pre_activation W b x.
Proof.
  unfold affine, pre_activation. apply zip_with_ext; [|done..].
  intros row b_j. by rewrite dot_sum_dot.
Qed.

(** The element [std::max_element] points to is the largest entry. *)
Lemma max_element_loop_maximum (rest pre : Vector T) (largest : nat)
    (largest_val : T) :
  pre !! largest = Some largest_val →
  (pre ++ rest) !! max_element_loop largest largest_val (length pre) rest
  = Some (foldl (λ m v, if Tlt m v then v else m) largest_val rest).
Proof.
  revert pre largest largest_val.
  induction rest as [|x rest IH]; intros pre largest lv Hl; simpl.
  - by rewrite app_nil_r.
  - replace (pre ++ x :: rest) with ((pre ++ [x]) ++ rest)
      by (by rewrite <- app_assoc).
    replace (S (length pre)) with (length (pre ++ [x]))
      by (rewrite length_app; simpl; lia).
    destruct (Tlt lv x).
    + apply IH. by apply list_lookup_middle.
    + apply IH. by apply lookup_app_l_Some.
Qed.

Lemma max_element_maximum (z : Vector T) :
  z !! max_element z = maximum z.
Proof.
  destruct z as [|z0 rest]; [done|]. simpl.
  by apply (max_element_loop_maximum rest [z0] 0 z0).
Qed.

Lemma softmax_formula_eq (z : Vector T) :
  softmax z = match softmax_formula z with
              | Some a => Ok a
              | None => Err Undefined
              end.
Proof.
  unfold softmax, softmax_formula, at_index.
  rewrite max_element_maximum.
  destruct (maximum z) as [m|]; [|done]. simpl.
  by rewrite <- list_fmap_compose.
Qed.

Lemma forward_spec_math (layers : list (Matrix T * Vector T))
    (x : Vector T) cache :
  forward_spec layers x = Ok cache → forward_math layers x = Some cache.
Proof.
  revert x cache. induction layers as [|[W b] rest IH]; intros x cache.
  - simpl. by intros [= <-].
  - simpl. rewrite <- affine_pre_activation. intros Hspec.
    apply bind_Ok in Hspec as (a & Ha & Hspec).
    apply bind_Ok in Hspec as (cache' & Hrest & Hspec).
    injection Hspec as <-.
    assert (match rest with
            | [] => softmax_formula (affine W b x)
            | _ => Some (relu_formula <$> affine W b x)
            end = Some a) as ->.
    { destruct rest.
      - rewrite softmax_formula_eq in Ha.
        by destruct (softmax_formula (affine W b x)); [injection Ha as ->|].
      - by injection Ha as <-. }
    simpl. by rewrite (IH a cache' Hrest).
Qed.
End forward_math_facts.

(** ** Rounding in [double]

    The operations of IEEE 754 binary64 against the real numbers, from
    the specification of the primitive floats: the rounding of a sum and
    of a quotient, the order, the sign of a difference; then the loops of
    [softmax] on doubles. *)

Lemma bpow_pos e : (0 < bpow e)%R.
Proof. apply powerRZ_lt. lra. Qed.

Lemma bpow_add a b : bpow (a + b) = (bpow a * bpow b)%R.
Proof. apply powerRZ_add. lra. Qed.

Lemma bpow_0 : bpow 0 = 1%R.
Proof. reflexivity. Qed.

Lemma bpow_1 : bpow 1 = 2%R.
Proof. unfold bpow. simpl. lra. Qed.

Lemma bpow_opp a : bpow (- a) = (/ bpow a)%R.
Proof.
  pose proof (bpow_add a (- a)) as Hadd. rewrite Z.add_opp_diag_r in Hadd.
  rewrite bpow_0 in Hadd. pose proof (bpow_pos a).
  apply (Rmult_eq_reg_l (bpow a)); [|lra]. rewrite <- Hadd.
  field. lra.
Qed.

Lemma bpow_IZR (k : Z) : (0 ≤ k)%Z → bpow k = IZR (2 ^ k).
Proof.
  intros Hk. unfold bpow. rewrite <- (Z2Nat.id k) by done.
  rewrite <- pow_powerRZ. rewrite <- Zpower_nat_Z. 
  induction (Z.to_nat k) as [|n IH]; [done|].
  rewrite Zpower_nat_succ_r, mult_IZR, <- IH. simpl. done.
Qed.

Lemma bpow_le a b : (a ≤ b)%Z → (bpow a <= bpow b)%R.
Proof.
  intros Hab. replace b with (a + (b - a))%Z by lia.
  rewrite bpow_add, (bpow_IZR (b - a)) by lia.
  pose proof (bpow_pos a).
  assert (1 <= IZR (2 ^ (b - a)))%R.
  { apply IZR_le. pose proof (Z.pow_pos_nonneg 2 (b - a)). lia. }
  nra.
Qed.

Lemma bpow_lt a b : (a < b)%Z → (bpow a < bpow b)%R.
Proof.
  intros Hab. replace b with (a + (b - a))%Z by lia.
  rewrite bpow_add, (bpow_IZR (b - a)) by lia.
  pose proof (bpow_pos a).
  assert (2 <= IZR (2 ^ (b - a)))%R.
  { apply IZR_le. replace (b - a)%Z with (Z.succ (b - a - 1)) by lia.
    rewrite Z.pow_succ_r by lia.
    pose proof (Z.pow_pos_nonneg 2 (b - a - 1)). lia. }
  nra.
Qed.

(** One step to the right. *)
Lemma shr_1_located (t : R) (m : Z) (r s : bool) :
  (0 ≤ m)%Z →
  located t m (loc_of_shr_record {| shr_m := m; shr_r := r; shr_s := s |}) →
  let mrs := shr_1 {| shr_m := m; shr_r := r; shr_s := s |} in
  shr_m mrs = (m / 2)%Z ∧
  located (t / 2) (shr_m mrs) (loc_of_shr_record mrs).
Proof.
  intros Hm Hloc.
  destruct m as [|[p|p|]|p]; [| | | |lia].
  - simpl. split; [done|]. destruct r, s; simpl in *; lra.
  - assert (IZR (Z.pos p~1) = 2 * IZR (Z.pos p) + 1)%R as HR.
    { rewrite <- mult_IZR, <- plus_IZR. f_equal. }
    split; [simpl; apply Z.div_unique with 1%Z; lia|].
    destruct r, s; simpl in *; rewrite ?HR in *; lra.
  - assert (IZR (Z.pos p~0) = 2 * IZR (Z.pos p))%R as HR.
    { rewrite <- mult_IZR. f_equal. }
    split; [simpl; apply Z.div_unique with 0%Z; lia|].
    destruct r, s; simpl in *; rewrite ?HR in *; lra.
  - split; [done|]. destruct r, s; simpl in *; lra.
Qed.

Lemma iter_pos_nat {A} (f : A → A) (p : positive) (x : A) :
  SpecFloat.iter_pos f p x = Nat.iter (Pos.to_nat p) f x.
Proof.
  revert x. induction p as [p IH|p IH|]; intros x.
  - rewrite Pos2Nat.inj_xI. simpl SpecFloat.iter_pos. rewrite !IH.
    replace (S (2 * Pos.to_nat p))
      with (S (Pos.to_nat p + Pos.to_nat p)) by lia.
    rewrite Nat.iter_succ_r, Nat.iter_add. done.
  - rewrite Pos2Nat.inj_xO. simpl SpecFloat.iter_pos. rewrite !IH.
    replace (2 * Pos.to_nat p) with (Pos.to_nat p + Pos.to_nat p) by lia.
    rewrite Nat.iter_add. done.
  - done.
Qed.

Lemma shr_iter_located (k : nat) (t : R) (mrs : shr_record) :
  (0 ≤ shr_m mrs)%Z →
  located t (shr_m mrs) (loc_of_shr_record mrs) →
  let mrs' := Nat.iter k shr_1 mrs in
  shr_m mrs' = (shr_m mrs / 2 ^ Z.of_nat k)%Z ∧
  located (t / 2 ^ k) (shr_m mrs') (loc_of_shr_record mrs').
Proof.
  intros Hm Hloc. induction k as [|k [IHm IHloc]].
  - simpl. rewrite Z.div_1_r. split; [done|].
    by replace (t / 1)%R with t by lra.
  - cbn zeta in *. simpl Nat.iter.
    destruct (Nat.iter k shr_1 mrs) as [mk rk sk] eqn:Hk. simpl in IHm.
    assert (0 ≤ mk)%Z as Hmk.
    { rewrite IHm. apply Z.div_pos; [done|]. apply Z.pow_pos_nonneg; lia. }
    destruct (shr_1_located (t / 2 ^ k) mk rk sk Hmk IHloc) as [Hm' Hloc'].
    split.
    + rewrite Hm', IHm, Z.div_div by (try apply Z.pow_pos_nonneg; lia).
      f_equal. rewrite Nat2Z.inj_succ, Z.pow_succ_r by lia. lia.
    + replace (t / 2 ^ S k)%R with (t / 2 ^ k / 2)%R; [done|].
      simpl. field. apply pow_nonzero. lra.
Qed.

Lemma shr_record_of_loc_m m l : shr_m (shr_record_of_loc m l) = m.
Proof. by destruct l as [|[| |]]. Qed.

Lemma loc_of_shr_record_of_loc m l :
  loc_of_shr_record (shr_record_of_loc m l) = l.
Proof. by destruct l as [|[| |]]. Qed.

Lemma pow_bpow (k : nat) : (2 ^ k)%R = bpow (Z.of_nat k).
Proof. unfold bpow. by rewrite pow_powerRZ. Qed.

(** The shift of [shr]: [n] positions to the right when [n] is
    positive. *)
Lemma shr_located (t : R) (m e n : Z) (l : location) :
  (0 ≤ m)%Z → located t m l →
  let n' := Z.max n 0 in
  let res := shr (shr_record_of_loc m l) e n in
  res.2 = (e + n')%Z ∧
  shr_m res.1 = (m / 2 ^ n')%Z ∧
  located (t / bpow n') (shr_m res.1) (loc_of_shr_record res.1).
Proof.
  intros Hm Hloc n' res.
  assert (located (t / bpow 0) (shr_m (shr_record_of_loc m l))
            (loc_of_shr_record (shr_record_of_loc m l))) as Hsame.
  { rewrite shr_record_of_loc_m, loc_of_shr_record_of_loc, bpow_0.
    by replace (t / 1)%R with t by lra. }
  destruct n as [|p|p]; subst n' res; unfold shr; cbn [fst snd].
  - change (Z.max 0 0) with 0%Z.
    rewrite Z.add_0_r, Z.div_1_r. by rewrite shr_record_of_loc_m in *.
  - replace (Z.max (Z.pos p) 0) with (Z.pos p) by lia.
    split; [done|]. rewrite iter_pos_nat.
    destruct (shr_iter_located (Pos.to_nat p) t (shr_record_of_loc m l))
      as [Hm' Hloc'].
    + by rewrite shr_record_of_loc_m.
    + by rewrite shr_record_of_loc_m, loc_of_shr_record_of_loc.
    + rewrite shr_record_of_loc_m, positive_nat_Z in Hm'.
      split; [done|]. by rewrite pow_bpow, positive_nat_Z in Hloc'.
  - replace (Z.max (Z.neg p) 0) with 0%Z by lia.
    rewrite Z.add_0_r, Z.div_1_r. by rewrite shr_record_of_loc_m in *.
Qed.

Lemma fexp_fexp64 z : fexp prec emax z = fexp64 z.
Proof. reflexivity. Qed.

Lemma fexp64_mono a b : (a ≤ b)%Z → (fexp64 a ≤ fexp64 b)%Z.
Proof. unfold fexp64. lia. Qed.

Lemma Zdigits2_bounds (m : Z) :
  (0 < m)%Z → (2 ^ (Zdigits2 m - 1) ≤ m < 2 ^ Zdigits2 m)%Z.
Proof.
  destruct m as [|p|p]; [lia| |lia]. intros _. apply digits2_pos_bounds.
Qed.

Lemma Zdigits2_nonneg (m : Z) : (0 ≤ Zdigits2 m)%Z.
Proof. destruct m; simpl; lia. Qed.

Lemma Zdigits2_le (m k : Z) :
  (0 ≤ m < 2 ^ k)%Z → (0 ≤ k)%Z → (Zdigits2 m ≤ k)%Z.
Proof.
  intros Hm Hk. destruct (decide (m = 0%Z)) as [->|Hne]; [done|].
  pose proof (Zdigits2_bounds m) as [Hlow _]; [lia|].
  destruct (decide (Zdigits2 m ≤ k)%Z) as [|Hgt]; [done|].
  assert (2 ^ k ≤ 2 ^ (Zdigits2 m - 1))%Z by (apply Z.pow_le_mono_r; lia).
  lia.
Qed.

Lemma Zdigits2_ge (m k : Z) :
  (2 ^ k ≤ m)%Z → (0 ≤ k)%Z → (k + 1 ≤ Zdigits2 m)%Z.
Proof.
  intros Hm Hk.
  assert (0 < m)%Z as Hpos by (pose proof (Z.pow_pos_nonneg 2 k); lia).
  pose proof (Zdigits2_bounds m Hpos) as [_ Hup].
  pose proof (Zdigits2_nonneg m).
  destruct (decide (k + 1 ≤ Zdigits2 m)%Z) as [|Hlt]; [done|].
  assert (2 ^ Zdigits2 m ≤ 2 ^ k)%Z by (apply Z.pow_le_mono_r; lia).
  lia.
Qed.

(** Rounding to nearest, ties to even, of a located value. *)
Lemma round_nearest_even_located (t : R) (m : Z) (l : location)
    (mrs : shr_record) :
  shr_m mrs = m → loc_of_shr_record mrs = l → located t m l →
  let k := round_nearest_even m l in
  (k = m ∨ k = m + 1)%Z ∧
  (IZR k - / 2 <= t <= IZR k + / 2)%R ∧
  (∀ j : Z, (IZR j <= t)%R → (j ≤ k)%Z) ∧
  (∀ j : Z, (t <= IZR j)%R → (k ≤ j)%Z).
Proof.
  intros _ _ Hloc k.
  assert (∀ j : Z, (IZR j < IZR m + 1)%R → (j ≤ m)%Z) as Hfloor.
  { intros j Hj. rewrite <- plus_IZR in Hj. apply lt_IZR in Hj. lia. }
  assert (∀ j : Z, (IZR m < IZR j)%R → (m + 1 ≤ j)%Z) as Hceil.
  { intros j Hj. apply lt_IZR in Hj. lia. }
  destruct l as [|[| |]]; simpl in Hloc; subst k; simpl.
  - subst t. split_and!; [by left|lra..| |].
    + intros j Hj. apply le_IZR in Hj. done.
    + intros j Hj. apply le_IZR in Hj. done.
  - destruct (Z.even m).
    + split_and!; [by left|lra..| |].
      * intros j Hj. apply Hfloor. lra.
      * intros j Hj. assert (m + 1 ≤ j)%Z by (apply Hceil; lra). lia.
    + rewrite plus_IZR. split_and!; [by right|lra..| |].
      * intros j Hj. assert (j ≤ m)%Z by (apply Hfloor; lra). lia.
      * intros j Hj. apply Hceil. lra.
  - split_and!; [by left|lra..| |].
    + intros j Hj. apply Hfloor. lra.
    + intros j Hj. assert (m + 1 ≤ j)%Z by (apply Hceil; lra). lia.
  - rewrite plus_IZR. split_and!; [by right|lra..| |].
    + intros j Hj. assert (j ≤ m)%Z by (apply Hfloor; lra). lia.
    + intros j Hj. apply Hceil. lra.
Qed.

Lemma shr_fexp_eq m e l :
  shr_fexp prec emax m e l
  = shr (shr_record_of_loc m l) e (fexp64 (Zdigits2 m + e) - e).
Proof. reflexivity. Qed.

Lemma binary_round_aux_value (m e : Z) (l : location) (x : R) :
  (0 ≤ m)%Z → located (x / bpow e) m l →
  (e ≤ fexp64 (Zdigits2 m + e))%Z →
  let e1 := fexp64 (Zdigits2 m + e) in
  let r := binary_round_aux prec emax false m e l in
  ∃ k : Z, (0 ≤ k)%Z ∧
    (IZR k - / 2 <= x / bpow e1 <= IZR k + / 2)%R ∧
    (∀ j : Z, (IZR j <= x / bpow e1)%R → (j ≤ k)%Z) ∧
    (∀ j : Z, (x / bpow e1 <= IZR j)%R → (k ≤ j)%Z) ∧
    ((Zdigits2 m + e ≤ 1023)%Z → r ≠ S754_infinity false) ∧
    (r = S754_infinity false ∨
     (nonneg_finite r ∧ SF2R r = (IZR k * bpow e1)%R)).
Proof.
  intros Hm Hloc Hn e1 r. set (D := (Zdigits2 m + e)%Z) in *.
  set (n := (e1 - e)%Z). assert (0 ≤ n)%Z as Hn0 by (unfold n, e1; lia).
  (* the first shift *)
  pose proof (shr_located (x / bpow e) m e n l Hm Hloc) as Hshr.
  cbn zeta in Hshr. replace (Z.max n 0) with n in Hshr by lia.
  subst r. unfold binary_round_aux. rewrite shr_fexp_eq.
  fold D. fold e1. fold n.
  destruct (shr (shr_record_of_loc m l) e n) as [mrs1 e1'].
  cbn [fst snd] in Hshr. destruct Hshr as (-> & Hm1 & Hloc1).
  replace (e + n)%Z with e1 by (unfold n; lia).
  replace (x / bpow e / bpow n)%R with (x / bpow e1)%R in Hloc1.
  2:{ replace e1 with (e + n)%Z by (unfold n; lia). rewrite bpow_add.
      pose proof (bpow_pos e). pose proof (bpow_pos n). field. lra. }
  set (m1 := shr_m mrs1) in *.
  assert (0 ≤ m1)%Z as Hm1pos.
  { rewrite Hm1. apply Z.div_pos; [done|]. apply Z.pow_pos_nonneg; lia. }
  (* the rounding *)
  destruct (round_nearest_even_located (x / bpow e1) m1
              (loc_of_shr_record mrs1) mrs1 eq_refl eq_refl Hloc1)
    as (Hk & Herr & Hfloor & Hceil).
  set (k := round_nearest_even m1 (loc_of_shr_record mrs1)) in *.
  assert (0 ≤ k)%Z as Hkpos by lia.
  (* the size of the rounded mantissa *)
  set (w := Z.max (D - e1) 0).
  assert (m1 < 2 ^ w)%Z as Hm1w.
  { rewrite Hm1. destruct (decide (m = 0%Z)) as [->|Hne].
    - rewrite Z.div_0_l by (pose proof (Z.pow_pos_nonneg 2 n); lia).
      apply Z.pow_pos_nonneg; lia.
    - pose proof (Zdigits2_bounds m) as [_ Hup]; [lia|].
      apply Z.div_lt_upper_bound; [apply Z.pow_pos_nonneg; lia|].
      rewrite <- Z.pow_add_r by lia.
      eapply Z.lt_le_trans; [exact Hup|].
      apply Z.pow_le_mono_r; [lia|]. unfold w, n, D. lia. }
  assert (k ≤ 2 ^ w)%Z as Hkw by lia.
  assert (-1074 ≤ e1)%Z as He1 by (unfold e1, fexp64; lia).
  (* the second shift *)
  rewrite shr_fexp_eq.
  set (n2 := (fexp64 (Zdigits2 k + e1) - e1)%Z).
  assert (n2 ≤ 0 ∨ (n2 = 1 ∧ k = 2 ^ 53 ∧ e1 = D - 53))%Z as Hn2.
  { destruct (decide (k < 2 ^ w)%Z) as [Hlt|Hge].
    - left. assert (Zdigits2 k ≤ w)%Z by (apply Zdigits2_le; lia).
      unfold n2, fexp64, w, e1 in *. unfold fexp64 in *. lia.
    - assert (k = 2 ^ w)%Z as Hk2 by lia.
      assert (Zdigits2 k ≤ w + 1)%Z.
      { apply Zdigits2_le; [|lia]. rewrite Hk2, Z.pow_add_r by lia. lia. }
      destruct (decide (n2 ≤ 0)%Z) as [|Hpos]; [by left|]. right.
      assert (w = 53 ∧ n2 = 1 ∧ e1 = D - 53)%Z as (Hw & ? & ?).
      { unfold n2, fexp64, w, e1 in *. unfold fexp64 in *. lia. }
      split_and!; try done. by rewrite Hk2, Hw. }
  assert (∃ m3 e3, shr (shr_record_of_loc k loc_Exact) e1 n2
                   = ({| shr_m := m3; shr_r := false; shr_s := false |}, e3)
          ∧ (0 ≤ m3)%Z ∧ (e3 ≤ e1 + 1)%Z
          ∧ (IZR m3 * bpow e3 = IZR k * bpow e1)%R)
    as (m3 & e3 & -> & ? & ? & Hval).
  { destruct Hn2 as [Hle|(-> & -> & _)].
    - exists k, e1. split_and!; [|done|lia|done].
      unfold shr. by destruct n2 as [|p|p]; [| lia |].
    - exists (2 ^ 52)%Z, (e1 + 1)%Z. split_and!; [done|done|lia|].
      rewrite bpow_add, bpow_1.
      replace (IZR (2 ^ 53)) with (IZR (2 ^ 52) * 2)%R; [lra|].
      rewrite <- mult_IZR. by f_equal. }
  cbn [shr_m].
  exists k. split_and!; try done; try lra.
  - intros HD. destruct m3 as [|p|p]; [done| |done].
    assert (e3 ≤ 971)%Z by (unfold e1, fexp64 in *; lia).
    destruct (Z.leb_spec e3 (emax - prec)) as [|Hgt]; [done|].
    unfold emax, prec in Hgt. lia.
  - destruct m3 as [|p|p]; [| |lia].
    + right. split; [done|]. simpl. simpl in Hval. lra.
    + destruct (Z.leb_spec e3 (emax - prec)); [|by left].
      right. split; [done|]. simpl. done.
Qed.

Lemma bounded_canonical (m : positive) (e : Z) :
  bounded prec emax m e = true →
  fexp64 (Z.pos (digits2_pos m) + e) = e ∧ (e ≤ 971)%Z.
Proof.
  unfold bounded, canonical_mantissa. rewrite fexp_fexp64.
  intros [Hc He]%andb_prop. apply Z.eqb_eq in Hc. apply Z.leb_le in He.
  unfold emax, prec in He. split; [done|lia].
Qed.

Lemma SF2R_finite_pos (m : positive) (e : Z) :
  (bpow (Z.pos (digits2_pos m) - 1 + e) <= SF2R (S754_finite false m e)
   < bpow (Z.pos (digits2_pos m) + e))%R.
Proof.
  pose proof (digits2_pos_bounds m) as [Hlow Hup]. simpl.
  rewrite !bpow_add, (bpow_IZR (Z.pos (digits2_pos m) - 1)),
    (bpow_IZR (Z.pos (digits2_pos m))) by lia. pose proof (bpow_pos e).
  apply IZR_le in Hlow. apply IZR_lt in Hup. nra.
Qed.

Lemma SF2R_nonneg (f : spec_float) : nonneg_finite f → (0 <= SF2R f)%R.
Proof.
  destruct f as [sz|[|]| |[|] m e]; try done; simpl; intros _.
  pose proof (bpow_pos e).
  assert (0 < IZR (Z.pos m))%R by (by apply IZR_lt). nra.
Qed.

(** A float on a grid: it is a multiple of the step, or below the
    smallest number of 53 bits on the grid. *)
Lemma valid_finite_grid (mf : positive) (ef e1 : Z) :
  valid64 (S754_finite false mf ef) → (-1074 ≤ e1)%Z →
  (∃ j : Z, SF2R (S754_finite false mf ef) = (IZR j * bpow e1)%R) ∨
  ((-1074 < e1)%Z ∧ (SF2R (S754_finite false mf ef) < bpow (52 + e1))%R).
Proof.
  intros [Hcanon He]%bounded_canonical He1.
  destruct (decide (e1 ≤ ef)%Z) as [Hle|Hgt].
  - left. exists (Z.pos mf * 2 ^ (ef - e1))%Z. simpl.
    rewrite mult_IZR, <- bpow_IZR by lia.
    replace ef with ((ef - e1) + e1)%Z at 1 by lia. rewrite bpow_add. lra.
  - right. split; [unfold fexp64 in Hcanon; lia|].
    pose proof (SF2R_finite_pos mf ef) as [_ Hup].
    eapply Rlt_le_trans; [exact Hup|]. apply bpow_le.
    unfold fexp64 in Hcanon. lia.
Qed.

Lemma binary_round_aux_spec (m e : Z) (l : location) (x : R) :
  (0 ≤ m)%Z → located (x / bpow e) m l →
  (e ≤ fexp64 (Zdigits2 m + e))%Z →
  let D := (Zdigits2 m + e)%Z in
  let r := binary_round_aux prec emax false m e l in
  ((D ≤ 1023)%Z → r ≠ S754_infinity false) ∧
  (r = S754_infinity false ∨
   (nonneg_finite r ∧
    (Rabs (SF2R r - x) <= / 2 * bpow (fexp64 D))%R ∧
    (l = loc_Exact → e = fexp64 D → SF2R r = x) ∧
    (∀ f, valid64 f → nonneg_finite f →
       (SF2R f <= x)%R → (SF2R f <= SF2R r)%R) ∧
    (∀ f, valid64 f → nonneg_finite f →
       (x <= SF2R f)%R → (SF2R r <= SF2R f)%R))).
Proof.
  intros Hm Hloc Hn D r.
  destruct (binary_round_aux_value m e l x Hm Hloc Hn)
    as (k & Hk & Herr & Hfloor & Hceil & Hinf & Hr).
  fold D in Hn, Herr, Hfloor, Hceil, Hinf, Hr. fold r in Hinf, Hr.
  set (e1 := fexp64 D) in *.
  split; [done|]. destruct Hr as [Hr|[Hfin Hval]]; [by left|right].
  pose proof (bpow_pos e1) as He1pos.
  assert (-1074 ≤ e1)%Z as He1 by (unfold e1, fexp64; lia).
  assert (x = x / bpow e1 * bpow e1)%R as Hx by (field; lra).
  (* the value is at least the smallest number of 53 bits of the grid *)
  assert ((-1074 < e1)%Z → (bpow (52 + e1) <= x)%R ∧ (2 ^ 52 ≤ k)%Z) as Hbig.
  { intros Hnormal.
    assert (e1 = D - 53)%Z as HD by (unfold e1, fexp64 in *; lia).
    assert (0 < m)%Z as Hmpos.
    { destruct (decide (m = 0%Z)) as [->|]; [|lia].
      unfold D in HD. simpl in HD. lia. }
    pose proof (Zdigits2_bounds m Hmpos) as [Hlow _].
    assert (IZR m <= x / bpow e)%R as Hmx.
    { destruct l as [|c]; simpl in Hloc; [lra|]. destruct Hloc as [? _]. lra. }
    assert (bpow (52 + e1) <= x)%R as Hx52.
    { replace (52 + e1)%Z with ((Zdigits2 m - 1) + e)%Z
        by (unfold D in HD; lia).
      rewrite bpow_add, bpow_IZR by lia. apply IZR_le in Hlow.
      pose proof (bpow_pos e).
      replace x with (x / bpow e * bpow e)%R by (field; lra). nra. }
    split; [done|]. apply Hfloor. rewrite <- bpow_IZR by lia.
    apply (Rmult_le_reg_r (bpow e1)); [done|].
    rewrite <- bpow_add, <- Hx. done. }
  split_and!; try done.
  - rewrite Hval. rewrite Hx at 1.
    replace (IZR k * bpow e1 - x / bpow e1 * bpow e1)%R
      with ((IZR k - x / bpow e1) * bpow e1)%R by lra.
    rewrite Rabs_mult, (Rabs_pos_eq (bpow e1)) by lra.
    apply Rmult_le_compat_r; [lra|]. apply Rabs_le. lra.
  - intros -> He. rewrite <- He in *. simpl in Hloc.
    assert (k = m) as ->; [|rewrite Hval, <- Hloc; field; lra].
    apply Z.le_antisymm; [apply Hceil|apply Hfloor]; lra.
  - intros f Hvalid Hf Hle. rewrite Hval.
    destruct f as [sz|[|]| |[|] mf ef]; try done.
    + simpl. apply IZR_le in Hk. nra.
    + destruct (valid_finite_grid mf ef e1 Hvalid He1) as [[j Hj]|[Hn' Hlt]].
      * rewrite Hj in *. apply Rmult_le_compat_r; [lra|]. apply IZR_le.
        apply Hfloor. apply (Rmult_le_reg_r (bpow e1)); [done|]. lra.
      * destruct (Hbig Hn') as [_ Hk52]. apply IZR_le in Hk52.
        rewrite <- bpow_IZR in Hk52 by lia.
        rewrite bpow_add in Hlt. nra.
  - intros f Hvalid Hf Hle. rewrite Hval.
    destruct f as [sz|[|]| |[|] mf ef]; try done.
    + simpl in *. assert (k ≤ 0)%Z as Hk0.
      { apply Hceil. apply (Rmult_le_reg_r (bpow e1)); [done|]. lra. }
      assert (k = 0%Z) as -> by lia. lra.
    + destruct (valid_finite_grid mf ef e1 Hvalid He1) as [[j Hj]|[Hn' Hlt]].
      * rewrite Hj in *. apply Rmult_le_compat_r; [lra|]. apply IZR_le.
        apply Hceil. apply (Rmult_le_reg_r (bpow e1)); [done|]. lra.
      * destruct (Hbig Hn') as [Hx52 _]. lra.
Qed.

Lemma Pos_iter_xO (m d : positive) :
  Z.pos (Pos.iter xO m d) = (Z.pos m * 2 ^ Z.pos d)%Z.
Proof.
  induction d as [|d IH] using Pos.peano_ind.
  - simpl. lia.
  - rewrite Pos.iter_succ, Pos2Z.inj_xO, IH, Pos2Z.inj_succ.
    rewrite Z.pow_succ_r by lia. lia.
Qed.

(** [shl_align] moves a mantissa to a smaller exponent. *)
Lemma shl_align_value (m : positive) (e e' : Z) :
  let res := shl_align m e e' in
  res.2 = Z.min e e' ∧
  Z.pos res.1 = (Z.pos m * 2 ^ (e - Z.min e e'))%Z.
Proof.
  unfold shl_align. destruct (e' - e)%Z as [|d|d] eqn:Hd; cbn [fst snd].
  - replace (Z.min e e') with e by lia. rewrite Z.sub_diag. lia.
  - replace (Z.min e e') with e by lia. rewrite Z.sub_diag. lia.
  - replace (Z.min e e') with e' by lia. split; [done|].
    rewrite Pos_iter_xO. f_equal. f_equal. lia.
Qed.

Lemma Zdigits2_shift (m : positive) (k : Z) :
  (0 ≤ k)%Z → Zdigits2 (Z.pos m * 2 ^ k) = (Zdigits2 (Z.pos m) + k)%Z.
Proof.
  intros Hk. pose proof (digits2_pos_bounds m) as [Hlow Hup].
  pose proof (Z.pow_pos_nonneg 2 k).
  apply Z.le_antisymm.
  - apply Zdigits2_le; [|simpl; lia]. simpl Zdigits2.
    rewrite Z.pow_add_r by lia. nia.
  - replace (Zdigits2 (Z.pos m) + k)%Z
      with ((Z.pos (digits2_pos m) - 1 + k) + 1)%Z by (simpl; lia).
    apply Zdigits2_ge; [|lia]. rewrite Z.pow_add_r by lia. nia.
Qed.

(** The rounding of a positive integer mantissa at an exponent that is
    no smaller than the smallest exponent. *)
Lemma binary_round_spec (p : positive) (e : Z) :
  (-1074 ≤ e)%Z →
  let x := (IZR (Z.pos p) * bpow e)%R in
  let r := binary_round prec emax false p e in
  (x < bpow 1023 → r ≠ S754_infinity false)%R ∧
  (r = S754_infinity false ∨
   (nonneg_finite r ∧
    (Rabs (SF2R r - x) <= bpow (-53) * x)%R ∧
    (∀ f, valid64 f → nonneg_finite f →
       (SF2R f <= x)%R → (SF2R f <= SF2R r)%R) ∧
    (∀ f, valid64 f → nonneg_finite f →
       (x <= SF2R f)%R → (SF2R r <= SF2R f)%R))).
Proof.
  intros He x r. subst r. unfold binary_round. rewrite fexp_fexp64.
  set (D := (Z.pos (digits2_pos p) + e)%Z).
  pose proof (shl_align_value p e (fexp64 D)) as Halign. cbn zeta in Halign.
  destruct (shl_align p e (fexp64 D)) as [mz ez]. cbn [fst snd] in Halign.
  destruct Halign as [-> Hmz].
  set (ez := Z.min e (fexp64 D)) in *.
  assert (Zdigits2 (Z.pos mz) + ez = D)%Z as HD.
  { rewrite Hmz, Zdigits2_shift by lia. simpl. unfold D, ez. lia. }
  assert (x / bpow ez = IZR (Z.pos mz))%R as Hx.
  { rewrite Hmz, mult_IZR, <- bpow_IZR by lia. unfold x.
    replace e with ((e - ez) + ez)%Z at 1 by lia. rewrite bpow_add.
    pose proof (bpow_pos ez). field. lra. }
  destruct (binary_round_aux_spec (Z.pos mz) ez loc_Exact x)
    as [Hinf Hr]; [done|done|rewrite HD; unfold ez; lia|].
  rewrite HD in Hinf, Hr.
  pose proof (SF2R_finite_pos p e) as [Hlow _].
  change (SF2R (S754_finite false p e)) with x in Hlow.
  replace (Z.pos (digits2_pos p) - 1 + e)%Z with (D - 1)%Z in Hlow
    by (unfold D; lia).
  split.
  - intros Hx1023. apply Hinf.
    destruct (decide (D ≤ 1023)%Z) as [|Hgt]; [done|].
    assert (bpow 1023 <= bpow (D - 1))%R by (apply bpow_le; lia). lra.
  - destruct Hr as [Hr|(Hfin & Herr & Hexact & Hlo & Hhi)]; [by left|right].
    split_and!; try done.
    destruct (decide (fexp64 D = D - 53)%Z) as [Hnormal|Hsub].
    + eapply Rle_trans; [exact Herr|]. rewrite Hnormal.
      replace (D - 53)%Z with (1 + (-53 + (D - 1)))%Z by lia.
      rewrite !bpow_add, bpow_1. pose proof (bpow_pos (-53)).
      pose proof (bpow_pos (D - 1)). 
      replace (/ 2 * (2 * (bpow (-53) * bpow (D - 1))))%R
        with (bpow (-53) * bpow (D - 1))%R by lra.
      apply Rmult_le_compat_l; lra.
    + rewrite Hexact; [|done|unfold ez, fexp64 in *; lia].
      replace (x - x)%R with 0%R by lra. rewrite Rabs_R0.
      pose proof (bpow_pos (-53)). pose proof (bpow_pos (D - 1)). nra.
Qed.

Lemma valid_exponent (s : bool) (m : positive) (e : Z) :
  valid64 (S754_finite s m e) → (-1074 ≤ e ≤ 971)%Z.
Proof.
  intros [Hcanon He]%bounded_canonical. unfold fexp64 in Hcanon. lia.
Qed.

Lemma SF2R_aligned (m : positive) (e ez : Z) :
  (ez ≤ e)%Z →
  SF2R (S754_finite false m e)
  = (IZR (Z.pos (shl_align m e ez).1) * bpow ez)%R.
Proof.
  intros Hle. pose proof (shl_align_value m e ez) as [_ Hm].
  rewrite Hm. replace (Z.min e ez) with ez by lia.
  rewrite mult_IZR, <- bpow_IZR by lia. simpl.
  replace e with ((e - ez) + ez)%Z at 1 by lia. rewrite bpow_add. lra.
Qed.

(** The sum of two floats that are not negative. *)
Lemma SFadd_nonneg (a b : spec_float) :
  valid64 a → valid64 b → nonneg_finite a → nonneg_finite b →
  (SF2R a + SF2R b < bpow 1023)%R →
  let x := (SF2R a + SF2R b)%R in
  let r := SFadd prec emax a b in
  nonneg_finite r ∧
  (Rabs (SF2R r - x) <= bpow (-53) * x)%R ∧
  (∀ f, valid64 f → nonneg_finite f →
     (SF2R f <= x)%R → (SF2R f <= SF2R r)%R) ∧
  (∀ f, valid64 f → nonneg_finite f →
     (x <= SF2R f)%R → (SF2R r <= SF2R f)%R).
Proof.
  intros Ha Hb Hna Hnb Hlt x r.
  pose proof (bpow_pos (-53)) as Hu.
  assert (∀ c, nonneg_finite c → r = c → x = SF2R c →
    nonneg_finite r ∧ (Rabs (SF2R r - x) <= bpow (-53) * x)%R ∧
    (∀ f, valid64 f → nonneg_finite f →
       (SF2R f <= x)%R → (SF2R f <= SF2R r)%R) ∧
    (∀ f, valid64 f → nonneg_finite f →
       (x <= SF2R f)%R → (SF2R r <= SF2R f)%R)) as Hexact.
  { intros c Hc -> ->. pose proof (SF2R_nonneg c Hc).
    replace (SF2R c - SF2R c)%R with 0%R by lra. rewrite Rabs_R0.
    split_and!; [done|nra|done..]. }
  destruct a as [sa|[|]| |[|] ma ea]; try done;
    destruct b as [sb|[|]| |[|] mb eb]; try done.
  - apply (Hexact (SFadd prec emax (S754_zero sa) (S754_zero sb)));
      [by destruct sa, sb|done|]. unfold x. by destruct sa, sb; simpl; lra.
  - apply (Hexact (S754_finite false mb eb)); [done..|]. unfold x. simpl. lra.
  - apply (Hexact (S754_finite false ma ea)); [done..|]. unfold x. simpl. lra.
  - pose proof (valid_exponent _ _ _ Ha). pose proof (valid_exponent _ _ _ Hb).
    set (ez := Z.min ea eb).
    assert (x = IZR (Z.pos ((shl_align ma ea ez).1 + (shl_align mb eb ez).1))
                * bpow ez)%R as Hx.
    { unfold x. rewrite (SF2R_aligned ma ea ez), (SF2R_aligned mb eb ez)
        by (unfold ez; lia).
      rewrite Pos2Z.inj_add, plus_IZR. lra. }
    assert (r = binary_round prec emax false
                  ((shl_align ma ea ez).1 + (shl_align mb eb ez).1) ez) as Hr.
    { done. }
    destruct (binary_round_spec
                ((shl_align ma ea ez).1 + (shl_align mb eb ez).1) ez)
      as [Hinf Hspec]; [unfold ez; lia|].
    rewrite <- Hx, <- Hr in Hinf, Hspec.
    destruct Hspec as [Hspec|Hspec]; [by apply Hinf in Hspec|done].
Qed.

(** The location of a quotient from its remainder. *)
Lemma new_location_located (nb k q : Z) :
  (0 < nb)%Z → (0 ≤ k < nb)%Z →
  located (IZR q + IZR k / IZR nb) q (new_location nb k).
Proof.
  intros Hnb Hk.
  assert (0 < IZR nb)%R as HnbR by (by apply IZR_lt).
  assert (0 <= IZR k < IZR nb)%R as HkR.
  { split; [apply IZR_le|apply IZR_lt]; lia. }
  assert (∀ c : comparison, (0 < k)%Z →
    match c with
    | Lt => (2 * k < nb)%Z | Eq => (2 * k = nb)%Z | Gt => (nb < 2 * k)%Z
    end →
    located (IZR q + IZR k / IZR nb) q (loc_Inexact c)) as Hcmp.
  { intros c Hpos Hc. assert (0 < IZR k)%R by (by apply IZR_lt).
    assert (0 < IZR k / IZR nb < 1)%R as Hfrac.
    { split; [by apply Rdiv_lt_0_compat|].
      apply (Rmult_lt_reg_r (IZR nb)); [done|].
      replace (IZR k / IZR nb * IZR nb)%R with (IZR k) by (field; lra). lra. }
    simpl. split; [lra|].
    assert (IZR k / IZR nb * IZR nb = IZR k)%R as Hy by (field; lra).
    set (y := (IZR k / IZR nb)%R) in *.
    destruct c.
    - assert (2 * IZR k = IZR nb)%R by (rewrite <- Hc, mult_IZR; lra).
      assert (y = / 2)%R by nra. lra.
    - assert (2 * IZR k < IZR nb)%R
        by (apply IZR_lt in Hc; rewrite mult_IZR in Hc; lra).
      assert (y < / 2)%R by nra. lra.
    - assert (IZR nb < 2 * IZR k)%R
        by (apply IZR_lt in Hc; rewrite mult_IZR in Hc; lra).
      assert (/ 2 < y)%R by nra. lra. }
  unfold new_location, new_location_even, new_location_odd.
  destruct (IntDef.Z.even nb) eqn:Heven; cbv beta.
  - destruct (Z.eqb_spec k 0) as [->|Hne].
    + by replace (IZR q + 0 / IZR nb)%R with (IZR q) by (field; lra).
    + apply Hcmp; [lia|]. by destruct (Z.compare_spec (2 * k) nb).
  - destruct (Z.eqb_spec k 0) as [->|Hne].
    + by replace (IZR q + 0 / IZR nb)%R with (IZR q) by (field; lra).
    + assert (2 * k ≠ nb)%Z as Hodd.
      { intros <-.
        change (IntDef.Z.even (2 * k)) with (Z.even (2 * k)) in Heven.
        by rewrite Z.even_mul in Heven. }
      destruct (Z.compare_spec (2 * k + 1) nb);
        (apply Hcmp; [lia|]); lia.
Qed.

Lemma SFdiv_core_eq (ma mb : positive) (ea eb : Z) :
  let D' := (Zdigits2 (Z.pos ma) + ea - (Zdigits2 (Z.pos mb) + eb))%Z in
  let e' := Z.min (fexp64 D') (ea - eb) in
  let m' := (Z.pos ma * 2 ^ (ea - eb - e'))%Z in
  SFdiv_core_binary prec emax (Z.pos ma) ea (Z.pos mb) eb
  = (m' / Z.pos mb, e', new_location (Z.pos mb) (m' mod Z.pos mb))%Z.
Proof.
  intros D' e' m'. unfold SFdiv_core_binary. rewrite fexp_fexp64.
  fold D'. fold e'.
  assert (match (ea - eb - e')%Z with
          | Z.pos _ => Z.shiftl (Z.pos ma) (ea - eb - e')
          | 0%Z => Z.pos ma
          | Z.neg _ => 0%Z
          end = m') as ->.
  { unfold m'. destruct (ea - eb - e')%Z as [|s|s] eqn:Hs.
    - lia.
    - by rewrite Z.shiftl_mul_pow2.
    - unfold e' in Hs. lia. }
  unfold Z.div, Z.modulo. by destruct (Z.div_eucl m' (Z.pos mb)).
Qed.

Lemma SF_one_value : SF2R SF_one = 1%R.
Proof.
  unfold SF_one, SF2R, cond_Zopp.
  change (Z.pos 4503599627370496) with (2 ^ 52)%Z.
  rewrite <- (bpow_IZR 52), <- bpow_add by lia. apply bpow_0.
Qed.

(** The quotient of a float that is not negative by a greater float. *)
Lemma SFdiv_nonneg (a : spec_float) (mb : positive) (eb : Z) :
  valid64 a → nonneg_finite a →
  (SF2R a <= SF2R (S754_finite false mb eb))%R →
  let x := (SF2R a / SF2R (S754_finite false mb eb))%R in
  let r := SFdiv prec emax a (S754_finite false mb eb) in
  nonneg_finite r ∧ (SF2R r <= 1)%R ∧
  (Rabs (SF2R r - x) <= bpow (-53) * x + bpow (-1075))%R.
Proof.
  intros Ha Hna Hle x r.
  pose proof (bpow_pos (-53)) as Hu. pose proof (bpow_pos (-1075)) as Heta.
  pose proof (SF2R_finite_pos mb eb) as [Hblow Hbup].
  pose proof (bpow_pos (Z.pos (digits2_pos mb) - 1 + eb)) as Hbpos.
  set (vb := SF2R (S754_finite false mb eb)) in *.
  destruct a as [sa|[|]| |[|] ma ea]; try done.
  - (* zero *)
    assert (x = 0)%R as -> by (unfold x; simpl; field; lra).
    subst r. simpl. rewrite Rminus_diag, Rabs_R0. split_and!; [done|lra..].
  - pose proof (SF2R_finite_pos ma ea) as [Halow Haup].
    pose proof (bpow_pos (Z.pos (digits2_pos ma) - 1 + ea)) as Hapos.
    set (va := SF2R (S754_finite false ma ea)) in *.
    assert (0 < x <= 1)%R as Hx01.
    { unfold x. split; [apply Rdiv_lt_0_compat; lra|].
      apply (Rmult_le_reg_r vb); [lra|].
      replace (va / vb * vb)%R with va by (field; lra). lra. }
    pose proof (SFdiv_core_eq ma mb ea eb) as Hcore. cbn zeta in Hcore.
    set (D' := (Zdigits2 (Z.pos ma) + ea - (Zdigits2 (Z.pos mb) + eb))%Z) in *.
    set (e' := Z.min (fexp64 D') (ea - eb)) in *.
    set (s := (ea - eb - e')%Z) in *.
    assert (0 ≤ s)%Z as Hs by (unfold s, e'; lia).
    set (m' := (Z.pos ma * 2 ^ s)%Z) in *.
    set (q := (m' / Z.pos mb)%Z) in *.
    set (rem := (m' mod Z.pos mb)%Z) in *.
    assert (r = binary_round_aux prec emax false q e'
                  (new_location (Z.pos mb) rem)) as Hr.
    { subst r. unfold SFdiv. by rewrite Hcore. }
    pose proof (Z.pow_pos_nonneg 2 s) as H2s.
    assert (0 < m')%Z as Hm' by (unfold m'; lia).
    assert (m' = Z.pos mb * q + rem ∧ 0 ≤ rem < Z.pos mb)%Z as [Hdiv Hrem].
    { split; [apply Z.div_mod; lia|apply Z.mod_pos_bound; lia]. }
    assert (0 ≤ q)%Z as Hq by (apply Z.div_pos; lia).
    pose proof (bpow_pos e') as He'pos.
    assert (x / bpow e' = IZR q + IZR rem / IZR (Z.pos mb))%R as Hxq.
    { assert (IZR m' = IZR (Z.pos mb) * IZR q + IZR rem)%R as HmR
        by (rewrite Hdiv at 1; rewrite plus_IZR, mult_IZR; done).
      assert (IZR m' = IZR (Z.pos ma) * bpow s)%R as HmR'
        by (unfold m'; rewrite mult_IZR, <- bpow_IZR by lia; done).
      assert (bpow ea = bpow s * bpow eb * bpow e')%R as Hea.
      { rewrite <- !bpow_add. f_equal. unfold s. lia. }
      assert (0 < IZR (Z.pos mb))%R by (by apply IZR_lt).
      pose proof (bpow_pos eb). pose proof (bpow_pos s).
      unfold x, va, vb. simpl. rewrite Hea.
      replace (IZR q + IZR rem / IZR (Z.pos mb))%R
        with (IZR m' / IZR (Z.pos mb))%R by (rewrite HmR; field; lra).
      rewrite HmR'. field. lra. }
    assert (located (x / bpow e') q (new_location (Z.pos mb) rem)) as Hloc.
    { rewrite Hxq. apply new_location_located; lia. }
    (* the quotient has enough digits *)
    assert (e' ≤ fexp64 (Zdigits2 q + e'))%Z as Hcond.
    { destruct (decide (e' ≤ -1074)%Z) as [|Hnormal];
        [unfold fexp64; lia|].
      assert (e' ≤ D' - 53)%Z as HD' by (unfold e', fexp64 in *; lia).
      pose proof (digits2_pos_bounds ma) as [Hmalow _].
      pose proof (digits2_pos_bounds mb) as [_ Hmbup].
      set (d1 := Z.pos (digits2_pos ma)) in *.
      set (d2 := Z.pos (digits2_pos mb)) in *.
      assert (0 ≤ d1 - 1 + s - d2)%Z as Hexp.
      { unfold s, D' in *. simpl Zdigits2 in *. fold d1 d2 in HD'. lia. }
      assert (2 ^ (d1 - 1 + s - d2) ≤ q)%Z as Hqlow.
      { apply Z.div_le_lower_bound; [lia|].
        assert (2 ^ (d1 - 1) * 2 ^ s = 2 ^ (d1 - 1 + s - d2) * 2 ^ d2)%Z
          as Hsplit.
        { rewrite <- !Z.pow_add_r by (unfold d1, d2; lia). f_equal. lia. }
        assert (2 ^ (d1 - 1) * 2 ^ s ≤ m')%Z by (unfold m'; nia).
        pose proof (Z.pow_pos_nonneg 2 (d1 - 1 + s - d2)).
        set (A := (2 ^ (d1 - 1 + s - d2))%Z) in *.
        set (B := (2 ^ d2)%Z) in *. nia. }
      pose proof (Zdigits2_ge q _ Hqlow Hexp) as Hdq.
      assert (D' ≤ Zdigits2 q + e')%Z as Hmag.
      { unfold D', s in *. simpl Zdigits2 at 1 2. fold d1 d2. lia. }
      apply fexp64_mono in Hmag. unfold e' at 1. lia. }
    destruct (binary_round_aux_spec q e' (new_location (Z.pos mb) rem) x
                Hq Hloc Hcond) as [Hinf Hspec].
    rewrite <- Hr in Hinf, Hspec.
    (* the magnitude of the quotient *)
    assert ((0 < q)%Z → (bpow (Zdigits2 q - 1 + e') <= x)%R) as Hxlow.
    { intros Hqpos. pose proof (Zdigits2_bounds q Hqpos) as [Hlow _].
      apply IZR_le in Hlow. rewrite <- bpow_IZR in Hlow
        by (pose proof (Zdigits2_ge q 0); lia).
      assert (IZR q <= x / bpow e')%R as Hqx.
      { destruct (new_location (Z.pos mb) rem) as [|c]; simpl in Hloc;
          [lra|]. destruct Hloc as [? _]. lra. }
      rewrite bpow_add.
      replace x with (x / bpow e' * bpow e')%R by (field; lra). nra. }
    assert (Zdigits2 q + e' ≤ 1)%Z as Hmag.
    { destruct (decide (q = 0%Z)) as [Hq0|Hq0].
      - rewrite Hq0. simpl.
        assert (D' ≤ 1)%Z; [|unfold e', fexp64; lia].
        destruct (decide (D' ≤ 1)%Z) as [|Hgt]; [done|].
        assert (bpow 1 <= bpow (D' - 1))%R as H1 by (apply bpow_le; lia).
        rewrite bpow_1 in H1.
        assert (bpow (D' - 1) <= x)%R; [|lra].
        unfold D'. simpl Zdigits2.
        replace (Z.pos (digits2_pos ma) + ea
                 - (Z.pos (digits2_pos mb) + eb) - 1)%Z
          with ((Z.pos (digits2_pos ma) - 1 + ea)
                + - (Z.pos (digits2_pos mb) + eb))%Z by lia.
        rewrite bpow_add, bpow_opp.
        pose proof (bpow_pos (Z.pos (digits2_pos mb) + eb)).
        unfold x. unfold Rdiv.
        apply Rmult_le_compat; [lra| |lra|].
        + apply Rlt_le, Rinv_0_lt_compat. lra.
        + apply Rinv_le_contravar; lra.
      - destruct (decide (Zdigits2 q + e' ≤ 1)%Z) as [|Hgt]; [done|].
        assert (bpow 1 <= bpow (Zdigits2 q - 1 + e'))%R as H1
          by (apply bpow_le; lia).
        rewrite bpow_1 in H1. specialize (Hxlow ltac:(lia)). lra. }
    destruct Hspec as [Hspec|(Hfin & Herr & _ & _ & Hhi)];
      [apply Hinf in Hspec; [done|lia]|].
    split_and!; [done| |].
    + rewrite <- SF_one_value. apply Hhi; [done|done|].
      rewrite SF_one_value. lra.
    + eapply Rle_trans; [exact Herr|].
      destruct (decide (fexp64 (Zdigits2 q + e') = -1074)%Z) as [->|Hnormal].
      * replace (-1074)%Z with (1 + -1075)%Z by lia.
        rewrite bpow_add, bpow_1. nra.
      * assert (fexp64 (Zdigits2 q + e') = Zdigits2 q + e' - 53)%Z as ->
          by (unfold fexp64 in *; lia).
        assert (0 < q)%Z as Hqpos.
        { destruct (decide (q = 0%Z)) as [Hq0|]; [|lia].
          rewrite Hq0 in Hcond, Hnormal. simpl in Hcond, Hnormal.
          unfold fexp64 in *. lia. }
        specialize (Hxlow Hqpos).
        set (g := (Zdigits2 q - 1 + e')%Z) in *.
        replace (Zdigits2 q + e' - 53)%Z with (1 + (-53 + g))%Z
          by (unfold g; lia).
        rewrite !bpow_add, bpow_1. pose proof (bpow_pos g). nra.
Qed.

Lemma SFleb_key_lt (x y : spec_float) :
  x ≠ S754_nan → y ≠ S754_nan →
  SFleb x y = true ↔ ¬ key_lt (order_key y) (order_key x).
Proof.
  intros Hx Hy. unfold SFleb, key_lt.
  destruct x as [[|]|[|]| |[|] m1 e1], y as [[|]|[|]| |[|] m2 e2];
    try done; simpl; try (split; [intros _; lia|done]);
    try (split; [discriminate|lia]).
  all: rewrite Pos.compare_cont_spec.
  all: destruct (Z.compare_spec e1 e2) as [He|He|He];
    destruct (Pos.compare_spec m1 m2) as [Hm|Hm|Hm]; simpl;
    split; try discriminate; try done; try lia.
Qed.

Lemma SF2R_opp (m : positive) (e : Z) :
  SF2R (S754_finite true m e) = (- SF2R (S754_finite false m e))%R.
Proof. unfold SF2R, cond_Zopp. rewrite opp_IZR. lra. Qed.

Lemma SF2R_finite_gt0 (m : positive) (e : Z) :
  (0 < SF2R (S754_finite false m e))%R.
Proof.
  pose proof (SF2R_finite_pos m e) as [Hlow _].
  pose proof (bpow_pos (Z.pos (digits2_pos m) - 1 + e)). lra.
Qed.

(** Among the positive floats the order is that of the exponents, then
    that of the mantissas. *)
Lemma finite_lt_exponent (m1 m2 : positive) (e1 e2 : Z) :
  valid64 (S754_finite false m1 e1) → valid64 (S754_finite false m2 e2) →
  (e1 < e2)%Z →
  (SF2R (S754_finite false m1 e1) < SF2R (S754_finite false m2 e2))%R.
Proof.
  intros [Hc1 _]%bounded_canonical [Hc2 _]%bounded_canonical Hlt.
  pose proof (SF2R_finite_pos m1 e1) as [_ Hup].
  pose proof (SF2R_finite_pos m2 e2) as [Hlow _].
  eapply Rlt_le_trans; [exact Hup|]. eapply Rle_trans; [|exact Hlow].
  apply bpow_le. unfold fexp64 in *. lia.
Qed.

Lemma finite_lt_mantissa (m1 m2 : positive) (e : Z) :
  (m1 < m2)%positive →
  (SF2R (S754_finite false m1 e) < SF2R (S754_finite false m2 e))%R.
Proof.
  intros Hlt. simpl. pose proof (bpow_pos e).
  apply Rmult_lt_compat_r; [done|]. apply IZR_lt. lia.
Qed.

Lemma key_lt_finite_pos (m1 m2 : positive) (e1 e2 : Z) :
  valid64 (S754_finite false m1 e1) → valid64 (S754_finite false m2 e2) →
  (e1 < e2 ∨ (e1 = e2 ∧ Z.pos m1 < Z.pos m2))%Z ↔
  (SF2R (S754_finite false m1 e1) < SF2R (S754_finite false m2 e2))%R.
Proof.
  intros H1 H2. split.
  - intros [Hlt|[-> Hlt]]; [by apply finite_lt_exponent|].
    apply finite_lt_mantissa. lia.
  - intros Hlt.
    destruct (Z.lt_trichotomy e1 e2) as [?|[->|Hgt]]; [by left| |].
    + right. split; [done|].
      destruct (Z.lt_trichotomy (Z.pos m1) (Z.pos m2)) as [?|[Heq|Hgt]];
        [done| |].
      * injection Heq as ->. lra.
      * pose proof (finite_lt_mantissa m2 m1 e2 ltac:(lia)). lra.
    + pose proof (finite_lt_exponent m2 m1 e2 e1 H2 H1 Hgt). lra.
Qed.

(** The order of the floats is the order of their values. *)
Lemma key_lt_value (a b : spec_float) :
  valid64 a → valid64 b → finite64 a → finite64 b →
  key_lt (order_key a) (order_key b) ↔ (SF2R a < SF2R b)%R.
Proof.
  intros Ha Hb Hfa Hfb. unfold key_lt.
  destruct a as [sa|[|]| |[|] m1 e1]; try done;
    destruct b as [sb|[|]| |[|] m2 e2]; try done.
  all: rewrite ?SF2R_opp.
  all: try pose proof (SF2R_finite_gt0 m1 e1).
  all: try pose proof (SF2R_finite_gt0 m2 e2).
  all: cbn [order_key fst snd].
  all: try change (SF2R (S754_zero sa)) with 0%R.
  all: try change (SF2R (S754_zero sb)) with 0%R.
  - split; [lia|lra].
  - split; [lia|lra].
  - split; [intros _; lra|intros _; lia].
  - split; [intros _; lra|intros _; lia].
  - pose proof (key_lt_finite_pos m2 m1 e2 e1 Hb Ha) as Hkey.
    split.
    + intros Hlt. assert (SF2R (S754_finite false m2 e2)
                          < SF2R (S754_finite false m1 e1))%R; [|lra].
      apply Hkey. lia.
    + intros Hlt. assert (e2 < e1 ∨ e2 = e1 ∧ Z.pos m2 < Z.pos m1)%Z;
        [|lia]. apply Hkey. lra.
  - split; [intros _; lra|intros _; lia].
  - split; [lia|lra].
  - split; [lia|lra].
  - pose proof (key_lt_finite_pos m1 m2 e1 e2 Ha Hb) as Hkey.
    split.
    + intros Hlt. apply Hkey. lia.
    + intros Hlt. apply Hkey in Hlt. lia.
Qed.

Lemma SFltb_value (a b : spec_float) :
  valid64 a → valid64 b → finite64 a → finite64 b →
  SFltb a b = true ↔ (SF2R a < SF2R b)%R.
Proof.
  intros Ha Hb Hfa Hfb. rewrite SFltb_key_lt.
  - by apply key_lt_value.
  - by destruct a.
  - by destruct b.
Qed.

Lemma SFleb_value (a b : spec_float) :
  valid64 a → valid64 b → finite64 a → finite64 b →
  SFleb a b = true ↔ (SF2R a <= SF2R b)%R.
Proof.
  intros Ha Hb Hfa Hfb. rewrite SFleb_key_lt.
  - rewrite key_lt_value by done. split; lra.
  - by destruct a.
  - by destruct b.
Qed.

Lemma binary_round_aux_opp (m e : Z) (l : location) :
  binary_round_aux prec emax true m e l
  = SFopp (binary_round_aux prec emax false m e l).
Proof.
  unfold binary_round_aux.
  destruct (shr_fexp prec emax m e l) as [mrs' e'].
  destruct (shr_fexp prec emax _ e' loc_Exact) as [mrs'' e''].
  destruct (shr_m mrs'') as [|p|p]; [done| |done].
  by destruct (e'' <=? emax - prec)%Z.
Qed.

Lemma binary_round_opp (p : positive) (e : Z) :
  binary_round prec emax true p e = SFopp (binary_round prec emax false p e).
Proof.
  unfold binary_round. destruct (shl_align p e _) as [mz ez].
  apply binary_round_aux_opp.
Qed.

Lemma SF2R_aligned_signed (s : bool) (m : positive) (e ez : Z) :
  (ez ≤ e)%Z →
  SF2R (S754_finite s m e)
  = (IZR (cond_Zopp s (Z.pos (shl_align m e ez).1)) * bpow ez)%R.
Proof.
  intros Hle. destruct s.
  - rewrite SF2R_opp, (SF2R_aligned m e ez Hle). unfold cond_Zopp.
    rewrite opp_IZR. lra.
  - by apply SF2R_aligned.
Qed.

(** A float minus a float that is no smaller is not above 0. *)
Lemma SFsub_le (a b : spec_float) :
  valid64 a → valid64 b → finite64 a → finite64 b →
  (SF2R a <= SF2R b)%R →
  SFleb (SFsub prec emax a b) (S754_zero false) = true.
Proof.
  intros Ha Hb Hfa Hfb Hle.
  destruct a as [sa|[|]| |sa ma ea]; try done;
    destruct b as [sb|[|]| |sb mb eb]; try done.
  - by destruct sa, sb.
  - destruct sb; [|done]. rewrite SF2R_opp in Hle.
    pose proof (SF2R_finite_gt0 mb eb).
    change (SF2R (S754_zero sa)) with 0%R in Hle. lra.
  - destruct sa; [done|].
    pose proof (SF2R_finite_gt0 ma ea).
    change (SF2R (S754_zero sb)) with 0%R in Hle. lra.
  - pose proof (valid_exponent _ _ _ Ha). pose proof (valid_exponent _ _ _ Hb).
    unfold SFsub. set (ez := Z.min ea eb).
    rewrite (SF2R_aligned_signed sa ma ea ez),
      (SF2R_aligned_signed sb mb eb ez) in Hle by (unfold ez; lia).
    set (X := cond_Zopp sa (Z.pos (shl_align ma ea ez).1)) in *.
    set (Y := cond_Zopp sb (Z.pos (shl_align mb eb ez).1)) in *.
    assert (X - Y ≤ 0)%Z as Hdiff.
    { pose proof (bpow_pos ez). apply le_IZR. rewrite minus_IZR. nra. }
    destruct (X - Y)%Z as [|p|p]; [done|lia|].
    unfold binary_normalize. rewrite binary_round_opp.
    destruct (binary_round_spec p ez) as [_ [->|[Hfin _]]];
      [unfold ez; lia|done|].
    by destruct (binary_round prec emax false p ez) as [[|]|[|]| |[|] m e].
Qed.

Lemma SFsub_diag (a : spec_float) :
  finite64 a → SFsub prec emax a a = S754_zero false.
Proof.
  destruct a as [[|]|[|]| |s m e]; try done. intros _.
  unfold SFsub. by rewrite Z.sub_diag.
Qed.

Lemma Prim2SF_zero : Prim2SF 0%float = S754_zero false.
Proof. reflexivity. Qed.

Lemma Prim2SF_one : Prim2SF 1%float = SF_one.
Proof. reflexivity. Qed.

Lemma valid_Prim2SF (x : float) : valid64 (Prim2SF x).
Proof. apply Prim2SF_valid. Qed.

Lemma is_finite_finite64 (x : float) :
  is_finite x = true → finite64 (Prim2SF x).
Proof.
  unfold is_finite, is_nan, is_infinity.
  rewrite !FloatAxioms.eqb_spec, abs_spec.
  change (Prim2SF infinity) with (S754_infinity false).
  by destruct (Prim2SF x) as [[|]|[|]| |[|] m e].
Qed.

Lemma in_unit_spec (y : float) :
  in_unit y ↔ nonneg_finite (Prim2SF y) ∧ (to_R y <= 1)%R.
Proof.
  unfold in_unit, to_R. rewrite !leb_spec, Prim2SF_zero, Prim2SF_one.
  pose proof (valid_Prim2SF y) as Hv. pose proof SF_one_value as H1.
  assert (valid64 SF_one) as Hv1 by done.
  assert (valid64 (S754_zero false)) as Hv0 by done.
  destruct (Prim2SF y) as [sy|[|]| |[|] m e] eqn:Hy.
  - split; intros _; [split; [done|simpl; lra]|by destruct sy].
  - split; intros [H _]; done.
  - split; [intros [_ H]; done|intros [H _]; done].
  - split; intros [H _]; done.
  - split; intros [H _]; done.
  - rewrite (SFleb_value (S754_finite false m e) SF_one) by done.
    rewrite H1. split; [intros [_ ?]; by split|intros [_ ?]; by split].
Qed.

Lemma to_R_nonneg (y : float) : nonneg_finite (Prim2SF y) → (0 <= to_R y)%R.
Proof. apply SF2R_nonneg. Qed.

Lemma nonneg_finite_finite64 (f : spec_float) : nonneg_finite f → finite64 f.
Proof. by destruct f as [[|]|[|]| |[|] m e]. Qed.

(** The sum of two doubles that are not negative. *)
Lemma add_nonneg (a b : float) :
  nonneg_finite (Prim2SF a) → nonneg_finite (Prim2SF b) →
  (to_R a + to_R b < bpow 1023)%R →
  nonneg_finite (Prim2SF (a + b)) ∧
  (Rabs (to_R (a + b) - (to_R a + to_R b))
   <= bpow (-53) * (to_R a + to_R b))%R ∧
  (to_R a <= to_R (a + b))%R ∧ (to_R b <= to_R (a + b))%R.
Proof.
  intros Ha Hb Hlt. unfold to_R in *. rewrite add_spec.
  destruct (SFadd_nonneg (Prim2SF a) (Prim2SF b))
    as (Hfin & Herr & Hlow & _); try done; try apply valid_Prim2SF.
  pose proof (SF2R_nonneg _ Ha). pose proof (SF2R_nonneg _ Hb).
  split_and!; [done|done| |].
  - apply Hlow; [apply valid_Prim2SF|done|lra].
  - apply Hlow; [apply valid_Prim2SF|done|lra].
Qed.

(** The quotient of a double that is not negative by a greater one. *)
Lemma div_unit (a b : float) :
  nonneg_finite (Prim2SF a) → nonneg_finite (Prim2SF b) →
  (0 < to_R b)%R → (to_R a <= to_R b)%R →
  in_unit (a / b) ∧
  (Rabs (to_R (a / b) - to_R a / to_R b)
   <= bpow (-53) * (to_R a / to_R b) + bpow (-1075))%R.
Proof.
  intros Ha Hb Hpos Hle. rewrite in_unit_spec. unfold to_R in *.
  rewrite div_spec.
  destruct (Prim2SF b) as [sb|[|]| |[|] mb eb] eqn:HPb; try done.
  { simpl in Hpos. lra. }
  destruct (SFdiv_nonneg (Prim2SF a) mb eb) as (Hfin & H1 & Herr);
    try done. apply valid_Prim2SF.
Qed.

(** The difference of two finite doubles is not above 0 when the first
    is not the greater one, and is 0 when they are the same. *)
Lemma sub_le_zero (x m : float) :
  is_finite x = true → is_finite m = true → (m <? x)%float = false →
  (x - m <=? 0)%float = true.
Proof.
  intros Hx%is_finite_finite64 Hm%is_finite_finite64 Hlt.
  rewrite leb_spec, sub_spec, Prim2SF_zero. apply SFsub_le; try done;
    try apply valid_Prim2SF.
  rewrite FloatAxioms.ltb_spec in Hlt.
  destruct (Rle_or_lt (SF2R (Prim2SF x)) (SF2R (Prim2SF m))) as [|Hgt];
    [done|].
  apply SFltb_value in Hgt; try done; try apply valid_Prim2SF.
  congruence.
Qed.

Lemma sub_diag_zero (x : float) :
  is_finite x = true → (x - x =? 0)%float = true.
Proof.
  intros Hx%is_finite_finite64.
  rewrite FloatAxioms.eqb_spec, sub_spec, Prim2SF_zero.
  unfold SF64sub. by rewrite SFsub_diag.
Qed.

Lemma u64_value : u64 = (/ 9007199254740992)%R.
Proof.
  unfold u64. change (-53)%Z with (- (53))%Z. rewrite bpow_opp, bpow_IZR by lia.
  done.
Qed.

Lemma eta64_bound : (0 < eta64 <= / 18446744073709551616)%R.
Proof.
  unfold eta64. split; [apply bpow_pos|].
  eapply Rle_trans; [apply (bpow_le (-1075) (-64)); lia|].
  change (-64)%Z with (- (64))%Z. rewrite bpow_opp, bpow_IZR by lia.
  apply Rle_refl.
Qed.

Lemma Rabs_bound (x y : R) : (Rabs x <= y)%R → (- y <= x <= y)%R.
Proof. unfold Rabs. destruct (Rcase_abs x); lra. Qed.

Lemma bernoulli (u : R) (n : nat) :
  (0 <= u <= 1)%R → (1 - INR n * u <= (1 - u) ^ n)%R.
Proof.
  intros Hu. induction n as [|n IH].
  - simpl. lra.
  - rewrite S_INR. simpl pow.
    assert (0 <= INR n)%R by apply pos_INR.
    assert ((1 - u) * (1 - INR n * u) <= (1 - u) * (1 - u) ^ n)%R
      by (apply Rmult_le_compat_l; lra).
    nra.
Qed.

Lemma pow_plus_minus (u : R) (n : nat) :
  (0 <= u <= 1)%R → ((1 + u) ^ n * (1 - u) ^ n <= 1)%R.
Proof.
  intros Hu. rewrite <- Rpow_mult_distr.
  replace ((1 + u) * (1 - u))%R with (1 - u * u)%R by lra.
  assert (0 <= 1 - u * u <= 1)%R as Hr by nra.
  induction n as [|n IH]; simpl; [lra|].
  assert (0 <= (1 - u * u) ^ n)%R by (apply pow_le; lra). nra.
Qed.

Lemma Rsum_to_R_nonneg (es : list float) :
  Forall in_unit es → (0 <= Rsum (to_R <$> es))%R.
Proof.
  induction 1 as [|e es He Hes IH].
  - unfold Rsum. simpl. lra.
  - rewrite fmap_cons, Rsum_cons.
    apply in_unit_spec in He as [He _]. apply to_R_nonneg in He. lra.
Qed.

(** The accumulation loop of [softmax]. *)
Lemma sum_loop (es : list float) (acc : float) :
  Forall in_unit es → nonneg_finite (Prim2SF acc) →
  ((1 + u64) ^ length es * (to_R acc + INR (length es)) < bpow 1023)%R →
  let s := foldl PrimFloat.add acc es in
  nonneg_finite (Prim2SF s) ∧
  (to_R acc <= to_R s)%R ∧
  Forall (λ e, to_R e <= to_R s)%R es ∧
  ((1 - u64) ^ length es * (to_R acc + Rsum (to_R <$> es)) <= to_R s
   <= (1 + u64) ^ length es * (to_R acc + Rsum (to_R <$> es)))%R.
Proof.
  assert (0 < u64 < 1)%R as Hu by (rewrite u64_value; lra).
  intros Hes. revert acc.
  induction Hes as [|e es He Hes IH]; intros acc Hacc Hbound; cbn zeta.
  - simpl. unfold Rsum. simpl. split_and!; [done|lra|done|lra|lra].
  - simpl foldl. simpl length in *. rewrite S_INR in Hbound.
    rewrite fmap_cons, Rsum_cons.
    pose proof (Rsum_to_R_nonneg es Hes) as Hsum.
    pose proof He as [He0 He1]%in_unit_spec.
    pose proof (to_R_nonneg e He0) as Hepos.
    pose proof (to_R_nonneg acc Hacc) as Haccpos.
    assert (0 <= INR (length es))%R as Hn by apply pos_INR.
    assert (1 <= (1 + u64) ^ length es)%R as HA by (apply pow_R1_Rle; lra).
    assert (0 <= (1 - u64) ^ length es)%R as HB by (apply pow_le; lra).
    simpl pow in Hbound.
    set (A := ((1 + u64) ^ length es)%R) in *.
    set (B := ((1 - u64) ^ length es)%R) in *.
    destruct (add_nonneg acc e Hacc He0) as (Hfin & Herr & Hle1 & Hle2).
    { assert (to_R acc + to_R e
              <= (1 + u64) * A * (to_R acc + (INR (length es) + 1)))%R;
        [|lra].
      assert (1 * (to_R acc + to_R e)
              <= (1 + u64) * A * (to_R acc + (INR (length es) + 1)))%R;
        [|lra].
      apply Rmult_le_compat; nra. }
    apply Rabs_bound in Herr. fold u64 in Herr.
    set (acc' := (acc + e)%float) in *.
    destruct (IH acc' Hfin) as (Hsfin & Hsacc & Hsall & Hslow & Hsup).
    { eapply Rle_lt_trans; [|exact Hbound]. fold A.
      replace ((1 + u64) * A * (to_R acc + (INR (length es) + 1)))%R
        with (A * ((1 + u64) * (to_R acc + (INR (length es) + 1))))%R by lra.
      apply Rmult_le_compat_l; [lra|]. nra. }
    fold A in Hsup. fold B in Hslow.
    split_and!.
    + done.
    + lra.
    + constructor; [lra|done].
    + simpl pow. fold B.
      eapply Rle_trans; [|exact Hslow].
      replace ((1 - u64) * B * (to_R acc + (to_R e + Rsum (to_R <$> es))))%R
        with (B * ((1 - u64) * (to_R acc + (to_R e + Rsum (to_R <$> es)))))%R
        by lra.
      apply Rmult_le_compat_l; [done|]. nra.
    + simpl pow. fold A.
      eapply Rle_trans; [exact Hsup|].
      replace ((1 + u64) * A * (to_R acc + (to_R e + Rsum (to_R <$> es))))%R
        with (A * ((1 + u64) * (to_R acc + (to_R e + Rsum (to_R <$> es)))))%R
        by lra.
      apply Rmult_le_compat_l; [lra|]. nra.
Qed.

(** The normalisation loop of [softmax]. *)
Lemma div_all (es : list float) (s : float) :
  nonneg_finite (Prim2SF s) → (0 < to_R s)%R →
  Forall in_unit es → Forall (λ e, to_R e <= to_R s)%R es →
  let ys := (λ e, e / s)%float <$> es in
  Forall in_unit ys ∧
  (Rabs (Rsum (to_R <$> ys) - Rsum (to_R <$> es) / to_R s)
   <= u64 * (Rsum (to_R <$> es) / to_R s) + INR (length es) * eta64)%R.
Proof.
  intros Hs Hspos Hes Hle. cbn zeta.
  induction Hes as [|e es He Hes IH].
  - simpl. unfold Rsum. simpl. split; [done|].
    replace (0 - 0 / to_R s)%R with 0%R by (field; lra).
    rewrite Rabs_R0. unfold Rdiv. lra.
  - apply Forall_cons in Hle as [Hle1 Hle].
    destruct (IH Hle) as [Hys Herr].
    pose proof He as [He0 _]%in_unit_spec.
    destruct (div_unit e s He0 Hs Hspos Hle1) as [Hy Hyerr].
    fold u64 eta64 in Hyerr.
    split; [by constructor|].
    rewrite !fmap_cons, !Rsum_cons. simpl length. rewrite S_INR.
    apply Rabs_bound in Herr. apply Rabs_bound in Hyerr. apply Rabs_le.
    replace ((to_R e + Rsum (to_R <$> es)) / to_R s)%R
      with (to_R e / to_R s + Rsum (to_R <$> es) / to_R s)%R
      by (field; lra).
    lra.
Qed.

(** The sum of the results is within [1e-6] of 1. *)
Lemma normalised_sum_bound (n : nat) (S s Y : R) :
  (INR n <= 4294967296)%R → (1 <= S)%R →
  ((1 - u64) ^ n * S <= s <= (1 + u64) ^ n * S)%R →
  (Rabs (Y - S / s) <= u64 * (S / s) + INR n * eta64)%R →
  (Rabs (Y - 1) <= / 1000000)%R.
Proof.
  intros Hn HS Hs HY.
  assert (0 <= INR n)%R as Hn0 by apply pos_INR.
  pose proof u64_value as Hu. pose proof eta64_bound as Heta.
  assert (0 <= u64 <= 1)%R as Hu01 by (rewrite Hu; lra).
  pose proof (bernoulli u64 n Hu01) as HB.
  pose proof (pow_plus_minus u64 n Hu01) as HAB.
  set (A := ((1 + u64) ^ n)%R) in *. set (B := ((1 - u64) ^ n)%R) in *.
  set (β := (1 - 4294967296 * u64)%R).
  assert (β <= B)%R as HβB by (unfold β; nra).
  assert (0 < β)%R as Hβ by (unfold β; rewrite Hu; lra).
  assert (1 <= A)%R as HA by (apply pow_R1_Rle; lra).
  assert (0 < s)%R as Hspos by nra.
  set (ρ := (S / s)%R) in *.
  assert (ρ * s = S)%R as Hρ by (unfold ρ; field; lra).
  assert (0 < ρ)%R as Hρpos by (apply Rdiv_lt_0_compat; lra).
  assert (β * ρ <= 1)%R as Hup.
  { assert (B * ρ <= 1)%R; [|nra].
    assert (B * ρ * s <= 1 * s)%R; [|nra]. nra. }
  assert (β <= ρ)%R as Hlow.
  { assert (1 <= A * ρ)%R as H1.
    { assert (1 * s <= A * ρ * s)%R; [|nra]. nra. }
    assert (B <= ρ)%R; [|lra].
    assert (B * 1 <= B * (A * ρ))%R by (apply Rmult_le_compat_l; lra).
    nra. }
  apply Rabs_bound in HY.
  assert (INR n * eta64 <= / 4294967296)%R as Hneta.
  { assert (INR n * eta64 <= 4294967296 * / 18446744073709551616)%R;
      [|lra]. apply Rmult_le_compat; lra. }
  apply Rabs_le. split.
  - assert (β * (1 - u64) <= ρ * (1 - u64))%R
      by (apply Rmult_le_compat_r; lra).
    unfold β in *. rewrite Hu in *. lra.
  - assert (ρ <= 1 + / 2000000)%R as Hρup; [|rewrite Hu in *; nra].
    assert (β * ρ <= β * (1 + / 2000000))%R; [|nra].
    unfold β in *. rewrite Hu in *. lra.
Qed.

Lemma Rsum_ge_elem (es : list float) (e : float) :
  Forall in_unit es → e ∈ es → (to_R e <= Rsum (to_R <$> es))%R.
Proof.
  induction 1 as [|e' es He' Hes IH]; intros Hin.
  - by apply elem_of_nil in Hin.
  - rewrite fmap_cons, Rsum_cons.
    pose proof (Rsum_to_R_nonneg es Hes).
    pose proof He' as [He0 _]%in_unit_spec. apply to_R_nonneg in He0.
    apply elem_of_cons in Hin as [->|Hin]; [lra|].
    specialize (IH Hin). lra.
Qed.

Lemma pow_1_plus_u64 (n : nat) :
  (INR n <= 4294967296)%R → ((1 + u64) ^ n <= 2)%R.
Proof.
  intros Hn. pose proof u64_value as Hu.
  assert (0 <= u64 <= 1)%R as Hu01 by (rewrite Hu; lra).
  pose proof (bernoulli u64 n Hu01) as HB.
  pose proof (pow_plus_minus u64 n Hu01) as HAB.
  assert (0 <= INR n)%R by apply pos_INR.
  assert (1 <= (1 + u64) ^ n)%R as HA by (apply pow_R1_Rle; lra).
  set (A := ((1 + u64) ^ n)%R) in *. set (B := ((1 - u64) ^ n)%R) in *.
  assert (/ 2 <= B)%R by (rewrite Hu in *; nra).
  nra.
Qed.

Lemma is_finite_not_nan (x : float) : is_finite x = true → is_nan x = false.
Proof. unfold is_finite. by destruct (is_nan x). Qed.

Section softmax_double.
Variables exp64 log64 : float → float.
Hypothesis exp64_range : ∀ a : float,
  (a <=? 0)%float = true → in_unit (exp64 a).
Hypothesis exp64_zero : ∀ a : float,
  (a =? 0)%float = true → exp64 a = 1%float.

Lemma maximum_double (z : list float) :
  z ≠ [] → Forall (λ v, is_finite v = true) z →
  ∃ m, maximum (H := double_numeric exp64 log64) z = Some m ∧ m ∈ z ∧
    ∀ x, x ∈ z → (m <? x)%float = false.
Proof.
  intros Hne Hfin.
  assert (ordered_entries (H := double_numeric exp64 log64) z) as Hord.
  { apply double_ordered_entries. eapply Forall_impl; [exact Hfin|].
    apply is_finite_not_nan. }
  destruct (max_element_first_max_on z Hne Hord) as (m & Hm & Hmax & _).
  exists m. rewrite <- max_element_maximum. split_and!; [done| |].
  - by eapply list_elem_of_lookup_2.
  - intros x [j Hj]%list_elem_of_lookup_1. by apply (Hmax j).
Qed.

Lemma to_R_one : to_R 1 = 1%R.
Proof. unfold to_R. rewrite Prim2SF_one. apply SF_one_value. Qed.

Lemma softmax_double (z : list float) :
  z ≠ [] → Forall (λ v, is_finite v = true) z →
  (Z.of_nat (length z) ≤ 2 ^ 32)%Z →
  ∃ y, softmax (H := double_numeric exp64 log64) z = Ok y ∧
    softmax_formula (H := double_numeric exp64 log64) z = Some y ∧
    length y = length z ∧ Forall in_unit y ∧
    (Rabs (Rsum (to_R <$> y) - 1) <= / 1000000)%R.
Proof.
  intros Hne Hfin Hlen.
  destruct (maximum_double z Hne Hfin) as (m & Hmax & Hm & Hle).
  assert (is_finite m = true) as Hmfin
    by (apply (proj1 (Forall_forall _ _) Hfin _ Hm)).
  set (e := λ v : float, exp64 (v - m)).
  set (es := e <$> z).
  assert (INR (length es) <= 4294967296)%R as Hn.
  { unfold es. rewrite length_fmap, INR_IZR_INZ.
    change 4294967296%R with (IZR (2 ^ 32)). by apply IZR_le. }
  assert (Forall in_unit es) as Hes.
  { unfold es. apply Forall_fmap, Forall_forall. intros v Hv. simpl.
    apply exp64_range, sub_le_zero; [|done|by apply Hle].
    apply (proj1 (Forall_forall _ _) Hfin _ Hv). }
  assert (1%float ∈ es) as Hone.
  { unfold es. apply list_elem_of_fmap. exists m. split; [|done].
    unfold e. symmetry. by apply exp64_zero, sub_diag_zero. }
  assert (1 <= Rsum (to_R <$> es))%R as HS.
  { rewrite <- to_R_one. by apply Rsum_ge_elem. }
  set (s := foldl PrimFloat.add 0%float es).
  destruct (sum_loop es 0%float Hes) as (Hsfin & _ & Hsall & Hsbounds);
    [done| |].
  { change (to_R 0) with 0%R. rewrite Rplus_0_l.
    pose proof (pow_1_plus_u64 _ Hn) as HA.
    assert (1 <= (1 + u64) ^ length es)%R
      by (apply pow_R1_Rle; rewrite u64_value; lra).
    assert (0 <= INR (length es))%R by apply pos_INR.
    eapply Rle_lt_trans; [|apply (bpow_lt 34 1023); lia].
    rewrite bpow_IZR by lia. change (IZR (2 ^ 34)) with 17179869184%R.
    nra. }
  fold s in Hsfin, Hsall, Hsbounds. change (to_R 0) with 0%R in Hsbounds.
  rewrite Rplus_0_l in Hsbounds.
  assert (1 <= to_R s)%R as Hs1.
  { rewrite <- to_R_one. by apply (proj1 (Forall_forall _ _) Hsall). }
  destruct (div_all es s Hsfin ltac:(lra) Hes Hsall) as [Hys Herr].
  set (y := (λ v : float, (v / s)%float) <$> es) in *.
  assert (softmax_formula (H := double_numeric exp64 log64) z = Some y)
    as Hformula.
  { unfold softmax_formula. rewrite Hmax. simpl. f_equal.
    unfold y, es. by rewrite <- list_fmap_compose. }
  exists y. split_and!.
  - by rewrite softmax_formula_eq, Hformula.
  - done.
  - unfold y, es. by rewrite !length_fmap.
  - done.
  - by apply (normalised_sum_bound (length es) (Rsum (to_R <$> es)) (to_R s)).
Qed.
End softmax_double.

(** [1 - a] for a double [a] below 0 is [+inf] or a double that is at
    least 1. *)
Lemma SFsub_one_negative (m : positive) (e : Z) :
  valid64 (S754_finite true m e) →
  let r := SFsub prec emax SF_one (S754_finite true m e) in
  r = S754_infinity false ∨
  (∃ mr er, r = S754_finite false mr er ∧ (1 <= SF2R r)%R).
Proof.
  intros Hv r. pose proof (valid_exponent _ _ _ Hv) as He.
  set (ez := Z.min (-52) e).
  assert (r = binary_round prec emax false
            ((shl_align 4503599627370496 (-52) ez).1 + (shl_align m e ez).1)
            ez) as Hr by done.
  assert (IZR (Z.pos ((shl_align 4503599627370496 (-52) ez).1
                      + (shl_align m e ez).1)) * bpow ez
          = 1 + SF2R (S754_finite false m e))%R as Hx.
  { rewrite <- SF_one_value. unfold SF_one.
    rewrite (SF2R_aligned 4503599627370496 (-52) ez),
      (SF2R_aligned m e ez) by (unfold ez; lia).
    rewrite Pos2Z.inj_add, plus_IZR. lra. }
  pose proof (SF2R_finite_gt0 m e) as Hpos.
  destruct (binary_round_spec
              ((shl_align 4503599627370496 (-52) ez).1 + (shl_align m e ez).1)
              ez) as [_ Hspec]; [unfold ez; lia|].
  rewrite <- Hr, Hx in Hspec.
  destruct Hspec as [?|(Hfin & _ & Hlow & _)]; [by left|right].
  assert (1 <= SF2R r)%R as H1.
  { rewrite <- SF_one_value. apply Hlow; [done|done|].
    rewrite SF_one_value. lra. }
  destruct r as [sr|[|]| |[|] mr er]; try done.
  - simpl in H1. lra.
  - by exists mr, er.
Qed.

Lemma exp_example_zero (a : float) :
  (a =? 0)%float = true → exp_example a = 1%float.
Proof.
  rewrite FloatAxioms.eqb_spec, Prim2SF_zero. intros Ha.
  unfold exp_example. apply Prim2SF_inj.
  rewrite div_spec, sub_spec.
  by destruct (Prim2SF a) as [[|]|[|]| |[|] m e].
Qed.

Lemma exp_example_range (a : float) :
  (a <=? 0)%float = true → in_unit (exp_example a).
Proof.
  rewrite leb_spec, Prim2SF_zero. intros Ha.
  apply in_unit_spec. unfold exp_example, to_R.
  rewrite div_spec, sub_spec, Prim2SF_one.
  pose proof (valid_Prim2SF a) as Hv.
  destruct (Prim2SF a) as [sa|[|]| |[|] m e]; try done.
  - assert (SF64div SF_one (SF64sub SF_one (S754_zero sa)) = SF_one)
      as -> by (by destruct sa).
    split; [done|]. rewrite SF_one_value. lra.
  - split; [done|]. simpl. lra.
  - unfold SF64sub.
    destruct (SFsub_one_negative m e Hv) as [->|(mr & er & -> & H1)].
    + split; [done|]. simpl. lra.
    + destruct (SFdiv_nonneg SF_one mr er) as (Hfin & Hle & _); try done.
      rewrite SF_one_value. done.
Qed.

(** ** Main results *)

Section results.
Context `{Numeric T}.
Implicit Types (net : NeuralNetwork T).

(** C1, as the code has it: the constructor validates nothing and never
    fails with an invalid-argument error.  With fewer than two entries it
    allocates nothing and returns a network with no layer, whatever the
    entries are.  With two or more entries, whenever it returns no entry
    is negative and the network has the shape of the architecture (an
    entry equal to zero is accepted and gives an empty matrix or empty
    rows); with a negative entry it fails, with [std::length_error] or,
    when the memory for an earlier vector is not there, with
    [std::bad_alloc].  When every request for memory is served it returns
    a network if no entry is negative and fails with [std::length_error]
    otherwise. *)
Theorem new_NeuralNetwork_outcome {G : Type} (dis : G → T * G)
    (memory : nat → bool) (architecture : list Z) (lr : T) (gen : G) :
  new_NeuralNetwork dis memory architecture lr gen ≠ Err InvalidArgument ∧
  (length architecture < 2 →
     new_NeuralNetwork dis memory architecture lr gen
       = Ok {| weights := []; biases := []; activations := [];
               z_values := []; learning_rate := lr |}) ∧
  (∀ net, new_NeuralNetwork dis memory architecture lr gen = Ok net →
     shape_ok (Z.to_nat <$> architecture) net ∧
     (2 ≤ length architecture → Forall (λ n, 0 ≤ n)%Z architecture)) ∧
  (2 ≤ length architecture → Exists (λ n, n < 0)%Z architecture →
     ∃ e, new_NeuralNetwork dis memory architecture lr gen = Err e ∧
       (e = LengthError ∨ e = BadAlloc)) ∧
  (2 ≤ length architecture → ample memory →
     (Forall (λ n, 0 ≤ n)%Z architecture →
        ∃ net, new_NeuralNetwork dis memory architecture lr gen = Ok net) ∧
     (Exists (λ n, n < 0)%Z architecture →
        new_NeuralNetwork dis memory architecture lr gen
          = Err LengthError)).
Proof.
  split_and!.
  - intros Hnew. by apply new_NeuralNetwork_Err in Hnew as [[?|?] _].
  - apply new_NeuralNetwork_few.
  - intros net Hnet.
    apply new_NeuralNetwork_shape in Hnet as (Hshape & _ & Hpos & _).
    by split.
  - intros Hlen Hneg.
    destruct (new_NeuralNetwork_negative dis memory architecture lr gen
                Hlen Hneg) as (e & Hnew & He & _).
    by exists e.
  - intros Hlen Hmem. split.
    + by apply new_NeuralNetwork_total.
    + intros Hneg.
      destruct (new_NeuralNetwork_negative dis memory architecture lr gen
                  Hlen Hneg) as (e & Hnew & _ & He).
      by rewrite Hnew, He.
Qed.

(** C4: on a well-dimensioned input the forward pass returns; its cache
    holds, for every layer in order, the pre-activation [z = W·x + b] (the
    dot product of every weight row with the activation of the layer
    before, or with the input, plus the bias entry) and the activation,
    ReLU of [z] on every layer but the last and softmax of [z] on the
    last, as [forward_math] computes them from the weights, the biases
    and the input alone; and its result is the last activation. *)
Theorem forward_propagation_spec (arch : list nat) net (input : Vector T) :
  valid_arch arch → shape_ok arch net → arch !! 0 = Some (length input) →
  ∃ net' output cache,
    forward_propagation net input = Ok (net', output) ∧
    forward_math (zip (weights net) (biases net)) input = Some cache ∧
    z_values net' = cache.*1 ∧ activations net' = cache.*2 ∧
    last (activations net') = Some output.
Proof.
  intros Hvalid Hshape Hin.
  destruct (forward_propagation_total arch net input Hvalid Hshape Hin)
    as (net' & output & cache & Hfw & Hspec & Hz & Ha & Hlast).
  exists net', output, cache. split_and!; try done.
  by apply forward_spec_math.
Qed.

(** C5: a backward pass that follows a forward pass on the same
    well-dimensioned sample returns, leaves the cache, the learning rate
    and the dimensions of the parameters as they are, and performs one
    gradient step: with [δ] the error signals of the layers, the last one
    is [output - target], every layer's weights and biases are those of
    [update_weights_spec] and [update_biases_spec], and the error signal
    of the layer below is [propagate_spec] through the updated weights. *)
Theorem backward_propagation_spec (arch : list nat) net
    (input target : Vector T) net1 (output : Vector T) :
  valid_arch arch → shape_ok arch net → arch !! 0 = Some (length input) →
  last arch = Some (length target) →
  forward_propagation net input = Ok (net1, output) →
  ∃ net2 (δ : list (Vector T)),
    backward_propagation net1 input target = Ok net2 ∧
    params_frame net1 net2 ∧
    length δ = length (weights net1) ∧
    last δ = Some (zip_with Tsub output target) ∧
    ∀ layer, layer < length (weights net1) →
      backward_relation net1 net2 input δ layer.
Proof.
  intros Hvalid Hshape Hin Htarget Hfw.
  destruct (backward_propagation_total arch net input target net1 output)
    as (net2 & δ & Hbw & Hrest); try done.
  exists net2, δ. split; [done|]. split; [|done].
  by eapply backward_propagation_frame.
Qed.

(** C7: the constructor establishes the shape invariant for its
    architecture, the forward pass, the backward pass, [train],
    [predict] and [evaluate] preserve it, and for the architecture
    [2, 3, 2] the constructor, when its requests for memory are served,
    returns weight matrices of 3 rows of 2 columns and of 2 rows of 3
    columns, and bias vectors of 3 and of 2 entries. *)
Theorem shape_invariant {G : Type} (dis : G → T * G) :
  (∀ memory architecture lr gen net,
     new_NeuralNetwork dis memory architecture lr gen = Ok net →
     shape_ok (Z.to_nat <$> architecture) net) ∧
  (∀ arch net input net' output,
     forward_propagation net input = Ok (net', output) →
     shape_ok arch net → shape_ok arch net') ∧
  (∀ arch net input target net',
     backward_propagation net input target = Ok net' →
     shape_ok arch net → shape_ok arch net') ∧
  (∀ arch net inputs labels epochs net' cout,
     train net inputs labels epochs = Ok (net', cout) →
     shape_ok arch net → shape_ok arch net') ∧
  (∀ arch net input net' k,
     predict net input = Ok (net', k) →
     shape_ok arch net → shape_ok arch net') ∧
  (∀ D (HD : Arith D) arch net inputs labels net' (accuracy : D),
     evaluate net inputs labels = Ok (net', accuracy) →
     shape_ok arch net → shape_ok arch net') ∧
  (∀ memory lr gen, ample memory → ∃ net W0 W1 b0 b1,
     new_NeuralNetwork dis memory [2; 3; 2]%Z lr gen = Ok net ∧
     weights net = [W0; W1] ∧ biases net = [b0; b1] ∧
     length W0 = 3 ∧ Forall (λ row, length row = 2) W0 ∧
     length W1 = 2 ∧ Forall (λ row, length row = 3) W1 ∧
     length b0 = 3 ∧ length b1 = 2).
Proof.
  split_and!.
  - intros memory architecture lr gen net Hnew.
    by apply new_NeuralNetwork_shape in Hnew as [? _].
  - intros *. apply forward_propagation_shape.
  - intros *. apply backward_propagation_shape.
  - intros *. apply train_shape.
  - intros *. apply predict_shape.
  - intros *. apply evaluate_shape.
  - intros memory lr gen Hmem.
    destruct (new_NeuralNetwork_total dis memory [2; 3; 2]%Z lr gen)
      as [net Hnet]; [done|by repeat constructor|].
    apply new_NeuralNetwork_shape in Hnet as Hshape.
    destruct Hshape as ((HlW & Hlb & Hshape) & _). simpl in *.
    destruct (Hshape 0 2 3) as (W0 & b0 & HW0 & Hb0 & ? & ? & ?); [done..|].
    destruct (Hshape 1 3 2) as (W1 & b1 & HW1 & Hb1 & ? & ? & ?); [done..|].
    exists net, W0, W1, b0, b1.
    destruct (weights net) as [|? [|? [|]]]; simpl in *; try lia.
    destruct (biases net) as [|? [|? [|]]]; simpl in *; try lia.
    injection HW0 as ->. injection HW1 as ->.
    injection Hb0 as ->. injection Hb1 as ->. by split_and!.
Qed.

(** C9: a forward pass that returns has changed nothing but the cache:
    the weights, the biases and the learning rate are those it started
    with. *)
Theorem forward_propagation_frame net (input : Vector T) net' output :
  forward_propagation net input = Ok (net', output) →
  weights net' = weights net ∧ biases net' = biases net ∧
  learning_rate net' = learning_rate net.
Proof.
  intros (HW & Hb & Hlr & _)%forward_propagation_inv. by split_and!.
Qed.

(** C10: after a forward pass that returns, whatever the cache held
    before, the cache has one pre-activation vector and one activation
    vector per weight matrix, each of the length of the matrix's row
    count. *)
Theorem forward_cache_well_formed net (input : Vector T) net' output :
  forward_propagation net input = Ok (net', output) →
  length (z_values net') = length (weights net') ∧
  length (activations net') = length (weights net') ∧
  ∀ i W, weights net' !! i = Some W →
    ∃ z a, z_values net' !! i = Some z ∧ activations net' !! i = Some a ∧
      length z = length W ∧ length a = length W.
Proof.
  intros (HW & _ & _ & Hlz & Hla & Hcache)%forward_propagation_inv.
  simpl in *. rewrite HW. split_and!; try done.
  intros i W HWi. apply Hcache; [by eapply lookup_lt_Some|done].
Qed.
End results.

Section results_training.
Context `{Numeric T}.
Implicit Types (net : NeuralNetwork T).

(** C2, as the code has it: [train] compares no lengths and throws no
    exception for a mismatch.  On well-dimensioned samples with at least
    as many targets as inputs it runs to the end, one printed line per
    epoch, and does exactly what it does on the targets cut to the number
    of inputs: the targets beyond the last input are silently ignored.
    With fewer targets than inputs and one epoch or more, it trains on
    the samples that have a target and then reads [labels[i]] past the
    end of the vector, which is undefined and no defined error. *)
Theorem train_checks_no_lengths (arch : list nat) net
    (inputs labels : list (Vector T)) (epochs : Z) :
  valid_arch arch → shape_ok arch net → inputs_ok arch inputs →
  targets_ok arch (take (length inputs) labels) →
  (length inputs ≤ length labels →
   ∃ net' cout,
     train net inputs labels epochs = Ok (net', cout) ∧
     train net inputs (take (length inputs) labels) epochs
       = Ok (net', cout) ∧
     length cout = Z.to_nat epochs) ∧
  (length labels < length inputs → (0 < epochs)%Z →
   train net inputs labels epochs = Err Undefined) ∧
  train net inputs labels epochs ≠ Err InvalidArgument.
Proof.
  intros Hvalid Hshape Hinputs Htargets.
  assert (length inputs ≤ length labels →
   ∃ net' cout,
     train net inputs labels epochs = Ok (net', cout) ∧
     train net inputs (take (length inputs) labels) epochs
       = Ok (net', cout) ∧
     length cout = Z.to_nat epochs) as Hmore.
  { intros Hlen.
    destruct (train_total arch net inputs labels epochs)
      as (net' & cout & Hrun & _ & Hcout); try done.
    exists net', cout. split_and!; try done.
    by rewrite <- train_truncate. }
  assert (length labels < length inputs → (0 < epochs)%Z →
   train net inputs labels epochs = Err Undefined) as Hfewer.
  { intros Hlen Hepochs. apply (train_short_labels arch); try done.
    by rewrite take_ge in Htargets by lia. }
  split_and!; [done..|].
  destruct (decide (length inputs ≤ length labels)) as [Hlen|Hlen].
  - by destruct Hmore as (net' & cout & -> & _).
  - destruct (decide (0 < epochs)%Z) as [Hepochs|Hepochs].
    + by rewrite Hfewer by lia.
    + unfold train. by replace (Z.to_nat epochs) with 0 by lia.
Qed.


(** On a well-dimensioned input [predict] runs the forward pass and
    returns an index below the output size; when [operator<] orders the
    entries of the output, the index is that of the first maximum of the
    output. *)
Lemma predict_first_max (arch : list nat) net (input : Vector T) :
  valid_arch arch → shape_ok arch net → arch !! 0 = Some (length input) →
  ∃ net' output k,
    forward_propagation net input = Ok (net', output) ∧
    predict net input = Ok (net', Z.of_nat k) ∧
    last arch = Some (length output) ∧
    (0 ≤ Z.of_nat k < Z.of_nat (length output))%Z ∧
    (ordered_entries output → is_first_max output k).
Proof.
  intros Hvalid Hshape Hin.
  destruct (predict_total arch net input Hvalid Hshape Hin)
    as (net' & output & Hfw & Hpredict & Hlast & Hne & Hlt).
  exists net', output, (max_element output).
  split_and!; try done; try lia.
  intros Horder. by apply max_element_first_max_on.
Qed.
End results_training.

(** C8: on a well-dimensioned input [predict] runs the forward pass and
    returns an index below the output size; when [operator<] orders the
    entries of the output, the index is that of the first maximum of the
    output: no entry is greater, and every entry before it is smaller.
    In [double] this is so whenever no entry of the output is a NaN. *)
Theorem predict_argmax :
  (∀ (T : Type) (H : Numeric T) (arch : list nat) (net : NeuralNetwork T)
     (input : Vector T),
     valid_arch arch → shape_ok arch net →
     arch !! 0 = Some (length input) →
     ∃ net' output k,
       forward_propagation net input = Ok (net', output) ∧
       predict net input = Ok (net', Z.of_nat k) ∧
       last arch = Some (length output) ∧
       (0 ≤ Z.of_nat k < Z.of_nat (length output))%Z ∧
       (ordered_entries output → is_first_max output k)) ∧
  (∀ (exp64 log64 : float → float) (arch : list nat)
     (net : NeuralNetwork float) (input : Vector float),
     valid_arch arch → shape_ok arch net →
     arch !! 0 = Some (length input) →
     ∃ net' output k,
       forward_propagation (H := double_numeric exp64 log64) net input
         = Ok (net', output) ∧
       predict (H := double_numeric exp64 log64) net input
         = Ok (net', Z.of_nat k) ∧
       last arch = Some (length output) ∧
       (0 ≤ Z.of_nat k < Z.of_nat (length output))%Z ∧
       (Forall (λ x, is_nan x = false) output →
        is_first_max (H := double_numeric exp64 log64) output k)).
Proof.
  split.
  - intros T H arch net input. apply predict_first_max.
  - intros exp64 log64 arch net input Hvalid Hshape Hin.
    destruct (predict_first_max (H := double_numeric exp64 log64)
                arch net input Hvalid Hshape Hin)
      as (net' & output & k & Hfw & Hpredict & Hlast & Hrange & Hmax).
    exists net', output, k.
    repeat (split; [assumption|]).
    intros Hnan. apply Hmax. by apply double_ordered_entries.
Qed.



(** ** The results on concrete data *)

(** Evaluation over the reals: the list structure is computed, the
    arithmetic is left as it is, and every comparison the control flow
    depends on is settled by linear arithmetic. *)
Ltac eval_real :=
  cbv -[Rplus Rminus Rmult Rdiv Rinv exp ln IZR INR Rlt_decision bool_decide].

Ltac decide_Rlt :=
  repeat (eval_real;
    match goal with
    | |- context [bool_decide (?a < ?b)%R] =>
        first [ rewrite (bool_decide_eq_true_2 (a < b)%R) by lra
              | rewrite (bool_decide_eq_false_2 (a < b)%R) by lra ]
    end).

(** The forward pass of [netR] on the input [(1, 0)] returns. *)
Lemma netR_forward :
  ∃ net' output, forward_propagation netR [1%R; 0%R] = Ok (net', output).
Proof. do 2 eexists. decide_Rlt. eval_real. reflexivity. Qed.

(** A single negative entry, and an entry equal to zero, are both
    accepted: the constructor returns a network. *)
Lemma constructor_accepts_invalid_architectures :
  new_NeuralNetwork demo_dis (λ _, true) [(-3)%Z] (/ 10)%R 0
    = Ok {| weights := []; biases := []; activations := []; z_values := [];
            learning_rate := (/ 10)%R |} ∧
  new_NeuralNetwork demo_dis (λ _, true) [2%Z; 0%Z] (/ 10)%R 0
    = Ok {| weights := [[]]; biases := [[]]; activations := [];
            z_values := []; learning_rate := (/ 10)%R |}.
Proof. split; reflexivity. Qed.

(** A negative entry behind two entries too large for the machine: the
    first request for memory is not served, and the constructor fails
    with [std::bad_alloc] before it reaches the negative entry. *)
Lemma constructor_out_of_memory :
  new_NeuralNetwork demo_dis (λ _, false)
    [2147483647; 2147483647; -1]%Z (/ 10)%R 0 = Err BadAlloc.
Proof. reflexivity. Qed.

Lemma new_NeuralNetwork_outcome_witness :
  new_NeuralNetwork demo_dis (λ _, true) [2%Z; (-1)%Z] (/ 10)%R 0
    = Err LengthError.
Proof.
  apply (new_NeuralNetwork_outcome demo_dis (λ _, true)
           [2%Z; (-1)%Z] (/ 10)%R 0).
  - simpl. lia.
  - by intros k.
  - apply Exists_cons_tl, Exists_cons_hd. lia.
Defined.

(** One input and two targets: [train] returns normally. *)
Lemma train_accepts_mismatched_lengths :
  ∃ net' cout,
    train netR [[1%R; 0%R]] [[1%R; 0%R]; [0%R; 1%R]] 2 = Ok (net', cout) ∧
    length [[1%R; 0%R]] ≠ length [[1%R; 0%R]; [0%R; 1%R]].
Proof.
  destruct (train_total [2; 3; 2] netR [[1%R; 0%R]]
              [[1%R; 0%R]; [0%R; 1%R]] 2)
    as (net' & cout & Hrun & _).
  - apply valid_arch_232.
  - apply netR_shape.
  - by repeat constructor.
  - by repeat constructor.
  - simpl. lia.
  - exists net', cout. split; [done|]. simpl. lia.
Qed.

Lemma train_checks_no_lengths_witness :
  train netR [[1%R; 0%R]; [0%R; 1%R]] [[0%R; 1%R]] 2 = Err Undefined.
Proof.
  apply (train_checks_no_lengths [2; 3; 2] netR
           [[1%R; 0%R]; [0%R; 1%R]] [[0%R; 1%R]] 2).
  - apply valid_arch_232.
  - apply netR_shape.
  - by repeat constructor.
  - by repeat constructor.
  - simpl. lia.
  - lia.
Defined.



Lemma forward_propagation_spec_witness :
  ∃ net' output cache,
    forward_propagation netR [1%R; 0%R] = Ok (net', output) ∧
    forward_math (zip (weights netR) (biases netR)) [1%R; 0%R]
      = Some cache ∧
    z_values net' = cache.*1 ∧ activations net' = cache.*2 ∧
    last (activations net') = Some output.
Proof.
  apply (forward_propagation_spec [2; 3; 2] netR [1%R; 0%R]).
  - apply valid_arch_232.
  - apply netR_shape.
  - reflexivity.
Defined.

Lemma backward_propagation_spec_witness :
  ∃ net1 output net2 (δ : list (list R)),
    forward_propagation netR [1%R; 0%R] = Ok (net1, output) ∧
    backward_propagation net1 [1%R; 0%R] [0%R; 1%R] = Ok net2 ∧
    params_frame net1 net2 ∧
    length δ = length (weights net1) ∧
    last δ = Some (zip_with Tsub output [0%R; 1%R]) ∧
    ∀ layer, layer < length (weights net1) →
      backward_relation net1 net2 [1%R; 0%R] δ layer.
Proof.
  destruct netR_forward as (net1 & output & Hfw).
  exists net1, output.
  destruct (backward_propagation_spec [2; 3; 2] netR [1%R; 0%R]
              [0%R; 1%R] net1 output) as (net2 & δ & Hbw).
  - apply valid_arch_232.
  - apply netR_shape.
  - reflexivity.
  - reflexivity.
  - exact Hfw.
  - exists net2, δ. split; [exact Hfw | exact Hbw].
Defined.


Lemma shape_invariant_witness :
  ∃ net W0 W1 b0 b1,
    new_NeuralNetwork demo_dis (λ _, true) [2; 3; 2]%Z (/ 10)%R 0 = Ok net ∧
    weights net = [W0; W1] ∧ biases net = [b0; b1] ∧
    length W0 = 3 ∧ Forall (λ row, length row = 2) W0 ∧
    length W1 = 2 ∧ Forall (λ row, length row = 3) W1 ∧
    length b0 = 3 ∧ length b1 = 2.
Proof.
  apply (proj2 (proj2 (proj2 (proj2 (proj2 (proj2
           (shape_invariant demo_dis)))))) (λ _, true)).
  by intros k.
Defined.

Lemma predict_argmax_witness :
  ∃ net' output k,
    forward_propagation (H := double_example) netD [1; 0]%float
      = Ok (net', output) ∧
    predict (H := double_example) netD [1; 0]%float
      = Ok (net', Z.of_nat k) ∧
    last [2; 3; 2] = Some (length output) ∧
    (0 ≤ Z.of_nat k < Z.of_nat (length output))%Z ∧
    Forall (λ x, is_nan x = false) output ∧
    is_first_max (H := double_example) output k.
Proof.
  destruct (proj2 predict_argmax exp_example log_example
              [2; 3; 2] netD [1; 0]%float)
    as (net' & output & k & Hfw & Hpredict & Hlast & Hrange & Hmax).
  - apply valid_arch_232.
  - apply netD_shape.
  - reflexivity.
  - exists net', output, k.
    assert (Forall (λ x, is_nan x = false) output) as Hnan.
    { vm_compute in Hfw. injection Hfw as _ <-. by repeat constructor. }
    repeat (split; [assumption|]).
    by apply Hmax.
Defined.

Lemma forward_propagation_frame_witness :
  ∃ net' output,
    forward_propagation netR [1%R; 0%R] = Ok (net', output) ∧
    weights net' = weights netR ∧ biases net' = biases netR ∧
    learning_rate net' = learning_rate netR.
Proof.
  destruct netR_forward as (net' & output & Hfw).
  exists net', output. split; [exact Hfw|].
  exact (forward_propagation_frame netR [1%R; 0%R] net' output Hfw).
Defined.

Lemma forward_cache_well_formed_witness :
  ∃ net' output,
    forward_propagation netR [1%R; 0%R] = Ok (net', output) ∧
    length (z_values net') = length (weights net') ∧
    length (activations net') = length (weights net') ∧
    ∀ i W, weights net' !! i = Some W →
      ∃ z a, z_values net' !! i = Some z ∧ activations net' !! i = Some a ∧
        length z = length W ∧ length a = length W.
Proof.
  destruct netR_forward as (net' & output & Hfw).
  exists net', output. split; [exact Hfw|].
  exact (forward_cache_well_formed netR [1%R; 0%R] net' output Hfw).
Defined.

(** * Further properties of include/network.h *)

Section network_facts.
Context `{Numeric T}.
Implicit Types (net : NeuralNetwork T).

Lemma forward_spec_last (layers : list (Matrix T * Vector T)) (x : Vector T)
    cache :
  forward_spec layers x = Ok cache → layers ≠ [] →
  ∃ W b x' a, last layers = Some (W, b) ∧
    last cache = Some (affine W b x', a) ∧ softmax (affine W b x') = Ok a.
Proof.
  revert x cache. induction layers as [|[W b] rest IH]; intros x cache;
    [done|].
  intros Hspec _. simpl in Hspec.
  apply bind_Ok in Hspec as (a & Ha & Hspec).
  apply bind_Ok in Hspec as (cache' & Hrest & Hspec).
  injection Hspec as <-.
  destruct rest as [|l rest].
  - simpl in Hrest. injection Hrest as <-. by exists W, b, x, a.
  - destruct (IH a cache' Hrest) as (W' & b' & x' & a' & Hlast & Hc & Hs);
      [done|].
    exists W', b', x', a'. split_and!; try done.
    destruct cache' as [|c cache']; [done|]. done.
Qed.

(** X3 (predict): the prediction is a function of the parameters, not of
    the cache, and asking again on the returned object gives the same
    class and the same object. *)
Theorem predict_repeatable net net' (input : Vector T) (k : Z) :
  predict net input = Ok (net', k) →
  predict net' input = Ok (net', k) ∧
  ∀ net2, weights net2 = weights net → biases net2 = biases net →
    learning_rate net2 = learning_rate net →
    predict net2 input = Ok (net', k).
Proof.
  intros Hpredict.
  assert (∀ net2, weights net2 = weights net → biases net2 = biases net →
    learning_rate net2 = learning_rate net →
    predict net2 input = Ok (net', k)) as Hany.
  { intros net2 HW Hb Hlr. unfold predict in *.
    by rewrite (forward_propagation_cache net net2 input). }
  split; [|done]. unfold predict in Hpredict.
  apply bind_Ok in Hpredict as ([net1 output] & Hfw & Heq).
  injection Heq as <- <-.
  apply forward_propagation_inv in Hfw as (HW & Hb & Hlr & _).
  by apply Hany.
Qed.

(** X4 (evaluate): an evaluation that returns has changed no weight, no
    bias and not the learning rate. *)
Theorem evaluate_keeps_parameters `{Arith D} net
    (inputs : list (Vector T)) (labels : list Z) net' (accuracy : D) :
  evaluate net inputs labels = Ok (net', accuracy) →
  weights net' = weights net ∧ biases net' = biases net ∧
  learning_rate net' = learning_rate net.
Proof.
  unfold evaluate. intros Hrun.
  apply bind_Ok in Hrun as ([net1 correct] & Hloop & Hrun).
  injection Hrun as <- _. revert Hloop.
  apply (for_loop_inv (λ _ (st : NeuralNetwork T * Z),
    weights st.1 = weights net ∧ biases st.1 = biases net ∧
    learning_rate st.1 = learning_rate net)); [done|].
  intros i [t c] [t' c'] _ (HW & Hb & Hlr) Hbody. simpl in *.
  unfold evaluate_sample in Hbody.
  apply bind_Ok in Hbody as (input & _ & Hbody).
  apply bind_Ok in Hbody as ([t1 predicted] & Hpredict & Hbody).
  apply bind_Ok in Hbody as (label & _ & Hbody).
  injection Hbody as <- _. unfold predict in Hpredict.
  apply bind_Ok in Hpredict as ([t2 output] & Hfw & Heq).
  injection Heq as <- _.
  apply forward_propagation_inv in Hfw as (HW' & Hb' & Hlr' & _).
  simpl in *. split_and!; congruence.
Qed.

(** X5 (train): training never changes the learning rate. *)
Theorem train_keeps_learning_rate net (inputs labels : list (Vector T))
    (epochs : Z) net' cout :
  train net inputs labels epochs = Ok (net', cout) →
  learning_rate net' = learning_rate net.
Proof.
  unfold train.
  apply (for_loop_inv (λ _ (st : NeuralNetwork T * list (Z * T)),
                         learning_rate st.1 = learning_rate net)); [done|].
  intros epoch [t c] [t' c'] _ Ht Hbody. simpl in *.
  unfold train_epoch in Hbody.
  apply bind_Ok in Hbody as ([t1 loss] & Hloop & Hbody).
  injection Hbody as <- _. revert Hloop.
  apply (for_loop_inv (λ _ (st : NeuralNetwork T * T),
                         learning_rate st.1 = learning_rate net)); [done|].
  intros i [u l] [u' l'] _ Hu Hsample. simpl in *.
  unfold train_sample in Hsample.
  apply bind_Ok in Hsample as (input & _ & Hsample).
  apply bind_Ok in Hsample as ([u1 output] & Hfw & Hsample).
  apply bind_Ok in Hsample as (label & _ & Hsample).
  apply bind_Ok in Hsample as (u2 & Hbw & Hsample).
  apply bind_Ok in Hsample as (loss2 & _ & Hsample).
  injection Hsample as <- _.
  apply forward_propagation_inv in Hfw as (_ & _ & Hlr1 & _).
  apply backward_propagation_frame in Hbw as (_ & _ & _ & _ & Hlr2).
  simpl in *. congruence.
Qed.

(** X6 (train): whenever training returns it has printed one line per
    epoch, numbered from 1 in order; with [epochs <= 0] it prints nothing
    and returns the object as it was. *)
Theorem train_prints_each_epoch net (inputs labels : list (Vector T))
    (epochs : Z) :
  (∀ net' cout, train net inputs labels epochs = Ok (net', cout) →
     cout.*1 = (λ e, (Z.of_nat e + 1)%Z) <$> seq 0 (Z.to_nat epochs)) ∧
  ((epochs ≤ 0)%Z → train net inputs labels epochs = Ok (net, [])).
Proof.
  split.
  - intros net' cout. unfold train.
    intros Hinv%(for_loop_inv (λ e (st : NeuralNetwork T * list (Z * T)),
      st.2.*1 = (λ e, (Z.of_nat e + 1)%Z) <$> seq 0 e)); [done|done|].
    intros e [t c] [t' c'] _ Hc Hbody. cbn [fst snd] in *.
    unfold train_epoch in Hbody.
    apply bind_Ok in Hbody as ([t1 loss] & _ & Hbody).
    injection Hbody as _ <-.
    rewrite fmap_app, Hc, seq_S, fmap_app. done.
  - intros Hle. unfold train. by replace (Z.to_nat epochs) with 0 by lia.
Qed.

(** X7 (train): with no sample at all every epoch leaves the object as it
    is and prints the quotient of a zero loss by a zero count. *)
Theorem train_no_samples net (labels : list (Vector T)) (epochs : Z) :
  train net [] labels epochs
    = Ok (net, (λ e, ((Z.of_nat e + 1)%Z, Tdiv T0 (Tsize 0)))
                 <$> seq 0 (Z.to_nat epochs)).
Proof.
  unfold train.
  destruct (for_loop_total
    (λ e (st : NeuralNetwork T * list (Z * T)),
       st = (net, (λ e, ((Z.of_nat e + 1)%Z, Tdiv T0 (Tsize 0)))
                    <$> seq 0 e))
    (Z.to_nat epochs) 0 (train_epoch [] labels) (net, []))
    as (st & -> & ->); [done| |done].
  intros e st _ ->. eexists. split; [reflexivity|].
  by rewrite seq_S, fmap_app.
Qed.
End network_facts.

Section network_errors.
Context `{Numeric T}.
Implicit Types (net : NeuralNetwork T).

(** X2 (forward_propagation): an input whose size is not that of the
    input layer is refused by the first dot product, with the
    invalid-argument exception of [dot_product], provided the first layer
    has a neuron; [predict] passes the exception on. *)
Theorem forward_propagation_wrong_input_size (arch : list nat) net
    (input : Vector T) (n_in n_1 : nat) :
  shape_ok arch net → arch !! 0 = Some n_in → arch !! 1 = Some n_1 →
  0 < n_1 → length input ≠ n_in →
  forward_propagation net input = Err InvalidArgument ∧
  predict net input = Err InvalidArgument.
Proof.
  intros (HlW & _ & Hshape) Hin H1 Hpos Hsize.
  destruct (Hshape 0 n_in n_1 Hin H1) as (W & b & HW & Hb & HlenW & Hrows & _).
  assert (forward_propagation net input = Err InvalidArgument) as Hfw.
  { destruct W as [|row W]; [simpl in HlenW; lia|].
    apply Forall_cons in Hrows as [Hrow _].
    assert (∀ z, forward_z (set_z_values (set_activations net []) []) 0
                   input 0 z = Err InvalidArgument) as Hz.
    { intros z. unfold forward_z, at_index. simpl. rewrite HW. simpl.
      unfold dot_product. destruct (decide _) as [_|Heq]; [done|].
      exfalso. apply Hsize. apply dec_stable in Heq. congruence. }
    unfold forward_propagation. simpl.
    destruct (weights net) as [|W0 Ws] eqn:Hweights; [done|].
    simpl in HW. injection HW as ->. simpl.
    unfold forward_layer at 1. simpl. rewrite ?Hweights. simpl.
    by rewrite Hz. }
  split; [done|]. unfold predict. by rewrite Hfw.
Qed.

End network_errors.

(** ** The result of the forward pass in [double] *)

(** X1 (forward_propagation): in [double], for an exponential that maps
    the doubles that are not above 0 into [[0, 1]] and 0 to 1, the
    forward pass on a well-dimensioned input returns as many entries as
    the output layer has neurons; when the pre-activation of the last
    layer is finite and the layer has at most [2^32] neurons, every
    entry is a double in [[0, 1]] and the real sum of the entries is
    within [1e-6] of 1. *)
Theorem forward_output_distribution (exp64 log64 : float → float)
    (arch : list nat) (net : NeuralNetwork float) (input : list float) :
  (∀ a : float, (a <=? 0)%float = true → in_unit (exp64 a)) →
  (∀ a : float, (a =? 0)%float = true → exp64 a = 1%float) →
  valid_arch arch → shape_ok arch net → arch !! 0 = Some (length input) →
  (∀ n, last arch = Some n → (Z.of_nat n ≤ 2 ^ 32)%Z) →
  ∃ net' output z,
    forward_propagation (H := double_numeric exp64 log64) net input
      = Ok (net', output) ∧
    last (z_values net') = Some z ∧
    last arch = Some (length output) ∧
    (Forall (λ v, is_finite v = true) z →
     Forall in_unit output ∧
     (Rabs (Rsum (to_R <$> output) - 1) <= / 1000000)%R).
Proof.
  intros Hrange Hzero Hvalid Hshape Hin Hsize.
  destruct (forward_propagation_total (H := double_numeric exp64 log64)
              arch net input Hvalid Hshape Hin)
    as (net' & output & cache & Hfw & Hspec & Hz & Hact & Hlast).
  destruct (forward_cache_shape (H := double_numeric exp64 log64)
              arch net input net' output)
    as (_ & _ & _ & _ & _ & Hlast_arch & _); try done.
  destruct (forward_spec_last (H := double_numeric exp64 log64) _ _ _ Hspec)
    as (W & b & x' & a & _ & Hc & Hsoft).
  { destruct Hshape as (HlW & Hlb & _). destruct Hvalid as [Hlen _].
    intros Hnil%(f_equal length). rewrite length_zip in Hnil.
    simpl in Hnil. lia. }
  rewrite Hact, fmap_last, Hc in Hlast. simpl in Hlast.
  injection Hlast as <-.
  match type of Hsoft with softmax ?v = _ => set (z := v) in * end.
  exists net', a, z. split_and!; try done.
  - by rewrite Hz, fmap_last, Hc.
  - intros Hfin.
    assert (z ≠ []) as Hne by (intros Hnil; rewrite Hnil in Hsoft; done).
    destruct (softmax_double exp64 log64 Hrange Hzero z Hne Hfin)
      as (y & Hs & _ & Hl & Hu & Hsum).
    { apply Hsize. rewrite Hlast_arch. f_equal.
      by apply (softmax_length (H := double_numeric exp64 log64)) in Hsoft. }
    rewrite Hsoft in Hs. injection Hs as <-. done.
Qed.

(** ** The forward and backward passes in exact real arithmetic *)

Section network_real_steps.
Implicit Types (net : NeuralNetwork R).

Lemma dot_sum_zero_row (row x : list R) :
  Forall (λ w, w = 0%R) row → dot_sum row x = 0%R.
Proof.
  unfold dot_sum. change T0 with 0%R. generalize 0%R at 2 3 as acc.
  revert x. induction row as [|w row IH]; intros x acc Hrow; [done|].
  apply Forall_cons in Hrow as [-> Hrow].
  destruct x as [|y x]; [done|]. simpl.
  replace (acc + 0 * y)%R with acc by lra. by apply IH.
Qed.

Lemma affine_zero (W : list (list R)) (b x : list R) :
  Forall (Forall (λ w, w = 0%R)) W → Forall (λ v, v = 0%R) b →
  length b = length W →
  affine W b x = replicate (length W) 0%R.
Proof.
  revert b. induction W as [|row W IH]; intros b HW Hb Hlen.
  - by destruct b.
  - destruct b as [|v b]; [done|].
    apply Forall_cons in HW as [Hrow HW]. apply Forall_cons in Hb as [-> Hb].
    simpl. rewrite dot_sum_zero_row by done. f_equal; [lra|].
    apply IH; [done..|]. simpl in Hlen. lia.
Qed.

Lemma Rsum_replicate (n : nat) (v : R) :
  Rsum (replicate n v) = (INR n * v)%R.
Proof.
  induction n as [|n IH].
  - unfold Rsum. simpl. lra.
  - rewrite S_INR. simpl replicate. rewrite Rsum_cons, IH. lra.
Qed.

Lemma softmax_math_zero (n : nat) :
  softmax_math (replicate n 0%R) = replicate n (/ INR n)%R.
Proof.
  unfold softmax_math. rewrite !fmap_replicate, Rsum_replicate, exp_0.
  f_equal. unfold Rdiv. rewrite Rmult_1_r. lra.
Qed.

(** X10 (forward_propagation): in exact real arithmetic, when every weight
    and every bias of the last layer is 0 the result is the uniform
    distribution, [1 / output_size] in every entry, whatever the input and
    the other layers are. *)
Theorem forward_zero_last_layer_uniform (arch : list nat) net
    (input : list R) (W : list (list R)) (b : list R) :
  valid_arch arch → shape_ok arch net → arch !! 0 = Some (length input) →
  last (weights net) = Some W → last (biases net) = Some b →
  Forall (Forall (λ w, w = 0%R)) W → Forall (λ v, v = 0%R) b →
  ∃ net' output,
    forward_propagation net input = Ok (net', output) ∧
    last arch = Some (length output) ∧
    output = replicate (length output) (/ INR (length output))%R.
Proof.
  intros Hvalid Hshape Hin HW Hb HW0 Hb0.
  destruct (forward_propagation_total arch net input Hvalid Hshape Hin)
    as (net' & output & cache & Hfw & Hspec & _ & Hact & Hlast).
  destruct (forward_cache_shape arch net input net' output)
    as (_ & _ & _ & _ & _ & Hlast_arch & _); try done.
  exists net', output. split_and!; try done.
  pose proof Hshape as (HlW & Hlb & Hlayers). destruct Hvalid as [Hlen _].
  destruct (forward_spec_last _ _ _ Hspec)
    as (W' & b' & x' & a & Hlayer & Hc & Hsoft).
  { intros Hnil%(f_equal length). rewrite length_zip in Hnil.
    simpl in Hnil. lia. }
  rewrite Hact, fmap_last, Hc in Hlast. simpl in Hlast.
  injection Hlast as <-.
  rewrite last_lookup, lookup_zip_with, length_zip in Hlayer.
  rewrite last_lookup in HW. rewrite last_lookup in Hb.
  replace (Init.Nat.pred (length (weights net) `min` length (biases net)))
    with (Init.Nat.pred (length (weights net))) in Hlayer by lia.
  rewrite HW in Hlayer. simpl in Hlayer.
  replace (Init.Nat.pred (length (weights net)))
    with (Init.Nat.pred (length (biases net))) in Hlayer by lia.
  rewrite Hb in Hlayer. simpl in Hlayer. injection Hlayer as <- <-.
  assert (length b = length W) as Hlenb.
  { destruct (shape_ok_layer arch net (length arch - 2) Hshape)
      as (n_in & n_out & W2 & b2 & _ & _ & HW2 & Hb2 & ? & _ & ?); [lia|].
    replace (Init.Nat.pred (length (weights net)))
      with (length arch - 2) in HW by lia.
    replace (Init.Nat.pred (length (biases net)))
      with (length arch - 2) in Hb by lia.
    congruence. }
  rewrite affine_zero in Hsoft by done.
  assert (replicate (length W) 0%R ≠ []) as Hne
    by (intros Hnil; rewrite Hnil in Hsoft; done).
  rewrite softmax_real_math in Hsoft by done. injection Hsoft as <-.
  rewrite softmax_math_zero. by rewrite length_replicate.
Qed.

Lemma zip_with_id_l {A B} (f : A → B → A) (l : list A) (k : list B) :
  length l ≤ length k →
  (∀ i x y, l !! i = Some x → k !! i = Some y → f x y = x) →
  zip_with f l k = l.
Proof.
  revert k. induction l as [|x l IH]; intros k Hlen Hf; [done|].
  destruct k as [|y k]; [simpl in Hlen; lia|]. simpl. f_equal.
  - by apply (Hf 0).
  - apply IH; [simpl in Hlen; lia|].
    intros i x' y' Hx' Hy'. by apply (Hf (S i)).
Qed.

(** X11 (backward_propagation): in exact real arithmetic, with a learning
    rate of 0 the backward pass that follows a forward pass on a
    well-dimensioned sample changes no weight and no bias. *)
Theorem backward_zero_learning_rate (arch : list nat) net
    (input target : list R) net1 (output : list R) :
  valid_arch arch → shape_ok arch net → arch !! 0 = Some (length input) →
  last arch = Some (length target) →
  forward_propagation net input = Ok (net1, output) →
  learning_rate net = 0%R →
  ∃ net2, backward_propagation net1 input target = Ok net2 ∧
    weights net2 = weights net1 ∧ biases net2 = biases net1.
Proof.
  intros Hvalid Hshape Hin Htarget Hfw Hlr.
  destruct (backward_propagation_total arch net input target net1 output)
    as (net2 & δ & Hbw & Hlδ & _ & Hrel); try done.
  pose proof (backward_propagation_frame _ _ _ _ Hbw)
    as (HdimW & Hdimb & _).
  destruct (forward_cache_shape arch net input net1 output)
    as ((HL & HLb & _) & _ & _ & Hlr1 & _); try done.
  rewrite Hlr in Hlr1.
  exists net2. split; [done|].
  assert (length (weights net2) = length (weights net1)) as HlenW.
  { apply (f_equal length) in HdimW. unfold weight_dims in HdimW.
    by rewrite !length_fmap in HdimW. }
  assert (length (biases net2) = length (biases net1)) as Hlenb.
  { apply (f_equal length) in Hdimb. unfold bias_dims in Hdimb.
    by rewrite !length_fmap in Hdimb. }
  split; apply list_eq; intros layer.
  - destruct (decide (layer < length (weights net1))) as [Hlt|Hge];
      [|by rewrite !lookup_ge_None_2 by lia].
    destruct (Hrel layer Hlt)
      as (W & b & d & prev & HW & Hb & Hd & _ & HW' & Hb' & _).
    rewrite HW', HW. f_equal. rewrite Hlr1.
    apply (f_equal (.!! layer)) in HdimW. unfold weight_dims in HdimW.
    rewrite !list_lookup_fmap, HW', HW, Hlr1 in HdimW. simpl in HdimW.
    injection HdimW as HdimW.
    assert (length (update_weights_spec 0%R d prev W) = length W) as HlW.
    { apply (f_equal length) in HdimW. by rewrite !length_fmap in HdimW. }
    unfold update_weights_spec in *. rewrite length_zip_with in HlW.
    apply zip_with_id_l; [lia|]. intros i row d_i Hrow Hd_i.
    apply (f_equal (.!! i)) in HdimW.
    rewrite !list_lookup_fmap, lookup_zip_with, Hrow in HdimW.
    simpl in HdimW. rewrite Hd_i in HdimW. simpl in HdimW.
    injection HdimW as HdimW. unfold update_row_spec in *.
    rewrite length_zip_with in HdimW.
    apply zip_with_id_l; [lia|]. intros j w x _ _. simpl. lra.
  - destruct (decide (layer < length (weights net1))) as [Hlt|Hge];
      [|by rewrite !lookup_ge_None_2 by lia].
    destruct (Hrel layer Hlt)
      as (W & b & d & prev & HW & Hb & Hd & _ & HW' & Hb' & _).
    rewrite Hb', Hb. f_equal. rewrite Hlr1.
    apply (f_equal (.!! layer)) in Hdimb. unfold bias_dims in Hdimb.
    rewrite !list_lookup_fmap, Hb', Hb, Hlr1 in Hdimb. simpl in Hdimb.
    injection Hdimb as Hdimb. unfold update_biases_spec in *.
    rewrite length_zip_with in Hdimb.
    apply zip_with_id_l; [lia|]. intros i b_i d_i _ _. simpl. lra.
Qed.
End network_real_steps.

Section network_real_features.
Implicit Types (net : NeuralNetwork R).

(** X12 (backward_propagation): in exact real arithmetic, a weight of
    the first layer whose input feature is 0 in the sample is left as it is
    by the backward pass. *)
Theorem backward_zero_feature_keeps_weight (arch : list nat) net
    (input target : list R) net1 (output : list R) (j : nat) :
  valid_arch arch → shape_ok arch net → arch !! 0 = Some (length input) →
  last arch = Some (length target) →
  forward_propagation net input = Ok (net1, output) →
  input !! j = Some 0%R →
  ∃ net2 W W', backward_propagation net1 input target = Ok net2 ∧
    weights net1 !! 0 = Some W ∧ weights net2 !! 0 = Some W' ∧
    length W' = length W ∧
    ∀ i row row', W !! i = Some row → W' !! i = Some row' →
      row' !! j = row !! j.
Proof.
  intros Hvalid Hshape Hin Htarget Hfw Hj.
  destruct (backward_propagation_total arch net input target net1 output)
    as (net2 & δ & Hbw & Hlδ & _ & Hrel); try done.
  pose proof (backward_propagation_frame _ _ _ _ Hbw) as (HdimW & _).
  destruct (forward_cache_shape arch net input net1 output)
    as ((HL & _ & _) & _); try done.
  destruct (Hrel 0) as (W & b & d & prev & HW & _ & _ & Hprev & HW' & _).
  { destruct Hvalid. lia. }
  unfold prev_activation in Hprev. simpl in Hprev. injection Hprev as <-.
  exists net2, W, (update_weights_spec (learning_rate net1) d input W).
  split_and!; try done.
  - apply (f_equal (.!! 0)) in HdimW. unfold weight_dims in HdimW.
    rewrite !list_lookup_fmap, HW', HW in HdimW. simpl in HdimW.
    injection HdimW as HdimW. apply (f_equal length) in HdimW.
    by rewrite !length_fmap in HdimW.
  - intros i row row' Hrow Hrow'. unfold update_weights_spec in Hrow'.
    rewrite lookup_zip_with, Hrow in Hrow'. simpl in Hrow'.
    destruct (d !! i) as [d_i|]; [|done]. simpl in Hrow'.
    injection Hrow' as <-. unfold update_row_spec.
    rewrite lookup_zip_with. destruct (row !! j) as [w|]; [|done].
    simpl. rewrite Hj. simpl. f_equal. lra.
Qed.
End network_real_features.

(** * The rest of include/common.h *)

Section byte_order.
Local Open Scope Z_scope.

Lemma to_big_endian_4_bits (v : Z) :
  to_big_endian 4 v
  = Z.lor (Z.lor (Z.lor (Z.land (Z.shiftr v 24) (Z.ones 8))
                        (Z.shiftl (Z.land (Z.shiftr v 8) (Z.ones 8)) 16))
                 (Z.shiftl (Z.land (Z.shiftr v 16) (Z.ones 8)) 8))
          (Z.shiftl (Z.land v (Z.ones 8)) 24).
Proof.
  unfold to_big_endian, wrap. simpl.
  change 0xff with (Z.ones 8).
  change 0xff0000 with (Z.shiftl (Z.ones 8) 16).
  change 0xff00 with (Z.shiftl (Z.ones 8) 8).
  change 0xff000000 with (Z.shiftl (Z.ones 8) 24).
  rewrite <- !Z.land_ones by lia. Z.bitblast.
Qed.

Lemma to_big_endian_4_bytes (v : Z) :
  to_big_endian 4 v
  = byte_of 3 v + byte_of 2 v * 2 ^ 8 + byte_of 1 v * 2 ^ 16
    + byte_of 0 v * 2 ^ 24.
Proof.
  rewrite to_big_endian_4_bits. unfold byte_of.
  rewrite !Z.or_to_plus by Z.bitblast.
  rewrite !Z.shiftl_mul_pow2, !Z.land_ones, !Z.shiftr_div_pow2 by lia.
  change (8 * 3) with 24. change (8 * 2) with 16. change (8 * 1) with 8.
  change (8 * 0) with 0. rewrite Z.pow_0_r, Z.div_1_r. lia.
Qed.

Lemma to_big_endian_2_bytes (v : Z) :
  to_big_endian 2 v = byte_of 1 v + byte_of 0 v * 2 ^ 8.
Proof.
  unfold to_big_endian, wrap, byte_of.
  destruct (decide (2 = 4)) as [?|_]; [lia|].
  destruct (decide (2 = 2)) as [_|?]; [|lia].
  change 0xff with (Z.ones 8). change 0xff00 with (Z.shiftl (Z.ones 8) 8).
  rewrite <- !Z.land_ones by lia.
  assert (Z.land (Z.lor (Z.land (Z.shiftr v 8) (Z.ones 8))
                        (Z.land (Z.shiftl v 8) (Z.shiftl (Z.ones 8) 8)))
                 (Z.ones 16)
          = Z.lor (Z.land (Z.shiftr v 8) (Z.ones 8))
                  (Z.shiftl (Z.land v (Z.ones 8)) 8)) as -> by Z.bitblast.
  rewrite Z.or_to_plus by Z.bitblast.
  rewrite !Z.shiftl_mul_pow2, !Z.land_ones, !Z.shiftr_div_pow2 by lia.
  change (8 * 1) with 8. change (8 * 0) with 0.
  rewrite Z.pow_0_r, Z.div_1_r. lia.
Qed.

Lemma byte_of_range (k v : Z) : 0 <= byte_of k v < 2 ^ 8.
Proof. unfold byte_of. apply Z.mod_pos_bound. lia. Qed.

Lemma to_big_endian_4_le (b0 b1 b2 b3 : Z) :
  0 <= b0 < 2 ^ 8 → 0 <= b1 < 2 ^ 8 → 0 <= b2 < 2 ^ 8 → 0 <= b3 < 2 ^ 8 →
  to_big_endian 4 (b0 + b1 * 2 ^ 8 + b2 * 2 ^ 16 + b3 * 2 ^ 24)
    = b3 + b2 * 2 ^ 8 + b1 * 2 ^ 16 + b0 * 2 ^ 24.
Proof.
  intros H0 H1 H2 H3. rewrite to_big_endian_4_bytes. unfold byte_of.
  change (8 * 3) with 24. change (8 * 2) with 16. change (8 * 1) with 8.
  change (8 * 0) with 0. rewrite Z.pow_0_r, Z.div_1_r.
  Z.div_mod_to_equations. lia.
Qed.

Lemma to_big_endian_2_le (b0 b1 : Z) :
  0 <= b0 < 2 ^ 8 → 0 <= b1 < 2 ^ 8 →
  to_big_endian 2 (b0 + b1 * 2 ^ 8) = b1 + b0 * 2 ^ 8.
Proof.
  intros H0 H1. rewrite to_big_endian_2_bytes. unfold byte_of.
  change (8 * 1) with 8. change (8 * 0) with 0.
  rewrite Z.pow_0_r, Z.div_1_r. Z.div_mod_to_equations. lia.
Qed.

Lemma to_big_endian_4_involutive (v : Z) :
  0 <= v < 2 ^ 32 →
  to_big_endian 4 (to_big_endian 4 v) = v ∧ 0 <= to_big_endian 4 v < 2 ^ 32.
Proof.
  intros Hv.
  pose proof (byte_of_range 0 v). pose proof (byte_of_range 1 v).
  pose proof (byte_of_range 2 v). pose proof (byte_of_range 3 v).
  assert (v = byte_of 0 v + byte_of 1 v * 2 ^ 8 + byte_of 2 v * 2 ^ 16
              + byte_of 3 v * 2 ^ 24) as Hbytes.
  { unfold byte_of. change (8 * 3) with 24. change (8 * 2) with 16.
    change (8 * 1) with 8. change (8 * 0) with 0.
    rewrite Z.pow_0_r, Z.div_1_r. Z.div_mod_to_equations. lia. }
  set (b0 := byte_of 0 v) in *. set (b1 := byte_of 1 v) in *.
  set (b2 := byte_of 2 v) in *. set (b3 := byte_of 3 v) in *.
  clearbody b0 b1 b2 b3. subst v.
  rewrite (to_big_endian_4_le b0 b1 b2 b3) by done.
  rewrite (to_big_endian_4_le b3 b2 b1 b0) by done.
  split; lia.
Qed.

(** X13 (to_big_endian): on four bytes the function reverses the byte
    order, so the little-endian reading of four bytes becomes their
    big-endian reading, and likewise on two bytes; on a type of any other
    size it returns its argument. *)
Theorem to_big_endian_reverses_bytes (b0 b1 b2 b3 : Z) :
  0 <= b0 < 2 ^ 8 → 0 <= b1 < 2 ^ 8 → 0 <= b2 < 2 ^ 8 → 0 <= b3 < 2 ^ 8 →
  to_big_endian 4 (b0 + b1 * 2 ^ 8 + b2 * 2 ^ 16 + b3 * 2 ^ 24)
    = b3 + b2 * 2 ^ 8 + b1 * 2 ^ 16 + b0 * 2 ^ 24 ∧
  to_big_endian 2 (b0 + b1 * 2 ^ 8) = b1 + b0 * 2 ^ 8 ∧
  ∀ size v, size ≠ 4 → size ≠ 2 → to_big_endian size v = v.
Proof.
  intros H0 H1 H2 H3. split_and!.
  - by apply to_big_endian_4_le.
  - by apply to_big_endian_2_le.
  - intros size v H4' H2'. unfold to_big_endian.
    by repeat destruct (decide _).
Qed.

(** X14 (to_big_endian): applied twice, the function gives back any
    value of the type: it is its own inverse on [uint32_t], on [uint16_t]
    and on every other size, and its result is again a value of the
    type. *)
Theorem to_big_endian_involutive (size v : Z) :
  0 <= v < 2 ^ (8 * size) →
  to_big_endian size (to_big_endian size v) = v ∧
  0 <= to_big_endian size v < 2 ^ (8 * size).
Proof.
  intros Hv.
  destruct (decide (size = 4)) as [->|H4]; [|destruct (decide (size = 2))
    as [->|H2]].
  - change (8 * 4) with 32 in *. by apply to_big_endian_4_involutive.
  - change (8 * 2) with 16 in *.
    pose proof (byte_of_range 0 v). pose proof (byte_of_range 1 v).
    assert (v = byte_of 0 v + byte_of 1 v * 2 ^ 8) as Hbytes.
    { unfold byte_of. change (8 * 1) with 8. change (8 * 0) with 0.
      rewrite Z.pow_0_r, Z.div_1_r. Z.div_mod_to_equations. lia. }
    set (b0 := byte_of 0 v) in *. set (b1 := byte_of 1 v) in *.
    clearbody b0 b1. subst v.
    rewrite (to_big_endian_2_le b0 b1) by done.
    rewrite (to_big_endian_2_le b1 b0) by done.
    split; lia.
  - unfold to_big_endian. by repeat destruct (decide _).
Qed.

(** X15 (convert_big_endian): converting a header twice gives the header
    back, when its fields are values of [uint32_t]. *)
Theorem convert_big_endian_involutive (h : file_header_t) :
  0 <= magic h < 2 ^ 32 → 0 <= images h < 2 ^ 32 →
  0 <= rows h < 2 ^ 32 → 0 <= columns h < 2 ^ 32 →
  convert_big_endian (convert_big_endian h) = h.
Proof.
  intros Hm Hi Hr Hc. destruct h as [m i r c]. unfold convert_big_endian.
  simpl in *.
  destruct (to_big_endian_4_involutive m) as [-> _]; [done|].
  destruct (to_big_endian_4_involutive i) as [-> _]; [done|].
  destruct (to_big_endian_4_involutive r) as [-> _]; [done|].
  by destruct (to_big_endian_4_involutive c) as [-> _].
Qed.
End byte_order.

(** ** transpose and apply_function on matrices *)

Section matrix_loops.
Context `{Numeric T}.

(** Two nested loops that write cell [(p i j, q i j)] of a matrix at
    step [(i, j)], no cell twice: afterwards every cell written holds the
    value of its step and the dimensions are as before. *)
Lemma fill_cells (cell : nat → nat → Matrix T → result (Matrix T))
    (val : nat → nat → T) (p q : nat → nat → nat) (n m R C : nat)
    (res0 : Matrix T) :
  length res0 = R → Forall (λ r, length r = C) res0 →
  (∀ i j, i < n → j < m → p i j < R ∧ q i j < C) →
  (∀ i j i' j', i < n → j < m → i' < n → j' < m →
     p i j = p i' j' → q i j = q i' j' → i = i' ∧ j = j') →
  (∀ i j res r, i < n → j < m → res !! p i j = Some r → q i j < length r →
     cell i j res = Ok (<[p i j := <[q i j := val i j]> r]> res)) →
  ∃ res, for_loop n 0 (λ i res, for_loop m 0 (cell i) res) res0 = Ok res ∧
    length res = R ∧ Forall (λ r, length r = C) res ∧
    ∀ i j, i < n → j < m → res !! p i j ≫= (.!! q i j) = Some (val i j).
Proof.
  intros HR HC Hrange Hinj Hcell.
  set (Inv := λ (done : nat → nat → Prop) (res : Matrix T),
    length res = R ∧ Forall (λ r, length r = C) res ∧
    ∀ i j, i < n → j < m → done i j →
      res !! p i j ≫= (.!! q i j) = Some (val i j)).
  destruct (for_loop_total (λ i res, Inv (λ i' _, i' < i) res) n 0
              (λ i res, for_loop m 0 (cell i) res) res0)
    as (res & Hrun & HlR & HlC & Hdone).
  - split_and!; [done..|]. intros; lia.
  - intros i res Hi Hinv.
    destruct (for_loop_total
      (λ j res, Inv (λ i' j', i' < i ∨ (i' = i ∧ j' < j)) res) m 0
      (cell i) res) as (res' & Hrun & HlR & HlC & Hdone).
    + destruct Hinv as (? & ? & Hdone). split_and!; [done..|].
      intros i' j' Hi' Hj' [Hlt|[_ Hlt]]; [|lia]. by apply Hdone.
    + intros j res1 Hj (HlR & HlC & Hdone).
      destruct (Hrange i j) as [Hp Hq]; [lia..|].
      destruct (lookup_lt_is_Some_2 res1 (p i j)) as [r Hr]; [lia|].
      pose proof (proj1 (Forall_lookup _ _) HlC _ _ Hr) as Hlr.
      simpl in Hlr. eexists. split; [apply Hcell; [lia..|done|lia]|].
      split_and!.
      * by rewrite length_insert.
      * apply Forall_insert; [done|]. by rewrite length_insert.
      * intros i' j' Hi' Hj' Hcond.
        destruct (decide (p i' j' = p i j)) as [Hpeq|Hpne].
        -- rewrite Hpeq, list_lookup_insert_eq by lia. simpl.
           destruct (decide (q i' j' = q i j)) as [Hqeq|Hqne].
           ++ destruct (Hinj i' j' i j) as [-> ->]; [lia..|done|done|].
              rewrite list_lookup_insert_eq by lia. done.
           ++ rewrite list_lookup_insert_ne by done.
              assert (i' < i ∨ i' = i ∧ j' < j) as Hold.
              { destruct Hcond as [?|[-> ?]]; [by left|].
                right. split; [done|].
                destruct (decide (j' = j)) as [->|?]; [done|lia]. }
              specialize (Hdone i' j' Hi' Hj' Hold).
              by rewrite Hpeq, Hr in Hdone.
        -- rewrite list_lookup_insert_ne by done.
           apply Hdone; [done..|].
           destruct Hcond as [?|[-> ?]]; [by left|]. right.
           split; [done|].
           destruct (decide (j' = j)) as [->|?]; [done|lia].
    + exists res'. split; [done|]. split_and!; [done..|].
      intros i' j' Hi' Hj' Hlt. apply Hdone; [done..|].
      destruct (decide (i' = i)) as [->|?]; [right; lia|left; lia].
  - exists res. split; [done|]. split_and!; [done..|].
    intros i j Hi Hj. apply Hdone; [done..|lia].
Qed.

End matrix_loops.

Section transpose_facts.
Context `{Numeric T}.
Implicit Types (mat : Matrix T) (row : Vector T).

Lemma at_index_Err {A} (v : list A) (i : nat) e :
  at_index v i = Err e → e = Undefined.
Proof. unfold at_index. destruct (v !! i); congruence. Qed.



(** The cells [transpose] writes, when no row is shorter than the first. *)
Lemma transpose_cells row0 rest :
  Forall (λ row, length row0 ≤ length row) rest →
  ∃ t, transpose (row0 :: rest) = Ok t ∧
    length t = length row0 ∧
    Forall (λ r, length r = S (length rest)) t ∧
    ∀ i j, i < S (length rest) → j < length row0 →
      t !! j ≫= (.!! i) = (row0 :: rest) !! i ≫= (.!! j).
Proof.
  intros Hrows. set (mat := row0 :: rest).
  assert (Forall (λ row, length row0 ≤ length row) mat) as Hmat.
  { by apply Forall_cons. }
  destruct (fill_cells (transpose_cell mat)
              (λ i j, default T0 (mat !! i ≫= (.!! j)))
              (λ _ j, j) (λ i _, i) (length mat) (length row0)
              (length row0) (length mat)
              (replicate (length row0) (replicate (length mat) T0)))
    as (t & Hrun & Hlt & Hlr & Hcells).
  - by rewrite length_replicate.
  - apply Forall_replicate. by rewrite length_replicate.
  - done.
  - done.
  - intros i j res r Hi Hj Hr Hir. unfold transpose_cell.
    destruct (lookup_lt_is_Some_2 mat i Hi) as [mat_i Hmi].
    pose proof (proj1 (Forall_lookup _ _) Hmat _ _ Hmi) as Hlen.
    simpl in Hlen.
    destruct (lookup_lt_is_Some_2 mat_i j) as [v Hv]; [lia|].
    destruct (lookup_lt_is_Some_2 r i Hir) as [old Hold].
    rewrite (proj2 (at_index_Ok _ _ _) Hmi). simpl.
    rewrite (proj2 (at_index_Ok _ _ _) Hv). simpl.
    rewrite (proj2 (at_index_Ok _ _ _) Hr). simpl.
    rewrite (proj2 (at_index_Ok _ _ _) Hold). simpl.
    rewrite Hmi. simpl. by rewrite Hv.
  - exists t. split; [exact Hrun|]. split_and!; [done..|].
    intros i j Hi Hj. rewrite (Hcells i j Hi Hj).
    destruct (lookup_lt_is_Some_2 mat i Hi) as [mat_i Hmi].
    pose proof (proj1 (Forall_lookup _ _) Hmat _ _ Hmi) as Hlen.
    simpl in Hlen.
    destruct (lookup_lt_is_Some_2 mat_i j) as [v Hv]; [lia|].
    fold mat. rewrite Hmi. simpl. by rewrite Hv.
Qed.



(** The cells [apply_function] writes on a matrix. *)
Lemma apply_function_matrix_cells row0 rest func :
  Forall (λ row, length row0 ≤ length row) rest →
  ∃ res, apply_function_matrix (row0 :: rest) func = Ok res ∧
    length res = S (length rest) ∧
    Forall (λ r, length r = length row0) res ∧
    ∀ i j, i < S (length rest) → j < length row0 →
      res !! i ≫= (.!! j) = func <$> ((row0 :: rest) !! i ≫= (.!! j)).
Proof.
  intros Hrows. set (mat := row0 :: rest).
  assert (Forall (λ row, length row0 ≤ length row) mat) as Hmat.
  { by apply Forall_cons. }
  destruct (fill_cells (apply_cell mat func)
              (λ i j, func (default T0 (mat !! i ≫= (.!! j))))
              (λ i _, i) (λ _ j, j) (length mat) (length row0)
              (length mat) (length row0)
              (replicate (length mat) (replicate (length row0) T0)))
    as (t & Hrun & Hlt & Hlr & Hcells).
  - by rewrite length_replicate.
  - apply Forall_replicate. by rewrite length_replicate.
  - done.
  - done.
  - intros i j res r Hi Hj Hr Hir. unfold apply_cell.
    destruct (lookup_lt_is_Some_2 mat i Hi) as [mat_i Hmi].
    pose proof (proj1 (Forall_lookup _ _) Hmat _ _ Hmi) as Hlen.
    simpl in Hlen.
    destruct (lookup_lt_is_Some_2 mat_i j) as [v Hv]; [lia|].
    destruct (lookup_lt_is_Some_2 r j Hir) as [old Hold].
    rewrite (proj2 (at_index_Ok _ _ _) Hmi). simpl.
    rewrite (proj2 (at_index_Ok _ _ _) Hv). simpl.
    rewrite (proj2 (at_index_Ok _ _ _) Hr). simpl.
    rewrite (proj2 (at_index_Ok _ _ _) Hold). simpl.
    rewrite Hmi. simpl. by rewrite Hv.
  - exists t. split; [exact Hrun|]. split_and!; [done..|].
    intros i j Hi Hj. rewrite (Hcells i j Hi Hj).
    destruct (lookup_lt_is_Some_2 mat i Hi) as [mat_i Hmi].
    pose proof (proj1 (Forall_lookup _ _) Hmat _ _ Hmi) as Hlen.
    simpl in Hlen.
    destruct (lookup_lt_is_Some_2 mat_i j) as [v Hv]; [lia|].
    fold mat. rewrite Hmi. simpl. by rewrite Hv.
Qed.
End transpose_facts.

Section matrix_results.
Context `{Numeric T}.
Implicit Types (mat : Matrix T) (row : Vector T).

(** Two matrices of the same dimensions with the same cells are equal. *)
Lemma matrix_ext (A B : Matrix T) (R C : nat) :
  length A = R → length B = R →
  Forall (λ r, length r = C) A → Forall (λ r, length r = C) B →
  (∀ i j, i < R → j < C → A !! i ≫= (.!! j) = B !! i ≫= (.!! j)) →
  A = B.
Proof.
  intros HA HB HAC HBC Hcells. apply list_eq. intros i.
  destruct (decide (i < R)) as [Hi|Hi].
  - destruct (lookup_lt_is_Some_2 A i) as [a Ha]; [lia|].
    destruct (lookup_lt_is_Some_2 B i) as [b Hb]; [lia|].
    rewrite Ha, Hb. f_equal.
    pose proof (proj1 (Forall_lookup _ _) HAC _ _ Ha) as Hla.
    pose proof (proj1 (Forall_lookup _ _) HBC _ _ Hb) as Hlb.
    simpl in Hla, Hlb. apply list_eq. intros j.
    destruct (decide (j < C)) as [Hj|Hj].
    + specialize (Hcells i j Hi Hj). by rewrite Ha, Hb in Hcells.
    + by rewrite !lookup_ge_None_2 by lia.
  - by rewrite !lookup_ge_None_2 by lia.
Qed.



(** X16.  [transpose] swaps the indices: when no row of a non-empty
    matrix is shorter than the first row, the result has as many rows as
    the first row has entries, each as long as the matrix has rows, and
    its entry at [(j, i)] is the entry of the matrix at [(i, j)]. *)
Theorem transpose_swaps_indices row0 rest :
  Forall (λ row, length row0 ≤ length row) rest →
  ∃ t, transpose (row0 :: rest) = Ok t ∧
    length t = length row0 ∧
    Forall (λ r, length r = S (length rest)) t ∧
    ∀ i j, i < S (length rest) → j < length row0 →
      t !! j ≫= (.!! i) = (row0 :: rest) !! i ≫= (.!! j).
Proof. apply transpose_cells. Qed.

(** X17.  On a rectangular matrix with at least one row and one column,
    [transpose] is an involution. *)
Theorem transpose_involutive row0 rest :
  0 < length row0 →
  Forall (λ row, length row = length row0) rest →
  ∃ t, transpose (row0 :: rest) = Ok t ∧ transpose t = Ok (row0 :: rest).
Proof.
  intros Hcols Hrect.
  destruct (transpose_cells row0 rest) as (t & Ht & Hlt & Hlr & Hcells).
  { eapply Forall_impl; [exact Hrect|]. simpl. intros; lia. }
  exists t. split; [done|].
  destruct t as [|t0 trest]; [simpl in Hlt; lia|].
  pose proof (Forall_inv Hlr) as Hl0. simpl in Hl0.
  destruct (transpose_cells t0 trest) as (u & Hu & Hlu & Hur & Hcells').
  { apply Forall_inv_tail in Hlr.
    eapply Forall_impl; [exact Hlr|]. simpl. intros; lia. }
  rewrite Hu. f_equal.
  apply (matrix_ext u (row0 :: rest) (S (length rest)) (length row0)).
  - lia.
  - done.
  - simpl in Hlt. eapply Forall_impl; [exact Hur|]. simpl. intros; lia.
  - by apply Forall_cons.
  - intros i j Hi Hj. simpl in Hlt.
    rewrite Hcells' by lia. by apply Hcells.
Qed.


(** X19.  A matrix whose first row is empty is transposed to the empty
    matrix, whatever rows follow, so transposing twice does not give the
    rows back. *)
Theorem transpose_no_columns rest :
  transpose ([] :: rest) = Ok [] ∧
  (t ← transpose ([] :: rest); transpose t) = Ok [].
Proof.
  destruct (transpose_cells [] rest) as (t & Ht & Hlt & _).
  { apply Forall_forall. intros; simpl; lia. }
  destruct t; [|done]. by rewrite Ht.
Qed.

(** X20.  [apply_function] on a non-empty matrix in which no row is
    shorter than the first: every row is cut to the length of the first
    row and [func] is applied to each entry; on a rectangular matrix this
    is [func] applied to every entry. *)
Theorem apply_function_matrix_map row0 rest func :
  Forall (λ row, length row0 ≤ length row) rest →
  apply_function_matrix (row0 :: rest) func
    = Ok ((λ row, func <$> take (length row0) row) <$> (row0 :: rest)) ∧
  (Forall (λ row, length row = length row0) rest →
   apply_function_matrix (row0 :: rest) func
     = Ok ((λ row, apply_function row func) <$> (row0 :: rest))).
Proof.
  intros Hrows.
  assert (apply_function_matrix (row0 :: rest) func
    = Ok ((λ row, func <$> take (length row0) row) <$> (row0 :: rest)))
    as Hmap.
  { destruct (apply_function_matrix_cells row0 rest func Hrows)
      as (res & Hres & Hlen & Hlr & Hcells).
    rewrite Hres. f_equal.
    apply (matrix_ext _ _ (S (length rest)) (length row0)).
    - done.
    - by rewrite length_fmap.
    - done.
    - apply Forall_fmap, Forall_cons. split.
      + simpl. rewrite length_fmap, length_take. lia.
      + eapply Forall_impl; [exact Hrows|]. simpl. intros row Hrow.
        rewrite length_fmap, length_take. lia.
    - intros i j Hi Hj. rewrite Hcells by done.
      rewrite list_lookup_fmap.
      destruct ((row0 :: rest) !! i) as [row|]; [|done]. simpl.
      rewrite list_lookup_fmap, lookup_take_lt by done. done. }
  split; [done|]. intros Hrect. rewrite Hmap. f_equal.
  apply Forall_fmap_ext_1, Forall_cons. split.
  - by rewrite firstn_all.
  - eapply Forall_impl; [exact Hrect|]. simpl. intros row <-.
    by rewrite firstn_all.
Qed.

End matrix_results.

(** ** one_hot_encode *)

Section one_hot.
Context `{Numeric T}.

Lemma wrap_small (bits x : Z) : (0 ≤ x < 2 ^ bits)%Z → wrap bits x = x.
Proof. intros Hx. unfold wrap. by apply Z.mod_small. Qed.

Lemma one_hot_encode_Ok (label : Z) (n : nat) :
  (0 ≤ label < Z.of_nat n)%Z → (label < 2 ^ 31)%Z →
  one_hot_encode label n = Ok (<[Z.to_nat label := T1]> (replicate n T0)).
Proof.
  intros Hlabel Hint. unfold one_hot_encode.
  rewrite wrap_small by lia.
  destruct (at_index_lt (replicate n (T0 : T)) (Z.to_nat label))
    as (x & -> & _); [rewrite length_replicate; lia|done].
Qed.

(** X22.  [one_hot_encode] with a label below the number of classes: the
    vector has one entry per class, [1] at the label and [0] elsewhere. *)
Theorem one_hot_encode_entries (label : Z) (n : nat) :
  (0 ≤ label < Z.of_nat n)%Z → (label < 2 ^ 31)%Z →
  ∃ v : Vector T, one_hot_encode label n = Ok v ∧
    length v = n ∧
    ∀ k, k < n →
      v !! k = Some (if decide (k = Z.to_nat label) then T1 else T0).
Proof.
  intros Hlabel Hint. eexists. split; [by apply one_hot_encode_Ok|].
  split; [by rewrite length_insert, length_replicate|].
  intros k Hk. destruct (decide (k = Z.to_nat label)) as [->|Hne].
  - apply list_lookup_insert_eq. rewrite length_replicate. lia.
  - rewrite list_lookup_insert_ne by done. by apply lookup_replicate_2.
Qed.

(** X23.  [one_hot_encode] does not check the label: a negative [int]
    label converts to an index of at least [2^64 - 2^31], and this and a
    label that is not below the number of classes are written past the
    end of the vector. *)
Theorem one_hot_encode_out_of_range (label : Z) (n : nat) :
  (- 2 ^ 31 ≤ label < 2 ^ 31)%Z → (Z.of_nat n < 2 ^ 63)%Z →
  (label < 0 ∨ Z.of_nat n ≤ label)%Z →
  one_hot_encode (T := T) label n = Err Undefined.
Proof.
  intros Hint Hn Hout. unfold one_hot_encode, at_index.
  rewrite lookup_ge_None_2; [done|]. rewrite length_replicate.
  unfold wrap. destruct (decide (label < 0)%Z).
  - replace (label mod 2 ^ 64)%Z with (label + 2 ^ 64)%Z; [lia|].
    apply (Z.mod_unique _ _ (-1)); lia.
  - rewrite Z.mod_small by lia. lia.
Qed.

(** X24.  Decoding a one-hot vector: when [0 < 1] in [T], the index
    [std::max_element] finds in [one_hot_encode label n] is [label]. *)
Theorem one_hot_encode_argmax `{!StrictWeakOrder T} (label : Z) (n : nat) :
  Tlt (T0 : T) T1 = true →
  (0 ≤ label < Z.of_nat n)%Z → (label < 2 ^ 31)%Z →
  ∃ v : Vector T, one_hot_encode label n = Ok v ∧
    Z.of_nat (max_element v) = label.
Proof.
  intros Hlt Hlabel Hint. eexists. split; [by apply one_hot_encode_Ok|].
  set (v := <[Z.to_nat label := T1]> (replicate n (T0 : T))).
  assert (v !! Z.to_nat label = Some T1) as Hone.
  { apply list_lookup_insert_eq. rewrite length_replicate. lia. }
  destruct (max_element_first_max v) as (m & Hm & Hmax & _).
  { intros Hv. by rewrite Hv in Hone. }
  destruct (decide (max_element v = Z.to_nat label)) as [->|Hne]; [lia|].
  unfold v in Hm. rewrite list_lookup_insert_ne in Hm by done.
  apply lookup_replicate in Hm as [-> _].
  specialize (Hmax _ _ Hone). congruence.
Qed.
End one_hot.

(** ** initialize_matrix *)

Section initialize.
Context `{Numeric T} {G : Type} (uniform : T → T → G → T * G).
Context (memory : nat → bool).
Implicit Types (gen : G).

Lemma fill_row_app dis (r1 r2 : Vector T) gen :
  fill_row dis (r1 ++ r2) gen
  = let '(a, gen1) := fill_row dis r1 gen in
    let '(b, gen2) := fill_row dis r2 gen1 in (a ++ b, gen2).
Proof.
  revert gen. induction r1 as [|x r1 IH]; intros gen; simpl.
  - by destruct (fill_row dis r2 gen).
  - destruct (dis gen) as [w gen']. rewrite IH.
    destruct (fill_row dis r1 gen') as [a gen1].
    by destruct (fill_row dis r2 gen1).
Qed.

Lemma fill_matrix_app dis (m1 m2 : Matrix T) gen :
  fill_matrix dis (m1 ++ m2) gen
  = let '(a, gen1) := fill_matrix dis m1 gen in
    let '(b, gen2) := fill_matrix dis m2 gen1 in (a ++ b, gen2).
Proof.
  revert gen. induction m1 as [|x m1 IH]; intros gen; simpl.
  - by destruct (fill_matrix dis m2 gen).
  - destruct (fill_row dis x gen) as [w gen']. rewrite IH.
    destruct (fill_matrix dis m1 gen') as [a gen1].
    by destruct (fill_matrix dis m2 gen1).
Qed.

(** The indexed loops of [initialize_matrix] draw the entries in the
    order of the range-based loops [fill_matrix] of the constructor. *)
Lemma initialize_loops (n m : nat) gen :
  for_loop n 0
    (λ i st, for_loop m 0 (initialize_cell uniform i) st)
    (replicate n (replicate m T0), gen)
  = Ok (fill_matrix (small_values uniform) (replicate n (replicate m T0)) gen).
Proof.
  set (row0 := replicate m (T0 : T)).
  pose (P := λ (i : nat) (st : Matrix T * G), ∃ filled,
    length filled = i ∧
    fill_matrix (small_values uniform) (replicate i row0) gen = (filled, st.2) ∧
    st.1 = filled ++ replicate (n - i) row0).
  destruct (for_loop_total P n 0
    (λ i st, for_loop m 0 (initialize_cell uniform i) st)
    (replicate n row0, gen)) as ([mat g] & Hrun & filled & Hld & Hfill & Hmat).
  - exists []. split_and!; [done..|]. simpl. by rewrite Nat.sub_0_r.
  - intros i [mat g] Hi (filled & Hld & Hfill & Hmat). simpl in *.
    pose (Q := λ (j : nat) (st : Matrix T * G), ∃ d,
      length d = j ∧
      fill_row (small_values uniform) (replicate j T0) g = (d, st.2) ∧
      st.1 = filled ++ (d ++ replicate (m - j) T0)
                       :: replicate (n - i - 1) row0).
    destruct (for_loop_total Q m 0 (initialize_cell uniform i) (mat, g))
      as ([mat' g'] & Hrun & d & Hd & Hrow & Hmat').
    + exists []. split_and!; [done..|]. simpl. rewrite Nat.sub_0_r, Hmat.
      destruct (n - i) as [|k] eqn:Hk; [lia|]. simpl.
      by rewrite Nat.sub_0_r.
    + intros j [mat1 g1] Hj (d & Hd & Hrow & Hmat1). simpl in *.
      unfold initialize_cell.
      change (random_value uniform _ _ g1) with (small_values uniform g1).
      destruct ((small_values uniform) g1) as [v g2] eqn:Hdraw.
      assert (mat1 !! i = Some (d ++ replicate (m - j) T0)) as Hmi.
      { rewrite Hmat1. by apply list_lookup_middle. }
      rewrite (proj2 (at_index_Ok _ _ _) Hmi). simpl.
      destruct (at_index_lt (d ++ replicate (m - j) (T0 : T)) j)
        as (old & -> & _).
      { rewrite length_app, length_replicate. lia. }
      simpl. eexists. split; [done|]. exists (d ++ [v]). cbn [fst snd].
      split_and!.
      * rewrite length_app. simpl. lia.
      * replace (S j) with (j + 1) by lia.
        rewrite replicate_add, fill_row_app, Hrow. simpl.
        by rewrite Hdraw.
      * rewrite Hmat1. rewrite insert_app_r_alt by lia.
        rewrite Hld, Nat.sub_diag. simpl. f_equal. f_equal.
        rewrite insert_app_r_alt by lia. rewrite Hd, Nat.sub_diag.
        replace (m - j) with (S (m - S j)) by lia. simpl.
        by rewrite <- app_assoc.
    + exists (mat', g'). split; [done|]. exists (filled ++ [d]).
      cbn [fst snd] in *.
      split_and!.
      * rewrite length_app. simpl. lia.
      * replace (S i) with (i + 1) by lia.
        rewrite replicate_add, fill_matrix_app, Hfill. simpl.
        change (0 + m) with m in Hrow. fold row0 in Hrow.
        rewrite Hrow. done.
      * rewrite Hmat', Nat.sub_diag, app_nil_r, <- app_assoc. simpl.
        do 2 f_equal. f_equal. lia.
  - simpl in *. rewrite Hrun. f_equal.
    rewrite Nat.sub_diag, app_nil_r in Hmat. subst mat.
    fold row0. by rewrite Hfill.
Qed.

Lemma initialize_matrix_Ok (rows cols : Z) gen :
  (0 ≤ rows)%Z → (0 ≤ cols)%Z → memory 0 = true → memory 1 = true →
  initialize_matrix uniform memory rows cols gen
  = Ok (fill_matrix (small_values uniform)
          (replicate (Z.to_nat rows) (replicate (Z.to_nat cols) T0)) gen).
Proof.
  intros Hrows Hcols Hrow Hmat. unfold initialize_matrix, vector_alloc.
  rewrite Hrow, Hmat.
  destruct (decide (cols < 0)%Z); [lia|].
  destruct (decide (rows < 0)%Z); [lia|].
  apply initialize_loops.
Qed.

(** X25.  [initialize_matrix] with non-negative sizes, when its two
    requests for memory are served, returns a matrix of [rows] rows of
    [cols] entries; the entries are the successive draws from the
    distribution on [-0.5, 0.5], row by row, as the constructor of the
    network fills a weight matrix. *)
Theorem initialize_matrix_draws (rows cols : Z) gen :
  (0 ≤ rows)%Z → (0 ≤ cols)%Z → memory 0 = true → memory 1 = true →
  ∃ mat gen',
    initialize_matrix uniform memory rows cols gen = Ok (mat, gen') ∧
    (mat, gen') = fill_matrix (small_values uniform)
      (replicate (Z.to_nat rows) (replicate (Z.to_nat cols) T0)) gen ∧
    length mat = Z.to_nat rows ∧
    Forall (λ row, length row = Z.to_nat cols) mat.
Proof.
  intros Hrows Hcols Hrow Hmat.
  pose proof (initialize_matrix_Ok rows cols gen Hrows Hcols Hrow Hmat)
    as Hrun.
  pose proof (fill_matrix_shape (small_values uniform)
    (replicate (Z.to_nat rows) (replicate (Z.to_nat cols) (T0 : T))) gen
    (Z.to_nat cols)) as Hshape.
  destruct (fill_matrix (small_values uniform) _ gen) as [mat gen'].
  exists mat, gen'. split; [done|]. split; [done|].
  destruct Hshape as [Hl Hr].
  { apply Forall_replicate. by rewrite length_replicate. }
  simpl in *. by rewrite length_replicate in Hl.
Qed.

(** X26.  [initialize_matrix] fails exactly when a size is negative or a
    request for memory is not served.  It constructs the row first: it
    throws [std::length_error] when [cols] is negative, or when [rows] is
    negative and the memory for the row was there; it throws
    [std::bad_alloc] when [cols] is not negative and the memory for the
    row is not there, or when no size is negative and the memory for the
    matrix is not there. *)
Theorem initialize_matrix_fails_iff (rows cols : Z) gen e :
  initialize_matrix uniform memory rows cols gen = Err e ↔
    (e = LengthError ∧
     (cols < 0 ∨ (0 ≤ cols ∧ memory 0 = true ∧ rows < 0))%Z) ∨
    (e = BadAlloc ∧ (0 ≤ cols)%Z ∧
     (memory 0 = false ∨ ((0 ≤ rows)%Z ∧ memory 1 = false))).
Proof.
  destruct (decide (cols < 0)%Z) as [Hc|Hc].
  { unfold initialize_matrix, vector_alloc.
    destruct (decide (cols < 0)%Z); [|lia]. simpl. split.
    - intros [= <-]. left. split; [done|by left].
    - intros [(-> & _)|(_ & ? & _)]; [done|lia]. }
  destruct (memory 0) eqn:Hrow.
  2:{ unfold initialize_matrix, vector_alloc. rewrite Hrow.
      destruct (decide (cols < 0)%Z); [lia|]. simpl. split.
      - intros [= <-]. right. split_and!; [done|lia|by left].
      - intros [(_ & [?|(_ & ? & _)])|(-> & _)]; [lia|done..]. }
  destruct (decide (rows < 0)%Z) as [Hr|Hr].
  { unfold initialize_matrix, vector_alloc. rewrite Hrow.
    destruct (decide (cols < 0)%Z); [lia|].
    destruct (decide (rows < 0)%Z); [|lia]. simpl. split.
    - intros [= <-]. left. split; [done|]. right. split_and!; [lia|done..].
    - intros [(-> & _)|(_ & _ & [?|(? & _)])]; [done|done|lia]. }
  destruct (memory 1) eqn:Hmat.
  - rewrite initialize_matrix_Ok by (done || lia). split; [done|].
    intros [(_ & [?|(_ & _ & ?)])|(_ & _ & [?|(_ & ?)])]; done || lia.
  - unfold initialize_matrix, vector_alloc. rewrite Hrow, Hmat.
    destruct (decide (cols < 0)%Z); [lia|].
    destruct (decide (rows < 0)%Z); [lia|]. simpl. split.
    + intros [= <-]. right. split_and!; [done|lia|]. right. split; [lia|done].
    + intros [(_ & [?|(_ & _ & ?)])|(-> & _)]; [lia|lia|done].
Qed.
End initialize.

(** ** The hidden layers *)

Section hidden_layers.
Context `{Numeric T}.
Implicit Types (net : NeuralNetwork T).

(** The ReLU of a value is not below 0, given the two facts about
    comparisons with 0 that it takes: 0 is not below 0, and no value is
    both above and below 0. *)
Lemma relu_not_negative (x : T) :
  Tlt (T0 : T) T0 = false →
  (∀ y : T, Tlt T0 y = true → Tlt y T0 = false) →
  Tlt (Activation.relu x) T0 = false.
Proof.
  intros Hzero Hsign. unfold Activation.relu.
  destruct (Tlt T0 x) eqn:Hpos; [by apply Hsign|done].
Qed.

(** A layer that is not the last appends the ReLU of its
    pre-activation. *)
Lemma forward_layer_hidden i net output net' output' :
  forward_layer i (net, output) = Ok (net', output') →
  i ≠ length (weights net) - 1 →
  ∃ z, z_values net' = z_values net ++ [z] ∧
    output' = Activation.relu <$> z.
Proof.
  unfold forward_layer. intros Hrun Hi.
  apply bind_Ok in Hrun as (W & HW%at_index_Ok & Hrun).
  apply bind_Ok in Hrun as (z & Hz & Hrun).
  apply bind_Ok in Hrun as (a & Ha & Hrun).
  injection Hrun as <- <-. simpl in *.
  destruct (decide _) as [|_]; [done|]. injection Ha as <-.
  by exists z.
Qed.

(** X9.  After a forward pass that returns, the cached activation of
    every layer but the last is the ReLU of the cached pre-activation of
    that layer, whatever [operator<] is; and none of its entries is
    below 0, given that 0 is not below 0 and that no value is both above
    and below 0, which holds of every [double], a NaN included. *)
Theorem hidden_activations_not_negative net (input : Vector T) net' output :
  forward_propagation net input = Ok (net', output) →
  ∀ i a, i + 1 < length (weights net) → activations net' !! i = Some a →
    (∃ z, z_values net' !! i = Some z ∧ a = Activation.relu <$> z) ∧
    (Tlt (T0 : T) T0 = false →
     (∀ y : T, Tlt T0 y = true → Tlt y T0 = false) →
     Forall (λ x, Tlt x T0 = false) a).
Proof.
  unfold forward_propagation. simpl. intros Hrun.
  pose (P := λ (k : nat) (st : NeuralNetwork T * Vector T),
    weights st.1 = weights net ∧
    length (activations st.1) = k ∧ length (z_values st.1) = k ∧
    ∀ i a, i + 1 < length (weights net) → activations st.1 !! i = Some a →
      ∃ z, z_values st.1 !! i = Some z ∧ a = Activation.relu <$> z).
  assert (P (0 + length (weights net)) (net', output)) as (_ & _ & _ & Hall).
  { apply (for_loop_inv P _ _ _ _ _) with (3 := Hrun).
    - split_and!; [done..|]. intros i a _ Ha. done.
    - intros k [nk ok] [nk' ok'] Hk (HW & Hla & Hlz & Hact) Hbody.
      cbn [fst snd] in *.
      pose proof (forward_layer_inv _ _ _ _ _ Hbody)
        as (HW' & _ & _ & W & z & _ & Hz' & Ha' & _).
      unfold P. cbn [fst snd]. split_and!.
      + congruence.
      + rewrite Ha', length_app. simpl. lia.
      + rewrite Hz', length_app. simpl. lia.
      + intros i a Hi Ha. rewrite Ha' in Ha.
        apply lookup_app_Some in Ha as [Ha|[Hge Ha]].
        * destruct (Hact i a Hi Ha) as (zi & Hzi & Hrelu).
          exists zi. split; [|done].
          rewrite Hz'. by apply lookup_app_l_Some.
        * apply list_lookup_singleton_Some in Ha as [Hik <-].
          assert (i = k) as -> by lia.
          destruct (forward_layer_hidden _ _ _ _ _ Hbody)
            as (z' & Hz'' & ->); [rewrite HW; lia|].
          exists z'. split; [|done]. rewrite Hz''.
          by rewrite <- Hlz, (list_lookup_middle (z_values nk) [] z'). }
  intros i a Hi Ha. destruct (Hall i a Hi Ha) as (z & Hz & ->).
  split; [by exists z|]. intros Hzero Hsign.
  apply Forall_fmap, Forall_forall. intros x _.
  by apply relu_not_negative.
Qed.
End hidden_layers.

(** ** The further properties on concrete data *)

Lemma netR_flat_shape : shape_ok [2; 3; 2] netR_flat.
Proof.
  split_and!; [done..|]. intros i n_in n_out Hin Hout.
  destruct i as [|[|i]]; simpl in *; [| |done].
  - injection Hin as <-. injection Hout as <-.
    eexists _, _. split_and!; [done..| |done]. by repeat constructor.
  - injection Hin as <-. injection Hout as <-.
    eexists _, _. split_and!; [done..| |done]. by repeat constructor.
Qed.

Lemma netR_frozen_shape : shape_ok [2; 3; 2] netR_frozen.
Proof. exact netR_shape. Qed.

Lemma predict_repeatable_witness :
  ∃ net' k, predict netR [1%R; 0%R] = Ok (net', k) ∧
    predict net' [1%R; 0%R] = Ok (net', k).
Proof.
  destruct (predict_total [2; 3; 2] netR [1%R; 0%R])
    as (net' & output & _ & Hpredict & _).
  - apply valid_arch_232.
  - apply netR_shape.
  - reflexivity.
  - exists net', (Z.of_nat (max_element output)). split; [exact Hpredict|].
    exact (proj1 (predict_repeatable netR net' [1%R; 0%R] _ Hpredict)).
Defined.

Lemma evaluate_keeps_parameters_witness :
  ∃ net' (accuracy : R),
    evaluate netR [[1%R; 0%R]] [0%Z] = Ok (net', accuracy) ∧
    weights net' = weights netR ∧ biases net' = biases netR ∧
    learning_rate net' = learning_rate netR.
Proof.
  destruct (evaluate_loop_total [2; 3; 2] netR [[1%R; 0%R]] [0%Z])
    as (net' & Hloop).
  - apply valid_arch_232.
  - apply netR_shape.
  - by repeat constructor.
  - simpl. lia.
  - assert (∃ accuracy : R,
      evaluate netR [[1%R; 0%R]] [0%Z] = Ok (net', accuracy))
      as (accuracy & Hrun).
    { unfold evaluate. rewrite Hloop. by eexists. }
    exists net', accuracy. split; [exact Hrun|].
    exact (evaluate_keeps_parameters netR [[1%R; 0%R]] [0%Z] net' accuracy
             Hrun).
Defined.

Lemma train_keeps_learning_rate_witness :
  ∃ net' cout,
    train netR [[1%R; 0%R]] [[0%R; 1%R]] 2 = Ok (net', cout) ∧
    learning_rate net' = learning_rate netR.
Proof.
  destruct (train_total [2; 3; 2] netR [[1%R; 0%R]] [[0%R; 1%R]] 2)
    as (net' & cout & Hrun & _).
  - apply valid_arch_232.
  - apply netR_shape.
  - by repeat constructor.
  - by repeat constructor.
  - simpl. lia.
  - exists net', cout. split; [exact Hrun|].
    exact (train_keeps_learning_rate netR _ _ 2 net' cout Hrun).
Defined.

Lemma forward_propagation_wrong_input_size_witness :
  forward_propagation netR [1%R] = Err InvalidArgument ∧
  predict netR [1%R] = Err InvalidArgument.
Proof.
  apply (forward_propagation_wrong_input_size [2; 3; 2] netR [1%R] 2 3).
  - apply netR_shape.
  - reflexivity.
  - reflexivity.
  - lia.
  - simpl. lia.
Defined.


Lemma forward_output_distribution_witness :
  ∃ net' output,
    forward_propagation (H := double_example) netD [1; 0]%float
      = Ok (net', output) ∧
    last [2; 3; 2] = Some (length output) ∧
    Forall in_unit output ∧
    (Rabs (Rsum (to_R <$> output) - 1) <= / 1000000)%R.
Proof.
  destruct (forward_output_distribution exp_example log_example
              [2; 3; 2] netD [1; 0]%float)
    as (net' & output & z & Hfw & Hz & Hlast & Hunit).
  - apply exp_example_range.
  - apply exp_example_zero.
  - apply valid_arch_232.
  - apply netD_shape.
  - reflexivity.
  - intros n [= <-]. simpl. lia.
  - exists net', output. split; [exact Hfw|]. split; [exact Hlast|].
    apply Hunit. vm_compute in Hfw. injection Hfw as <- _.
    simpl in Hz. injection Hz as <-. by repeat constructor.
Defined.

Lemma forward_zero_last_layer_uniform_witness :
  ∃ net' output,
    forward_propagation netR_flat [1%R; 0%R] = Ok (net', output) ∧
    last [2; 3; 2] = Some (length output) ∧
    output = replicate (length output) (/ INR (length output))%R.
Proof.
  apply (forward_zero_last_layer_uniform [2; 3; 2] netR_flat [1%R; 0%R]
           [[0%R; 0%R; 0%R]; [0%R; 0%R; 0%R]] [0%R; 0%R]).
  - apply valid_arch_232.
  - apply netR_flat_shape.
  - reflexivity.
  - reflexivity.
  - reflexivity.
  - by repeat constructor.
  - by repeat constructor.
Defined.

Lemma backward_zero_learning_rate_witness :
  ∃ net1 output net2,
    forward_propagation netR_frozen [1%R; 0%R] = Ok (net1, output) ∧
    backward_propagation net1 [1%R; 0%R] [0%R; 1%R] = Ok net2 ∧
    weights net2 = weights net1 ∧ biases net2 = biases net1.
Proof.
  destruct (forward_propagation_total [2; 3; 2] netR_frozen [1%R; 0%R])
    as (net1 & output & _ & Hfw & _).
  - apply valid_arch_232.
  - apply netR_frozen_shape.
  - reflexivity.
  - destruct (backward_zero_learning_rate [2; 3; 2] netR_frozen [1%R; 0%R]
                [0%R; 1%R] net1 output) as (net2 & Hbw).
    + apply valid_arch_232.
    + apply netR_frozen_shape.
    + reflexivity.
    + reflexivity.
    + exact Hfw.
    + reflexivity.
    + exists net1, output, net2. split; [exact Hfw | exact Hbw].
Defined.

Lemma backward_zero_feature_keeps_weight_witness :
  ∃ net1 output net2 W W',
    forward_propagation netR [1%R; 0%R] = Ok (net1, output) ∧
    backward_propagation net1 [1%R; 0%R] [0%R; 1%R] = Ok net2 ∧
    weights net1 !! 0 = Some W ∧ weights net2 !! 0 = Some W' ∧
    length W' = length W ∧
    ∀ i row row', W !! i = Some row → W' !! i = Some row' →
      row' !! 1 = row !! 1.
Proof.
  destruct netR_forward as (net1 & output & Hfw).
  destruct (backward_zero_feature_keeps_weight [2; 3; 2] netR [1%R; 0%R]
              [0%R; 1%R] net1 output 1) as (net2 & W & W' & Hbw).
  - apply valid_arch_232.
  - apply netR_shape.
  - reflexivity.
  - reflexivity.
  - exact Hfw.
  - reflexivity.
  - exists net1, output, net2, W, W'. split; [exact Hfw | exact Hbw].
Defined.

Lemma hidden_activations_not_negative_witness :
  ∃ net' output,
    forward_propagation (H := double_example) netD [1; 0]%float
      = Ok (net', output) ∧
    ∀ i a, i + 1 < length (weights netD) → activations net' !! i = Some a →
      (∃ z, z_values net' !! i = Some z ∧
         a = Activation.relu (H := double_example) <$> z) ∧
      Forall (λ x, (x <? 0)%float = false) a.
Proof.
  destruct (forward_propagation (H := double_example) netD [1; 0]%float)
    as [[net' output]|e] eqn:Hfw; [|by vm_compute in Hfw].
  exists net', output. split; [done|]. intros i a Hi Ha.
  destruct (hidden_activations_not_negative (H := double_example)
              netD [1; 0]%float net' output Hfw i a Hi Ha) as [Hz Hpos].
  split; [exact Hz|]. apply Hpos; [reflexivity|apply ltb_zero_asym].
Defined.

Lemma to_big_endian_reverses_bytes_witness :
  (to_big_endian 4 (1 + 8 * 2 ^ 8 + 0 * 2 ^ 16 + 0 * 2 ^ 24)
     = 0 + 0 * 2 ^ 8 + 8 * 2 ^ 16 + 1 * 2 ^ 24 ∧
   to_big_endian 2 (1 + 8 * 2 ^ 8) = 8 + 1 * 2 ^ 8 ∧
   ∀ size v, size ≠ 4 → size ≠ 2 → to_big_endian size v = v)%Z.
Proof. apply (to_big_endian_reverses_bytes 1 8 0 0); lia. Defined.

Lemma to_big_endian_involutive_witness :
  (to_big_endian 4 (to_big_endian 4 2049) = 2049 ∧
   0 ≤ to_big_endian 4 2049 < 2 ^ (8 * 4))%Z.
Proof. apply (to_big_endian_involutive 4 2049). simpl. lia. Defined.

Lemma convert_big_endian_involutive_witness :
  convert_big_endian (convert_big_endian
    {| magic := 2051; images := 60000; rows := 28; columns := 28 |})
  = {| magic := 2051; images := 60000; rows := 28; columns := 28 |}.
Proof. apply convert_big_endian_involutive; simpl; lia. Defined.

Lemma transpose_swaps_indices_witness :
  ∃ t, transpose [[1%R; 2%R]; [3%R; 4%R; 7%R]; [5%R; 6%R]] = Ok t ∧
    length t = 2 ∧ Forall (λ r, length r = 3) t ∧
    ∀ i j, i < 3 → j < 2 →
      t !! j ≫= (.!! i)
      = [[1%R; 2%R]; [3%R; 4%R; 7%R]; [5%R; 6%R]] !! i ≫= (.!! j).
Proof.
  apply (transpose_swaps_indices [1%R; 2%R] [[3%R; 4%R; 7%R]; [5%R; 6%R]]).
  repeat constructor; simpl; lia.
Defined.

Lemma transpose_involutive_witness :
  ∃ t, transpose [[1%R; 2%R]; [3%R; 4%R]; [5%R; 6%R]] = Ok t ∧
    transpose t = Ok [[1%R; 2%R]; [3%R; 4%R]; [5%R; 6%R]].
Proof.
  apply (transpose_involutive [1%R; 2%R] [[3%R; 4%R]; [5%R; 6%R]]).
  - simpl. lia.
  - by repeat constructor.
Defined.

Lemma apply_function_matrix_map_witness :
  apply_function_matrix [[1%R; 2%R]; [3%R; 4%R; 7%R]] Ropp
    = Ok ((λ row, Ropp <$> take 2 row) <$> [[1%R; 2%R]; [3%R; 4%R; 7%R]]) ∧
  (Forall (λ row : list R, length row = 2) [[3%R; 4%R; 7%R]] →
   apply_function_matrix [[1%R; 2%R]; [3%R; 4%R; 7%R]] Ropp
     = Ok ((λ row, apply_function row Ropp)
             <$> [[1%R; 2%R]; [3%R; 4%R; 7%R]])).
Proof.
  apply (apply_function_matrix_map [1%R; 2%R] [[3%R; 4%R; 7%R]] Ropp).
  repeat constructor; simpl; lia.
Defined.

Lemma one_hot_encode_entries_witness :
  ∃ v : list R, one_hot_encode 3 10 = Ok v ∧ length v = 10 ∧
    ∀ k, k < 10 →
      v !! k = Some (if decide (k = Z.to_nat 3) then T1 else T0).
Proof. apply (one_hot_encode_entries (H := R_numeric) 3 10); simpl; lia. Defined.

Lemma one_hot_encode_out_of_range_witness :
  one_hot_encode (T := R) (-1) 10 = Err Undefined.
Proof.
  apply (one_hot_encode_out_of_range (H := R_numeric) (-1) 10); simpl; lia.
Defined.

Lemma one_hot_encode_argmax_witness :
  ∃ v : list R, one_hot_encode 3 10 = Ok v ∧
    Z.of_nat (max_element v) = 3%Z.
Proof.
  apply (one_hot_encode_argmax (H := R_numeric) 3 10).
  - apply bool_decide_eq_true_2. simpl. lra.
  - simpl. lia.
  - simpl. lia.
Defined.

Lemma initialize_matrix_draws_witness :
  ∃ mat gen',
    initialize_matrix (λ lo hi, demo_dis) (λ _, true) 2 3 0
      = Ok (mat, gen') ∧
    (mat, gen') = fill_matrix (small_values (λ lo hi, demo_dis))
      (replicate (Z.to_nat 2) (replicate (Z.to_nat 3) T0)) 0 ∧
    length mat = Z.to_nat 2 ∧
    Forall (λ row, length row = Z.to_nat 3) mat.
Proof.
  apply (initialize_matrix_draws (H := R_numeric) (λ lo hi, demo_dis)
           (λ _, true) 2 3 0); done || lia.
Defined.

(** * include/utils.h *)

Section display.
Context `{Numeric T}.

Lemma display_row_line (image : Vector T) (cols i : nat) (cout : list ascii) :
  i * cols + cols ≤ length image →
  display_row image (Z.of_nat cols) i cout
  = Ok (cout ++ image_line (take cols (drop (i * cols) image))).
Proof.
  intros Hlen. unfold display_row. rewrite Nat2Z.id.
  destruct (for_loop_total
    (λ j c, c = cout ++ flat_map pixel_text
                        (take j (drop (i * cols) image)))
    cols 0 (display_pixel image (Z.of_nat cols) i) cout)
    as (c & -> & ->).
  - by rewrite take_0, app_nil_r.
  - intros j c Hj ->. unfold display_pixel.
    replace (Z.to_nat (Z.of_nat i * Z.of_nat cols + Z.of_nat j))
      with (i * cols + j) by lia.
    destruct (at_index_lt image (i * cols + j)) as (x & -> & Hx); [lia|].
    simpl. eexists. split; [done|].
    rewrite (take_S_r _ j x) by (by rewrite lookup_drop).
    rewrite flat_map_app. simpl. by rewrite <- app_assoc.
  - simpl. unfold image_line. by rewrite <- app_assoc.
Qed.

Lemma display_rows_text (image : Vector T) (rows cols : nat) :
  rows * cols ≤ length image →
  for_loop rows 0 (display_row image (Z.of_nat cols)) []
  = Ok (flat_map (λ i, image_line (take cols (drop (i * cols) image)))
          (seq 0 rows)).
Proof.
  intros Hlen.
  destruct (for_loop_total
    (λ i c, c = flat_map
                  (λ i, image_line (take cols (drop (i * cols) image)))
                  (seq 0 i))
    rows 0 (display_row image (Z.of_nat cols)) []) as (c & -> & ->);
    [done| |done].
  intros i c Hi ->. eexists. split; [apply display_row_line; nia|].
  rewrite seq_S, flat_map_app. simpl. by rewrite app_nil_r.
Qed.

(** X27.  [display_image] on an image of [rows * columns] pixels, with
    sizes that are not negative: nothing fails, and the text written is
    the picture, one line per row with ["1 "] for a pixel above one half
    and two blanks for any other, and an empty line at the end. *)
Theorem display_image_text (image : Vector T) (rows columns : Z) :
  (0 ≤ rows)%Z → (0 ≤ columns)%Z → (rows * columns < 2 ^ 31)%Z →
  Z.of_nat (length image) = (rows * columns)%Z →
  display_image image rows columns
  = Ok (image_text (Z.to_nat rows) (Z.to_nat columns) image).
Proof.
  intros Hrows Hcols Hint Hsize. unfold display_image.
  destruct (decide _) as [_|Hout]; [|lia].
  rewrite wrap_small by lia.
  destruct (decide _) as [Hne|_]; [lia|].
  rewrite <- (Z2Nat.id columns) at 1 by lia.
  rewrite display_rows_text by nia. done.
Qed.

(** X28.  The only check of [display_image] is on the product
    [rows * columns]: the call throws [std::invalid_argument] exactly when
    the image does not have that many pixels, and when [rows] is not
    positive and the product fits, as with two negative sizes, it draws no
    pixel and writes the final empty line only. *)
Theorem display_image_checks_product (image : Vector T) (rows columns : Z) :
  (- 2 ^ 31 ≤ rows * columns < 2 ^ 31)%Z →
  (Z.of_nat (length image) < 2 ^ 63)%Z →
  (display_image image rows columns = Err InvalidArgument
   ↔ Z.of_nat (length image) ≠ (rows * columns)%Z) ∧
  ((rows ≤ 0)%Z → Z.of_nat (length image) = (rows * columns)%Z →
   display_image image rows columns = Ok [endl]).
Proof.
  intros Hint Hlen.
  assert (Z.of_nat (length image) ≠ wrap 64 (rows * columns)
          ↔ Z.of_nat (length image) ≠ (rows * columns)%Z) as Hwrap.
  { unfold wrap. destruct (decide (rows * columns < 0)%Z).
    - replace ((rows * columns) mod 2 ^ 64)%Z
        with (rows * columns + 2 ^ 64)%Z; [lia|].
      apply (Z.mod_unique _ _ (-1)); lia.
    - rewrite Z.mod_small by lia. done. }
  split.
  - unfold display_image. destruct (decide _) as [_|Hout]; [|lia].
    destruct (decide _) as [Hne|Heq].
    + split; [intros _; by apply Hwrap|done].
    + split; [|intros Hne; destruct Heq; by apply Hwrap].
      destruct (for_loop _ _ _ _) as [cout|e] eqn:Hloop; [done|].
      simpl. intros [= ->]. exfalso.
      apply (for_loop_err (λ e, e = Undefined)) in Hloop; [done|].
      intros i c e' _. unfold display_row.
      destruct (for_loop _ _ _ c) as [c'|e2] eqn:Hinner; [done|].
      simpl. intros [= <-].
      apply (for_loop_err (λ e, e = Undefined)) in Hinner; [done|].
      intros j c2 e3 _. unfold display_pixel.
      destruct (at_index _ _) as [x|e4] eqn:Hx; [done|].
      simpl. intros [= <-]. by eapply at_index_Err.
  - intros Hrows Hsize. unfold display_image.
    destruct (decide _) as [_|Hout]; [|lia].
    destruct (decide _) as [Hne|_]; [by apply Hwrap in Hne|].
    by replace (Z.to_nat rows) with 0 by lia.
Qed.
End display.

(** * include/dataset.h *)

Section dataset_facts.
Import Dataset.





(** *** read_labels *)




(** *** read_images *)

Section read_images_facts.
Context `{Numeric T}.




End read_images_facts.
End dataset_facts.

(** ** The readers and the picture on concrete data *)

Lemma display_image_text_witness :
  display_image [1%R; 0%R; (/ 4)%R; 1%R] 2 2
  = Ok (image_text (Z.to_nat 2) (Z.to_nat 2) [1%R; 0%R; (/ 4)%R; 1%R]).
Proof.
  apply (display_image_text (H := R_numeric) [1%R; 0%R; (/ 4)%R; 1%R] 2 2);
    simpl; lia.
Defined.

Lemma display_image_checks_product_witness :
  (display_image [1%R; 0%R; 0%R; 1%R; 1%R; 0%R] (-2) (-3)
     = Err InvalidArgument
   ↔ Z.of_nat (length [1%R; 0%R; 0%R; 1%R; 1%R; 0%R]) ≠ (-2 * -3)%Z) ∧
  ((-2 ≤ 0)%Z →
   Z.of_nat (length [1%R; 0%R; 0%R; 1%R; 1%R; 0%R]) = (-2 * -3)%Z →
   display_image [1%R; 0%R; 0%R; 1%R; 1%R; 0%R] (-2) (-3) = Ok [endl]).
Proof.
  apply (display_image_checks_product (H := R_numeric)
           [1%R; 0%R; 0%R; 1%R; 1%R; 0%R] (-2) (-3)); simpl; lia.
Defined.
